(** * LocalBasisFunction: the dependency-driven evaluation engine of
      [lbftd/evalGibbs.py], embedded in Rocq.

    The development follows the source function by function.  Floating-point
    numbers are represented by rationals: the engine itself only compares
    them with zero and with each other, all arithmetic on array contents is
    done by the collaborators (the spline evaluator and the registry's
    computation functions), which are taken as pure functions.
    Wall-clock timing and the [verbose] status lines are left out. *)

From Stdlib Require Import QArith.
From stdpp Require Import gmap strings list fin_maps.

#[local] Set Warnings "-clear-no-such-hyp".

Local Open Scope string_scope.
Local Open Scope nat_scope.
Local Open Scope list_scope.

(** ** Data model *)

(** Modelled from the spec: the dimension indices [statevars.iP], [statevars.iT]
    and [statevars.iM] (the module [lbftd/statevars.py] is not part of the
    sources at hand); the docstring of [evalSolutionGibbs] fixes the order
    pressure, temperature, molality. *)
Definition iP : nat := 0.
Definition iT : nat := 1.
Definition iM : nat := 2.

(** Modelled from the spec: [statevars.defDer], the default derivative order
    ("default zero"). *)
Definition defDer : nat := 0.

(** A NumPy array of floats: its shape and its elements in row-major order.
    Floats are represented by rationals: the rounding of [float64] is not
    modelled, and the statements below compare floats with each other and
    with 0 only, never the result of an arithmetic operation with a number. *)
Record ndarray := NdArray { shape : list nat; data : list Q }.

(** [v.size] *)
Definition size_of (v : ndarray) : nat := foldr Nat.mul 1 (shape v).

(** [v.ndim], that is [len(v.shape)] *)
Definition ndim (v : ndarray) : nat := length (shape v).

(** The spline dictionary produced by [mlbspline.load.getSplineDict]. *)
Record Spline := {
  number : list nat;
  knots : list (list Q);
  order : list nat;
  coefs : ndarray
}.

(** A scalar coordinate of a single point.  Subscripting a Python number
    raises [TypeError], subscripting a NumPy scalar raises [IndexError]. *)
Inductive scalar :=
| PyNum (x : Q)
| NpNum (x : Q).

Definition scalar_val (s : scalar) : Q :=
  match s with PyNum x | NpNum x => x end.

(** The [PTM] argument: a tuple with one scalar per dimension, or a reference
    to the caller's outer array, an array of objects whose slots hold one
    array per dimension (so that [PTM.size] is the number of dimensions, as
    the docstring of [evalSolutionGibbs] requires). *)
Inductive PTMarg :=
| PTuple (xs : list scalar)
| PArray.

(** References to the two outer arrays a call can see: the caller's own
    object and the one allocated by [_wrapPTM] for a single point. *)
Inductive ref := Caller | Wrapped.

(** The value of [np.copy(PTM)]: a flat float array for a tuple of scalars,
    a copy of the outer array (sharing the inner arrays, which are never
    written to) for nested arrays. *)
Inductive PTMcopy :=
| CopyFlat (xs : list Q)
| CopyNested (xs : list (list Q)).

(** The result object.  [PTM] is the class attribute holding the copy of the
    point set; [vars] is the instance dictionary ([vars(tdvout)]), in insertion
    order.  Registry names are taken to differ from the reserved name PTM. *)
Record ThermodynamicStates := {
  PTM : PTMcopy;
  vars : list (string * ndarray)
}.

(** What a computation function can be handed. *)
Inductive Resource :=
| RDerivs (d : gmap string ndarray)
| RGrid (g : option (list ndarray))
| RMW (w : option Q)
| RTdv (o : ThermodynamicStates)
| RSpline (s : Spline)
| RPTM (p : list (list Q))
| RF (f : option (list Q)).

(** Modelled from the spec: the Variable Descriptor of [statevars] (class
    missing from the sources at hand), with exactly the attributes that
    [evalGibbs.py] reads.  [reqDerivs] lists derivative names, [reqTDV] is the
    set of names the variable depends on, the [parm...] fields are the keyword
    names under which [calcFn] receives each resource. *)
Record TDV := {
  name : string;
  reqDerivs : list string;
  reqGrid : bool;
  reqMWv : bool;
  reqMWu : bool;
  reqTDV : gset string;
  reqSpline : bool;
  reqPTM : bool;
  reqF : bool;
  reqM : bool;
  req0M : bool;
  parmderivs : string;
  parmgrid : string;
  parmMWv : string;
  parmMWu : string;
  parmtdv : string;
  parmspline : string;
  parmptm : string;
  parmf : string;
  calcFn : gmap string Resource → ndarray
}.

(** Modelled from the spec: an entry of [statevars.derivatives] (missing from
    the sources at hand): a name and a derivative order per dimension, where
    order [0] stands for "not given". *)
Record DerivSpec := {
  dname : string;
  wrtP : nat;
  wrtT : nat;
  wrtM : nat
}.

(** An element of the caller's [*tdvSpec]: a name or a descriptor. *)
Inductive specItem :=
| ByName (n : string)
| ByTDV (t : TDV).

(** Modelled from the spec: the collaborators of the engine that live outside
    [evalGibbs.py]: the Spec Expander [statevars.expandTDVSpec] (it fails on a
    name absent from the registry), the catalogue [statevars.derivatives], the
    spline evaluator [mlbspline.eval.evalMultivarSpline] and the machine's
    total virtual memory in bytes.  To these comes, of the Python run time,
    the order in which a set of strings is iterated: it depends on the hash
    seed of the process, so [set_order] is any function that sends the
    sequence of insertions to an enumeration, without repetition, of the
    strings inserted. *)
Record Externals := {
  expandTDVSpec : list specItem → nat → string + list TDV;
  derivatives : list DerivSpec;
  evalMultivarSpline : Spline → list (list Q) → list nat → ndarray;
  vmTotal : Z;
  set_order : list string → list string;
  set_order_perm : ∀ l, set_order l ≡ₚ remove_dups l
}.

(** ** Errors, events and the evaluation monad *)

Inductive mw := Solvent | Solute.

(** The exceptions a call can raise.  The source raises [ValueError] with five
    different messages; they are told apart here by the names the spec uses. *)
Inductive error :=
| UnknownVariable (n : string)
| IncompatibleSpline (names : list string)
| DimensionMismatch (names : gset string)
| MissingParameter (which : mw) (names : list string)
| ExtrapolationError (dims : list nat)
| IndexError
| TypeError
| ValueError
| StopIteration.

Inductive warning :=
| ExtrapolationWarning (dims : list nat)
| MemoryWarning.

(** What a call does that the outside can observe. *)
Inductive event :=
| Notice (added : list string)
| Warn (w : warning)
| EvalSpline (rd : string) (derivDirective : list nat) (pts : list (list Q))
| Calc (n : string) (args : gmap string Resource).

Inductive outcome (A : Type) :=
| Ret (a : A)
| Raise (e : error)
| OutOfFuel.
Arguments Ret {A} a.
Arguments Raise {A} e.
Arguments OutOfFuel {A}.

(** The store holds the two outer arrays; [log] is the trace of events. *)
Record state := {
  caller_obj : list (list Q);
  wrapped_obj : list (list Q);
  log : list event
}.

Definition M (A : Type) : Type := state → state * outcome A.

Definition ret {A} (a : A) : M A := λ s, (s, Ret a).
Definition raise {A} (e : error) : M A := λ s, (s, Raise e).
Definition diverge {A} : M A := λ s, (s, OutOfFuel).
Definition bind {A B} (m : M A) (k : A → M B) : M B :=
  λ s, match m s with
       | (s', Ret a) => k a s'
       | (s', Raise e) => (s', Raise e)
       | (s', OutOfFuel) => (s', OutOfFuel)
       end.

Notation "x <- m ;; k" := (bind m (λ x, k))
  (at level 100, m at next level, right associativity).
Notation "m ;;; k" := (bind m (λ _, k))
  (at level 100, right associativity).

Definition emit (e : event) : M unit :=
  λ s, ({| caller_obj := caller_obj s; wrapped_obj := wrapped_obj s;
           log := log s ++ [e] |}, Ret tt).

Definition deref (r : ref) : M (list (list Q)) :=
  λ s, (s, Ret (match r with Caller => caller_obj s | Wrapped => wrapped_obj s end)).

Definition store (r : ref) (o : list (list Q)) : M unit :=
  λ s, (match r with
        | Caller => {| caller_obj := o; wrapped_obj := wrapped_obj s; log := log s |}
        | Wrapped => {| caller_obj := caller_obj s; wrapped_obj := o; log := log s |}
        end, Ret tt).

(** [xs[i]] on a list, tuple or array *)
Definition index {A} (xs : list A) (i : nat) : M A :=
  match xs !! i with Some x => ret x | None => raise IndexError end.

Fixpoint mapM_ {A B} (f : A → M B) (xs : list A) : M (list B) :=
  match xs with
  | [] => ret []
  | x :: xs' => y <- f x ;; ys <- mapM_ f xs' ;; ret (y :: ys)
  end.

Fixpoint foldM {A S} (f : S → A → M S) (acc : S) (xs : list A) : M S :=
  match xs with
  | [] => ret acc
  | x :: xs' => acc' <- f acc x ;; foldM f acc' xs'
  end.

(** ** Small helpers for Python's truth values and comparisons *)

Definition Qltb (x y : Q) : bool := negb (Qle_bool y x).
Definition Qneqb (x y : Q) : bool := negb (Qeq_bool x y).

(** [mw == 0] and [not mw] for a molecular weight that may be [None] *)
Definition mw_eq0 (w : option Q) : bool :=
  match w with Some x => Qeq_bool x 0 | None => false end.
Definition mw_not (w : option Q) : bool :=
  match w with Some x => Qeq_bool x 0 | None => true end.

Definition nonempty {A} (xs : list A) : bool :=
  match xs with [] => false | _ => true end.

(** [out[i] = x] on a Python list *)
Definition list_assign {A} (xs : list A) (i : nat) (x : A) : M (list A) :=
  if decide (i < length xs) then ret (<[i:=x]> xs) else raise IndexError.

(** [(k[0], k[-1])] *)
Definition ends (k : list Q) : M (Q * Q) :=
  match k, last k with
  | x :: _, Some y => ret (x, y)
  | _, _ => raise IndexError
  end.

(** The value of a 64-bit signed integer after an operation whose exact
    result is [z] *)
Definition wrap64 (z : Z) : Z := ((z + 2 ^ 63) mod 2 ^ 64 - 2 ^ 63)%Z.

(** A product of [int64] numbers as NumPy computes it: it wraps around. *)
Definition mul64 (a b : Z) : Z := wrap64 (a * b).

(** ** The engine *)

Section Engine.
Context (E : Externals).

(** [_checkSplineAndTdvs] *)
Definition _checkSplineAndTdvs (gibbsSp : Spline) (dimCt : nat) (tdvSpec : list TDV) : M unit :=
  knotranges <- mapM_ ends (knots gibbsSp) ;;
  let req0M_ := filter (λ t, req0M t = true) tdvSpec in
  bad <- (if bool_decide (dimCt = 3) && nonempty req0M_
          then kr <- index knotranges iM ;; ret (Qneqb (fst kr) 0)
          else ret false) ;;
  if (bad : bool) then raise (IncompatibleSpline (name <$> req0M_))
  else
    let reqM_ := filter (λ t, reqF t || reqM t = true) tdvSpec in
    if bool_decide (dimCt = 2) && nonempty reqM_
    then raise (DimensionMismatch (list_to_set (name <$> reqM_)))
    else ret tt.

(** [ptmranges]: the extrema of each dimension of the caller's point set *)
Definition ptmranges (PTM : PTMarg) : M (list (Q * Q)) :=
  match PTM with
  | PTuple xs => ret ((λ d, (scalar_val d, scalar_val d)) <$> xs)
  | PArray => ds <- deref Caller ;; mapM_ ends ds
  end.

Definition hasValsOutsideKnotRange (kr dr : Q * Q) : bool :=
  Qltb (fst dr) (fst kr) || Qltb (snd kr) (snd dr).

(** The range check that ends [_checkUserInput], from [extrapolationDims] on *)
Definition rangeCheck (dimCt : nat) (knotranges ptmranges : list (Q * Q))
    (failOnExtrapolate : bool) : M unit :=
  flags <- mapM_ (λ i, kr <- index knotranges i ;; dr <- index ptmranges i ;;
                       ret (hasValsOutsideKnotRange kr dr)) (seq 0 dimCt) ;;
  let extrapolationDims :=
    fst <$> filter (λ p, snd p = true) (zip (seq 0 dimCt) flags) in
  if nonempty extrapolationDims
  then if failOnExtrapolate
       then raise (ExtrapolationError extrapolationDims)
       else emit (Warn (ExtrapolationWarning extrapolationDims))
  else ret tt.

(** [_checkUserInput]; the parameters are in the order of the source's
    [def] line. *)
Definition _checkUserInput (gibbsSp : Spline) (dimCt : nat) (tdvSpec : list TDV)
    (PTM : PTMarg) (MWu MWv : option Q) (failOnExtrapolate : bool) : M unit :=
  let reqMWv_ := filter (λ t, reqMWv t = true) tdvSpec in
  if (mw_eq0 MWv || mw_not MWv) && nonempty reqMWv_
  then raise (MissingParameter Solvent (name <$> reqMWv_))
  else
    let reqMWu_ := filter (λ t, reqMWu t = true) tdvSpec in
    if (mw_eq0 MWu || mw_not MWu) && nonempty reqMWu_
    then raise (MissingParameter Solute (name <$> reqMWu_))
    else
      knotranges <- mapM_ ends (knots gibbsSp) ;;
      ptmr <- ptmranges PTM ;;
      rangeCheck dimCt knotranges ptmr failOnExtrapolate.

Definition vmWarningFactor : Z := 2.
Definition floatSizeBytes : Z := 8.

(** [len(d) if isinstance(d, Iterable) else 1], dimension by dimension *)
Definition pointCounts (PTM : PTMarg) : M (list Z) :=
  match PTM with
  | PTuple xs => ret ((λ _, 1%Z) <$> xs)
  | PArray => ds <- deref Caller ;; ret ((λ d : list Q, Z.of_nat (length d)) <$> ds)
  end.

(** [_checkMemReq]: [np.prod] of a list of Python integers is an [int64],
    and so are its products with Python integers; the right-hand side of the
    comparison is a product of Python integers, which are unbounded. *)
Definition _checkMemReq (tdvSpec : list TDV) (PTM : PTMarg) : M unit :=
  cts <- pointCounts PTM ;;
  let ptct := foldr mul64 1%Z cts in
  let outputSize :=
    mul64 (mul64 (Z.of_nat (length tdvSpec) + 1) ptct) floatSizeBytes in
  if bool_decide (vmTotal E * vmWarningFactor < outputSize)%Z
  then emit (Warn MemoryWarning)
  else ret tt.

(** [_checkInputs]; the call of [_checkUserInput] passes its arguments by
    position, in the order written in the source. *)
Definition _checkInputs (gibbsSp : Spline) (dimCt : nat) (tdvSpec : list TDV)
    (PTM : PTMarg) (MWv MWu : option Q) (failOnExtrapolate : bool) : M unit :=
  _checkSplineAndTdvs gibbsSp dimCt tdvSpec ;;;
  _checkUserInput gibbsSp dimCt tdvSpec PTM MWv MWu failOnExtrapolate ;;;
  _checkMemReq tdvSpec PTM.

(** [createThermodynamicStatesObj]: every field is a class attribute, the
    instance dictionary starts empty. *)
Definition createThermodynamicStatesObj (dimCt : nat) (tdvSpec : list TDV)
    (PTM : PTMarg) : M ThermodynamicStates :=
  match PTM with
  | PTuple xs => ret {| PTM := CopyFlat (scalar_val <$> xs); vars := [] |}
  | PArray => ds <- deref Caller ;; ret {| PTM := CopyNested ds; vars := [] |}
  end.

(** [_needs0M] *)
Definition _needs0M (dimCt : nat) (PTM : ref) (tdvSpec : list TDV) : M bool :=
  if bool_decide (dimCt = 3)
  then ds <- deref PTM ;; m <- index ds iM ;; m0 <- index m 0 ;;
       ret (Qneqb m0 0 && existsb req0M tdvSpec)
  else ret false.

(** The [try] block of [_wrapPTM]: [origPTM[iP][0]] succeeds on nested arrays;
    on a tuple it raises [IndexError] for a NumPy scalar (and the point is
    wrapped), [TypeError] for a Python number (and nothing catches it).  The
    wrapper writes a non-scalar into a float slot when it is reached with
    nested arrays whose pressure array is empty. *)
Definition _wrapPTM_try (origPTM : PTMarg) (dimCt : nat) : M ref :=
  match origPTM with
  | PArray =>
      ds <- deref Caller ;;
      match ds !! iP with
      | Some (_ :: _) => ret Caller
      | _ =>
          store Wrapped [] ;;;
          foldM (λ _ i, _ <- index ds i ;; raise ValueError) tt (seq 0 dimCt) ;;;
          ret Wrapped
      end
  | PTuple xs =>
      match xs !! iP with
      | Some (PyNum _) => raise TypeError
      | _ =>
          store Wrapped [] ;;;
          foldM (λ _ i, x <- index xs i ;; w <- deref Wrapped ;;
                        store Wrapped (w ++ [[scalar_val x]])) tt (seq 0 dimCt) ;;;
          ret Wrapped
      end
  end.

(** [_wrapPTM] *)
Definition _wrapPTM (origPTM : PTMarg) (dimCt : nat) (tdvSpec : list TDV) : M ref :=
  PTM <- _wrapPTM_try origPTM dimCt ;;
  need <- _needs0M dimCt PTM tdvSpec ;;
  (if (need : bool)
   then ds <- deref PTM ;; m <- index ds iM ;; store PTM (<[iM := 0%Q :: m]> ds)
   else ret tt) ;;;
  ret PTM.

(** [next(d for d in statevars.derivatives if d.name == dn)] *)
Definition getDerivSpec (dn : string) : M DerivSpec :=
  match List.find (λ d, bool_decide (dname d = dn)) (derivatives E) with
  | Some d => ret d
  | None => raise StopIteration
  end.

(** [_buildDerivDirective] *)
Definition _buildDerivDirective (derivSpec : DerivSpec) (dimCt : nat) : M (list nat) :=
  let out := replicate dimCt defDer in
  out <- (if bool_decide (wrtP derivSpec ≠ 0)
          then list_assign out iP (wrtP derivSpec) else ret out) ;;
  out <- (if bool_decide (wrtT derivSpec ≠ 0)
          then list_assign out iT (wrtT derivSpec) else ret out) ;;
  out <- (if bool_decide (wrtM derivSpec ≠ 0)
          then list_assign out iM (wrtM derivSpec) else ret out) ;;
  ret out.

(** The set comprehension [{d for t in tdvSpec for d in t.reqDerivs}], in the
    order in which [for rd in reqderivs] goes through it *)
Definition reqderivs (tdvSpec : list TDV) : list string :=
  set_order E (t ← tdvSpec; reqDerivs t).

(** The body of [for rd in reqderivs] in [getDerivatives]; the object [out] is
    represented by the map from the attribute names set so far to their
    values. *)
Definition evalDerivative (gibbsSp : Spline) (PTM : ref) (dimCt : nat)
    (out : gmap string ndarray) (rd : string) : M (gmap string ndarray) :=
  derivSpec <- getDerivSpec rd ;;
  derivDirective <- _buildDerivDirective derivSpec dimCt ;;
  pts <- deref PTM ;;
  emit (EvalSpline rd derivDirective pts) ;;;
  ret (<[rd := evalMultivarSpline E gibbsSp pts derivDirective]> out).

(** [getDerivatives] *)
Definition getDerivatives (gibbsSp : Spline) (PTM : ref) (dimCt : nat)
    (tdvSpec : list TDV) : M (gmap string ndarray) :=
  foldM (evalDerivative gibbsSp PTM dimCt) ∅ (reqderivs tdvSpec).

(** [np.meshgrid] of the dimensions [xs] with matrix indexing *)
Definition meshgrid (xs : list (list Q)) : list ndarray :=
  let sh := length <$> xs in
  imap (λ i x,
          {| shape := sh;
             data := mjoin (replicate (foldr Nat.mul 1 (take i sh))
                              (a ← x; replicate (foldr Nat.mul 1 (drop (S i) sh)) a)) |})
       xs.

(** [_getGriddedPTM] *)
Definition _getGriddedPTM (tdvSpec : list TDV) (PTM : ref) : M (list ndarray) :=
  if existsb reqGrid tdvSpec
  then pts <- deref PTM ;; ret (meshgrid pts)
  else ret [].

(** [_getVolSolventInVolSlnConversion]: [1 + MWu * PTM[iM]] *)
Definition _getVolSolventInVolSlnConversion (MWu : option Q) (PTM : ref) : M (list Q) :=
  pts <- deref PTM ;;
  m <- index pts iM ;;
  match MWu with
  | Some w => ret ((λ x, 1 + w * x)%Q <$> m)
  | None => raise TypeError
  end.

(** [_buildEvalArgs] *)
Definition _buildEvalArgs (tdv : TDV) (derivs : gmap string ndarray)
    (PTM : list (list Q)) (gPTM : option (list ndarray)) (MWv MWu : option Q)
    (tdvout : ThermodynamicStates) (gibbsSp : Spline) (f : option (list Q))
    : gmap string Resource :=
  let args : gmap string Resource := ∅ in
  let args := if nonempty (reqDerivs tdv) then <[parmderivs tdv := RDerivs derivs]> args else args in
  let args := if reqGrid tdv then <[parmgrid tdv := RGrid gPTM]> args else args in
  let args := if reqMWv tdv then <[parmMWv tdv := RMW MWv]> args else args in
  let args := if reqMWu tdv then <[parmMWu tdv := RMW MWu]> args else args in
  let args := if bool_decide (reqTDV tdv ≠ ∅) then <[parmtdv tdv := RTdv tdvout]> args else args in
  let args := if reqSpline tdv then <[parmspline tdv := RSpline gibbsSp]> args else args in
  let args := if reqPTM tdv then <[parmptm tdv := RPTM PTM]> args else args in
  let args := if reqF tdv then <[parmf tdv := RF f]> args else args in
  args.

(** [setattr(tdvout, p, v)] on the instance dictionary *)
Fixpoint dict_set {V} (k : string) (v : V) (d : list (string * V)) : list (string * V) :=
  match d with
  | [] => [(k, v)]
  | (k', v') :: d' =>
      if decide (k' = k) then (k, v) :: d' else (k', v') :: dict_set k v d'
  end.

Definition setattr (o : ThermodynamicStates) (p : string) (v : ndarray)
    : ThermodynamicStates :=
  {| PTM := PTM o; vars := dict_set p v (vars o) |}.

(** A [slice(None)] or a [slice(n, None)] *)
Inductive slice := SliceAll | SliceFrom (n : nat).

Definition slice_start (sl : slice) : nat :=
  match sl with SliceAll => 0 | SliceFrom n => n end.

(** The [s] consecutive rows of [inner] elements each that make up [d] *)
Definition rows (s inner : nat) (d : list Q) : list (list Q) :=
  (λ i, take inner (drop (i * inner) d)) <$> seq 0 s.

(** [v[tuple(slc)]] on the row-major data of an array of shape [sh] *)
Fixpoint getitem (sh : list nat) (slc : list slice) (d : list Q) : list Q :=
  match sh, slc with
  | s :: sh', sl :: slc' =>
      mjoin (getitem sh' slc' <$> drop (slice_start sl) (rows s (foldr Nat.mul 1 sh') d))
  | _, _ => d
  end.

Definition sliced_shape (sh : list nat) (slc : list slice) : list nat :=
  zip_with (λ s sl, s - slice_start sl) sh slc.

(** The body of the loop of [_remove0M] for one value *)
Definition remove_first_M (v : ndarray) : M ndarray :=
  let slc := replicate (length (shape v)) SliceAll in
  slc <- list_assign slc iM (SliceFrom 1) ;;
  ret {| shape := sliced_shape (shape v) slc; data := getitem (shape v) slc (data v) |}.

(** [firstM != 0] in [_remove0M], where [firstM] is [tdvout.PTM[iM][0]], or
    [tdvout.PTM[iM]] when that raised [IndexError]; an empty array counts as
    false in a condition. *)
Definition firstM_nonzero (p : PTMcopy) : M bool :=
  match p with
  | CopyNested xs =>
      match xs !! iM with
      | Some (m0 :: _) => ret (Qneqb m0 0)
      | Some [] => ret false
      | None => raise IndexError
      end
  | CopyFlat xs => m <- index xs iM ;; ret (Qneqb m 0)
  end.

(** [_remove0M] *)
Definition _remove0M (tdvout : ThermodynamicStates) (wrappedPTM : ref)
    : M ThermodynamicStates :=
  w <- deref wrappedPTM ;;
  has0 <- (if bool_decide (length w = 3)
           then m <- index w iM ;; m0 <- index m 0 ;; ret (Qeq_bool m0 0)
           else ret false) ;;
  if (has0 : bool)
  then nz <- firstM_nonzero (PTM tdvout) ;;
       if (nz : bool)
       then vs <- mapM_ (λ pv, v <- remove_first_M (snd pv) ;; ret (fst pv, v))
                        (vars tdvout) ;;
            ret {| PTM := PTM tdvout; vars := vs |}
       else ret tdvout
  else ret tdvout.

(** The condition of the generator in the scheduler loop *)
Definition eligible (completedTDVs : gset string) (t : TDV) : bool :=
  bool_decide (name t ∉ completedTDVs)
  && (bool_decide (reqTDV t = ∅) || bool_decide (reqTDV t ∖ completedTDVs = ∅)).

(** What the scheduler carries around: the resources computed before the loop *)
Record Resources := {
  r_derivs : gmap string ndarray;
  r_PTM : ref;
  r_gPTM : option (list ndarray);
  r_MWv : option Q;
  r_MWu : option Q;
  r_gibbsSp : Spline;
  r_f : option (list Q)
}.

(** The body of [for t in tdvsToEval] *)
Definition evalTDV (R : Resources) (st : gset string * ThermodynamicStates) (t : TDV)
    : M (gset string * ThermodynamicStates) :=
  let '(completedTDVs, tdvout) := st in
  pts <- deref (r_PTM R) ;;
  let args := _buildEvalArgs t (r_derivs R) pts (r_gPTM R) (r_MWv R) (r_MWu R)
                tdvout (r_gibbsSp R) (r_f R) in
  emit (Calc (name t) args) ;;;
  ret ({[name t]} ∪ completedTDVs, setattr tdvout (name t) (calcFn t args)).

(** One pass of the [while] loop *)
Definition pass (R : Resources) (tdvSpec : list TDV)
    (st : gset string * ThermodynamicStates) : M (gset string * ThermodynamicStates) :=
  let tdvsToEval := filter (λ t, eligible (fst st) t = true) tdvSpec in
  foldM (evalTDV R) st tdvsToEval.

(** The [while len(completedTDVs) < len(tdvSpec)] loop; [fuel] bounds the
    number of passes. *)
Fixpoint scheduler (fuel : nat) (R : Resources) (tdvSpec : list TDV)
    (st : gset string * ThermodynamicStates) : M ThermodynamicStates :=
  if decide (size (fst st) < length tdvSpec)
  then match fuel with
       | 0 => diverge
       | S fuel' => st' <- pass R tdvSpec st ;; scheduler fuel' R tdvSpec st'
       end
  else ret (snd st).

(** [s.name not in origSpec]: a name equals a string of the tuple, never a
    descriptor object. *)
Definition in_origSpec (n : string) (origSpec : list specItem) : bool :=
  existsb (λ it, match it with ByName n' => bool_decide (n = n') | ByTDV _ => false end)
          origSpec.

(** The first half of the body of [evalSolutionGibbs], down to the
    computation of [f]: it yields the expanded specification, the fresh result
    object and the resources handed to the scheduler. *)
Definition setup (gibbsSp : Spline) (PTM : PTMarg)
    (tdvSpec : list specItem) (MWv MWu : option Q) (failOnExtrapolate : bool)
    : M (list TDV * ThermodynamicStates * Resources) :=
  let dimCt := length (number gibbsSp) in
  let origSpec := tdvSpec in
  tdvSpec <- (match expandTDVSpec E tdvSpec dimCt with
              | inr spec => ret spec
              | inl n => raise (UnknownVariable n)
              end) ;;
  let addedTDVs := name <$> filter (λ s, in_origSpec (name s) origSpec = false) tdvSpec in
  (if nonempty origSpec && nonempty addedTDVs then emit (Notice addedTDVs) else ret tt) ;;;
  _checkInputs gibbsSp dimCt tdvSpec PTM MWv MWu failOnExtrapolate ;;;
  tdvout <- createThermodynamicStatesObj dimCt tdvSpec PTM ;;
  PTM <- _wrapPTM PTM dimCt tdvSpec ;;
  derivs <- getDerivatives gibbsSp PTM dimCt tdvSpec ;;
  gPTM <- (if existsb reqGrid tdvSpec
           then g <- _getGriddedPTM tdvSpec PTM ;; ret (Some g) else ret None) ;;
  f <- (if existsb reqF tdvSpec
        then f <- _getVolSolventInVolSlnConversion MWu PTM ;; ret (Some f) else ret None) ;;
  ret (tdvSpec, tdvout,
       {| r_derivs := derivs; r_PTM := PTM; r_gPTM := gPTM; r_MWv := MWv;
          r_MWu := MWu; r_gibbsSp := gibbsSp; r_f := f |}).

(** [evalSolutionGibbs]: [setup], then the scheduler loop started with
    [completedTDVs = set()], then [_remove0M]. *)
Definition evalSolutionGibbs (fuel : nat) (gibbsSp : Spline) (PTM : PTMarg)
    (tdvSpec : list specItem) (MWv MWu : option Q) (failOnExtrapolate : bool)
    : M ThermodynamicStates :=
  pre <- setup gibbsSp PTM tdvSpec MWv MWu failOnExtrapolate ;;
  let '(tdvSpec, tdvout, R) := pre in
  tdvout <- scheduler fuel R tdvSpec (∅, tdvout) ;;
  tdvout <- _remove0M tdvout (r_PTM R) ;;
  ret tdvout.

End Engine.

(** The default of the [MWv] parameter, the molecular weight of water *)
Definition MWv_default : option Q := Some (1801528 # 100000000).

(** The state a call starts in: the caller's outer array and an empty trace *)
Definition initial (caller : list (list Q)) : state :=
  {| caller_obj := caller; wrapped_obj := []; log := [] |}.

(** ** A small registry and splines to run the engine on *)

Module Examples.

Definition empty_array : ndarray := {| shape := []; data := [] |}.

(** A stand-in for the spline evaluator: on the grid spanned by the points it
    returns, at every grid point, the sum of the coordinates. *)
Definition sumgrid (pts : list (list Q)) : ndarray :=
  {| shape := length <$> pts;
     data := foldr (λ g acc, zip_with Qplus (data g) acc)
               (replicate (foldr Nat.mul 1 (length <$> pts)) 0%Q) (meshgrid pts) |}.

Definition mkTDV (n : string) (derivs : list string) (mwv mwu : bool)
    (deps : gset string) (rf rm r0 : bool) (fn : gmap string Resource → ndarray) : TDV :=
  {| name := n; reqDerivs := derivs; reqGrid := false; reqMWv := mwv; reqMWu := mwu;
     reqTDV := deps; reqSpline := false; reqPTM := false; reqF := rf; reqM := rm;
     req0M := r0;
     parmderivs := "gibbsDerivs"; parmgrid := "gPTM"; parmMWv := "MWv";
     parmMWu := "MWu"; parmtdv := "tdv"; parmspline := "gibbsSp"; parmptm := "PTM";
     parmf := "f"; calcFn := fn |}.

(** A computation that returns one of the derivatives it is handed *)
Definition fromDeriv (d : string) (args : gmap string Resource) : ndarray :=
  match args !! "gibbsDerivs" with
  | Some (RDerivs m) => default empty_array (m !! d)
  | _ => empty_array
  end.

(** A computation that returns a variable computed before it *)
Definition fromTdv (d : string) (args : gmap string Resource) : ndarray :=
  match args !! "tdv" with
  | Some (RTdv o) =>
      default empty_array (snd <$> List.find (λ p, bool_decide (fst p = d)) (vars o))
  | _ => empty_array
  end.

Definition G : TDV := mkTDV "G" ["d0"] false false ∅ false false false (fromDeriv "d0").
Definition rho : TDV := mkTDV "rho" ["d1P"] true false ∅ false false false (fromDeriv "d1P").
Definition Cp : TDV := mkTDV "Cp" ["d0"] false false ∅ false false false (fromDeriv "d0").
Definition mus : TDV := mkTDV "mus" ["d0"] false false {["G"]} false true true (fromTdv "G").
Definition Va : TDV := mkTDV "Va" [] false false ∅ true true false (fromDeriv "d0").

(** A computation that looks at the copy of the point set stored in the
    result object it is handed: it returns an array of the shape of the
    variable [d], filled with the number of molalities of that copy. *)
Definition countM (d : string) (args : gmap string Resource) : ndarray :=
  match args !! "tdv" with
  | Some (RTdv o) =>
      let g := fromTdv d args in
      let n := match PTM o with
               | CopyNested [_; _; ms] => length ms
               | _ => 0
               end in
      {| shape := shape g; data := replicate (length (data g)) (inject_Z (Z.of_nat n)) |}
  | _ => empty_array
  end.

Definition peek : TDV := mkTDV "peek" [] false false {["G"]} false true true (countM "G").

(** A computation that needs the zero concentration and returns a
    pressure-temperature array *)
Definition flat : TDV :=
  mkTDV "flat" [] false false ∅ false true true
        (λ _, {| shape := [2; 1]; data := [7; 7]%Q |}).

(** Two descriptors that wait for each other *)
Definition ping : TDV := mkTDV "ping" [] false false {["pong"]} false false false (fromTdv "pong").
Definition pong : TDV := mkTDV "pong" [] false false {["ping"]} false false false (fromTdv "ping").

Definition registry (closure : list TDV) : Externals :=
  {| expandTDVSpec := λ _ _, inr closure;
     derivatives := [ {| dname := "d0"; wrtP := 0; wrtT := 0; wrtM := 0 |};
                      {| dname := "d1P"; wrtP := 1; wrtT := 0; wrtM := 0 |} ];
     evalMultivarSpline := λ _ pts _, sumgrid pts;
     vmTotal := 16000000000;
     set_order := remove_dups;
     set_order_perm := λ l, reflexivity (remove_dups l) |}.

Definition knots01 : list Q := [0; 0; 10; 10]%Q.

(** A pressure-temperature spline *)
Definition sp2 : Spline :=
  {| number := [2; 2]; knots := [knots01; knots01]; order := [2; 2];
     coefs := {| shape := [2; 2]; data := [1; 2; 3; 4]%Q |} |}.

(** A pressure-temperature-molality spline whose molality knots start at 0 *)
Definition sp3 : Spline :=
  {| number := [2; 2; 2]; knots := [knots01; knots01; knots01]; order := [2; 2; 2];
     coefs := {| shape := [2; 2; 2]; data := [1; 2; 3; 4; 5; 6; 7; 8]%Q |} |}.

(** The same with molality knots starting at 1/10 *)
Definition sp3_from_tenth : Spline :=
  {| number := [2; 2; 2]; knots := [knots01; knots01; [1 # 10; 1 # 10; 10; 10]%Q];
     order := [2; 2; 2];
     coefs := {| shape := [2; 2; 2]; data := [1; 2; 3; 4; 5; 6; 7; 8]%Q |} |}.

Definition grid2 : list (list Q) := [[1; 2]; [3]]%Q.
Definition grid3 : list (list Q) := [[1; 2]; [3]; [4; 5]]%Q.
Definition grid3_with0 : list (list Q) := [[1; 2]; [3]; [0; 4; 5]]%Q.

End Examples.

(** ** Vocabulary of the statements *)

Definition same_store (s s' : state) : Prop :=
  caller_obj s' = caller_obj s ∧ wrapped_obj s' = wrapped_obj s.

(** How far a computation may move the state: it may only append events
    satisfying [Q] to the trace and, when [K] holds, leaves both arrays alone. *)
Definition step_rel (K : Prop) (Q : event → Prop) (s s' : state) : Prop :=
  (K → same_store s s') ∧ ∃ evs, log s' = log s ++ evs ∧ Forall Q evs.

(** [respects K Q V D m]: whatever the start state, [m] moves it within
    [step_rel K Q], every exception it raises satisfies [V], and it runs out
    of fuel only if [D] holds. *)
Definition respects (K : Prop) (Q : event → Prop) (V : error → Prop) (D : Prop)
    {A} (m : M A) : Prop :=
  ∀ s, step_rel K Q s (fst (m s))
       ∧ (∀ e, snd (m s) = Raise e → V e)
       ∧ (snd (m s) = OutOfFuel → D).

Definition is_advisory (ev : event) : Prop :=
  match ev with Notice _ | Warn _ => True | _ => False end.

Definition is_calc (ev : event) : Prop :=
  match ev with Calc _ _ => True | _ => False end.

Definition is_spline_call (ev : event) : Prop :=
  match ev with EvalSpline _ _ _ => True | _ => False end.

(** The validation failures of section 7 of the specification *)
Definition is_validation (e : error) : Prop :=
  match e with
  | UnknownVariable _ | IncompatibleSpline _ | DimensionMismatch _
  | MissingParameter _ _ | ExtrapolationError _ => True
  | _ => False
  end.

Definition any_error (e : error) : Prop := True.
Definition any_event (ev : event) : Prop := True.

(** A computation whose validation failures leave nothing behind but
    advisory messages. *)
Definition fails_clean {A} (m : M A) : Prop :=
  ∀ s s' e, m s = (s', Raise e) → is_validation e → step_rel True is_advisory s s'.

Definition add_log (s : state) (evs : list event) : state :=
  {| caller_obj := caller_obj s; wrapped_obj := wrapped_obj s; log := log s ++ evs |}.

(** The names of the variables computed in a trace, in order *)
Definition calc_names (evs : list event) : list string :=
  omap (λ ev, match ev with Calc n _ => Some n | _ => None end) evs.

(** The derivative names the spline evaluator was called for, in order *)
Definition spline_calls (evs : list event) : list string :=
  omap (λ ev, match ev with EvalSpline rd _ _ => Some rd | _ => None end) evs.

(** The keys of the instance dictionary, in insertion order *)
Definition keys (o : ThermodynamicStates) : list string := fst <$> vars o.

(** The point set a reference stands for in a state *)
Definition pts_of (r : ref) (s : state) : list (list Q) :=
  match r with Caller => caller_obj s | Wrapped => wrapped_obj s end.

(** An event of the scheduler: the computation of a variable [t] of the
    specification, with the arguments [_buildEvalArgs] makes for it from the
    result object [o] as it stands, which already holds all that [t] depends
    on. *)
Definition scheduled (R : Resources) (tdvSpec : list TDV) (pts : list (list Q))
    (ev : event) : Prop :=
  ∃ t o, t ∈ tdvSpec
         ∧ ev = Calc (name t) (_buildEvalArgs t (r_derivs R) pts (r_gPTM R) (r_MWv R)
                                 (r_MWu R) o (r_gibbsSp R) (r_f R))
         ∧ (∀ d, d ∈ reqTDV t → d ∈ keys o).

(** The dependencies are well founded inside the closure: every dependency is
    itself a name of the closure and ranks strictly lower; ranks stay
    below [B]. *)
Definition ranked (tdvSpec : list TDV) (rank : string → nat) (B : nat) : Prop :=
  ∀ t, t ∈ tdvSpec →
    rank (name t) < B
    ∧ ∀ d, d ∈ reqTDV t → d ∈ (name <$> tdvSpec) ∧ rank d < rank (name t).

(** Following the specification's words: the eight resources a descriptor can
    declare, each with the flag that declares it and the keyword under which
    the computation function receives it. *)
Definition resources (tdv : TDV) (derivs : gmap string ndarray)
    (pts : list (list Q)) (gPTM : option (list ndarray)) (MWv MWu : option Q)
    (tdvout : ThermodynamicStates) (gibbsSp : Spline) (f : option (list Q))
    : list (bool * (string * Resource)) :=
  [ (nonempty (reqDerivs tdv), (parmderivs tdv, RDerivs derivs));
    (reqGrid tdv, (parmgrid tdv, RGrid gPTM));
    (reqMWv tdv, (parmMWv tdv, RMW MWv));
    (reqMWu tdv, (parmMWu tdv, RMW MWu));
    (bool_decide (reqTDV tdv ≠ ∅), (parmtdv tdv, RTdv tdvout));
    (reqSpline tdv, (parmspline tdv, RSpline gibbsSp));
    (reqPTM tdv, (parmptm tdv, RPTM pts));
    (reqF tdv, (parmf tdv, RF f)) ].

Definition parm_names (tdv : TDV) : list string :=
  [ parmderivs tdv; parmgrid tdv; parmMWv tdv; parmMWu tdv; parmtdv tdv;
    parmspline tdv; parmptm tdv; parmf tdv ].

(** One line of [_buildEvalArgs]: [if flag: args[key] = value] *)
Definition cond_insert (m : gmap string Resource) (e : bool * (string * Resource))
    : gmap string Resource :=
  if fst e then <[fst (snd e) := snd (snd e)]> m else m.

(** A computation that neither reads nor writes the state *)
Definition stateless {A} (m : M A) : Prop := ∃ r, ∀ s, m s = (s, r).

(** A call of the spline evaluator as [getDerivatives] makes it: for the
    derivative name [rd], at the points [pts], with the directive built from
    the first entry of the catalogue of that name. *)
Definition derivative_call (E : Externals) (dimCt : nat) (pts : list (list Q))
    (ev : event) : Prop :=
  ∃ rd ds dd,
    ev = EvalSpline rd dd pts
    ∧ List.find (λ d, bool_decide (dname d = rd)) (derivatives E) = Some ds
    ∧ dname ds = rd
    ∧ ∀ s0, _buildDerivDirective ds dimCt s0 = (s0, Ret dd).

Definition set_caller (s : state) (o : list (list Q)) : state :=
  {| caller_obj := o; wrapped_obj := wrapped_obj s; log := log s |}.

(** [v[i, j, ...]]: the element of an array of shape [sh] at a full index *)
Fixpoint nd_index (sh idx : list nat) (d : list Q) : option Q :=
  match sh, idx with
  | s :: sh', i :: idx' =>
      if decide (i < s)
      then nd_index sh' idx' (take (foldr Nat.mul 1 sh') (drop (i * foldr Nat.mul 1 sh') d))
      else None
  | [], [] => d !! 0
  | _, _ => None
  end.

(** Two states hold the same arrays; their traces may differ. *)
Definition agree (s1 s2 : state) : Prop :=
  caller_obj s1 = caller_obj s2 ∧ wrapped_obj s1 = wrapped_obj s2.

(** A computation whose outcome and whose effect on the arrays depend on the
    arrays only, not on the trace. *)
Definition oblivious {A} (m : M A) : Prop :=
  ∀ s1 s2, agree s1 s2 → snd (m s1) = snd (m s2) ∧ agree (fst (m s1)) (fst (m s2)).

(** The computation function of [t] reads the variables computed so far from
    the result object it is handed, not the copy of the point set stored
    beside them. *)
Definition reads_variables_only (t : TDV) : Prop :=
  ∀ derivs pts gPTM MWv MWu o o' gibbsSp f,
    vars o = vars o' →
    calcFn t (_buildEvalArgs t derivs pts gPTM MWv MWu o gibbsSp f)
    = calcFn t (_buildEvalArgs t derivs pts gPTM MWv MWu o' gibbsSp f).

(** [v[:, :, 1:]] *)
Definition drop_first_M (v : ndarray) : ndarray :=
  {| shape := sliced_shape (shape v) [SliceAll; SliceAll; SliceFrom 1];
     data := getitem (shape v) [SliceAll; SliceAll; SliceFrom 1] (data v) |}.

Definition nd_get (v : ndarray) (idx : list nat) : option Q :=
  nd_index (shape v) idx (data v).

(** A checker for [ranked] *)
Definition rankedb (tdvSpec : list TDV) (rank : string → nat) (B : nat) : bool :=
  forallb (λ t, (rank (name t) <? B)
                && forallb (λ d, bool_decide (d ∈ (name <$> tdvSpec))
                                 && (rank d <? rank (name t)))
                           (elements (reqTDV t)))
          tdvSpec.

Definition rank_mus (n : string) : nat := if decide (n = "mus") then 1 else 0.

(** ** Vocabulary of the further properties *)

(** A trace computes every variable after the variables it depends on:
    [seen] holds the names computed so far. *)
Fixpoint dependency_ordered (tdvSpec : list TDV) (seen : gset string)
    (evs : list event) : Prop :=
  match evs with
  | [] => True
  | Calc n _ :: evs' =>
      (∃ t, t ∈ tdvSpec ∧ name t = n ∧ reqTDV t ⊆ seen)
      ∧ dependency_ordered tdvSpec ({[n]} ∪ seen) evs'
  | _ :: evs' => dependency_ordered tdvSpec seen evs'
  end.

(** A computation that leaves the caller's outer array as it found it *)
Definition keeps_caller {A} (m : M A) : Prop :=
  ∀ s, caller_obj (fst (m s)) = caller_obj s.

(** The array [c'] is the array [c] with a 0 put in front of its molalities,
    which did not start with 0. *)
Definition zero_injected (c c' : list (list Q)) : Prop :=
  ∃ m M', c !! iM = Some (m :: M') ∧ Qneqb m 0 = true
          ∧ c' = <[iM := 0%Q :: m :: M']> c.

(** The value of [np.copy(PTM)] taken from the argument as the caller passed
    it, in the state the call starts in *)
Definition original_copy (PTMa : PTMarg) (s : state) : PTMcopy :=
  match PTMa with
  | PTuple xs => CopyFlat (scalar_val <$> xs)
  | PArray => CopyNested (caller_obj s)
  end.

(** The point set as the caller gave it, one array per dimension: a scalar
    coordinate counts as an array of one element, and of a tuple only the
    first [dimCt] coordinates are read. *)
Definition given_points (PTMa : PTMarg) (dimCt : nat) (s : state) : list (list Q) :=
  match PTMa with
  | PTuple xs => (λ x, [scalar_val x]) <$> take dimCt xs
  | PArray => caller_obj s
  end.

(** What [_wrapPTM] does to a point set of one array per dimension: for a
    three-dimensional spline, molalities that do not start with 0 and a
    variable flagged [req0M], a 0 is put in front of the molalities. *)
Definition inject0 (dimCt : nat) (tdvSpec : list TDV) (pts : list (list Q))
    : list (list Q) :=
  if bool_decide (dimCt = 3)
  then match pts !! iM with
       | Some (m0 :: M') =>
           if Qneqb m0 0 && existsb req0M tdvSpec
           then <[iM := 0%Q :: m0 :: M']> pts else pts
       | _ => pts
       end
  else pts.

(** The points at which the spline and the variables are evaluated *)
Definition normalised (PTMa : PTMarg) (dimCt : nat) (tdvSpec : list TDV) (s : state)
    : list (list Q) :=
  inject0 dimCt tdvSpec (given_points PTMa dimCt s).

(** The shape of the grid the caller asked for: one axis per dimension of the
    spline, of length 1 for a scalar coordinate. *)
Definition requested_shape (PTMa : PTMarg) (dimCt : nat) (s : state) : list nat :=
  match PTMa with
  | PTuple _ => replicate dimCt 1
  | PArray => length <$> caller_obj s
  end.

(** An event that concerns the points [pts] only: a call of the spline
    evaluator at [pts], or the computation of a variable whose function is
    handed no point set other than [pts]. *)
Definition at_points (pts : list (list Q)) (ev : event) : Prop :=
  match ev with
  | EvalSpline _ _ p => p = pts
  | Calc _ args => ∀ k p, args !! k = Some (RPTM p) → p = pts
  | _ => True
  end.

(** The first and the last element of a non-empty sequence *)
Definition extrema (k : list Q) : option (Q * Q) :=
  match k, last k with
  | x :: _, Some y => Some (x, y)
  | _, _ => None
  end.

(** Dimension [i] of the points reaches beyond the knots of the spline: the
    first point lies below the first knot, or the last point above the last
    knot. *)
Definition extrapolates (knots pts : list (list Q)) (i : nat) : Prop :=
  ∃ kr dr, knots !! i ≫= extrema = Some kr ∧ pts !! i ≫= extrema = Some dr
           ∧ (fst dr < fst kr ∨ snd kr < snd dr)%Q.

(** The flag the range check computes for dimension [i] *)
Definition outside (knotranges ptmranges : list (Q * Q)) (i : nat) : bool :=
  match knotranges !! i, ptmranges !! i with
  | Some kr, Some dr => hasValsOutsideKnotRange kr dr
  | _, _ => false
  end.

Definition not_extrapolation (e : error) : Prop :=
  match e with ExtrapolationError _ => False | _ => True end.

Definition no_extrapolation_warning (ev : event) : Prop :=
  match ev with Warn (ExtrapolationWarning _) => False | _ => True end.

(** The number of dimensions a derivative needs: the position of its last
    non-zero order. *)
Definition required_dims (d : DerivSpec) : nat :=
  if bool_decide (wrtM d ≠ 0) then 3
  else if bool_decide (wrtT d ≠ 0) then 2
  else if bool_decide (wrtP d ≠ 0) then 1 else 0.

(** The derivative orders in the order of the dimensions of the spline, cut
    or filled with the default to [dimCt] entries *)
Definition directive (d : DerivSpec) (dimCt : nat) : list nat :=
  take dimCt [wrtP d; wrtT d; wrtM d] ++ replicate (dimCt - 3) defDer.

(** The same collaborators on a machine with [v] bytes of virtual memory *)
Definition with_vmTotal (E : Externals) (v : Z) : Externals :=
  {| expandTDVSpec := expandTDVSpec E; derivatives := derivatives E;
     evalMultivarSpline := evalMultivarSpline E; vmTotal := v;
     set_order := set_order E; set_order_perm := set_order_perm E |}.

(** Two computations that, started on the same arrays, end with the same
    outcome and the same arrays; their traces may differ. *)
Definition paired {A} (m1 m2 : M A) : Prop :=
  ∀ s1 s2, agree s1 s2 → snd (m1 s1) = snd (m2 s2) ∧ agree (fst (m1 s1)) (fst (m2 s2)).

(** A variable that asks for the gridded point set and returns the grid of
    the last dimension *)
Definition lastGrid : TDV :=
  {| name := "lastGrid"; reqDerivs := []; reqGrid := true; reqMWv := false;
     reqMWu := false; reqTDV := ∅; reqSpline := false; reqPTM := false; reqF := false;
     reqM := false; req0M := false;
     parmderivs := "gibbsDerivs"; parmgrid := "gPTM"; parmMWv := "MWv";
     parmMWu := "MWu"; parmtdv := "tdv"; parmspline := "gibbsSp"; parmptm := "PTM";
     parmf := "f";
     calcFn := λ args, match args !! "gPTM" with
                       | Some (RGrid (Some gs)) => default Examples.empty_array (last gs)
                       | _ => Examples.empty_array
                       end |}.





(** * Proofs *)

(** ** Reasoning about the monad *)

Lemma bind_Ret {A B} (m : M A) (k : A → M B) s s1 a :
  m s = (s1, Ret a) → bind m k s = k a s1.
Proof. intros H. unfold bind. by rewrite H. Qed.

Lemma bind_Raise {A B} (m : M A) (k : A → M B) s s1 e :
  m s = (s1, Raise e) → bind m k s = (s1, Raise e).
Proof. intros H. unfold bind. by rewrite H. Qed.

Lemma bind_OutOfFuel {A B} (m : M A) (k : A → M B) s s1 :
  m s = (s1, OutOfFuel) → bind m k s = (s1, OutOfFuel).
Proof. intros H. unfold bind. by rewrite H. Qed.

Lemma bind_Ret_inv {A B} (m : M A) (k : A → M B) s s' b :
  bind m k s = (s', Ret b) → ∃ s1 a, m s = (s1, Ret a) ∧ k a s1 = (s', Ret b).
Proof.
  unfold bind. destruct (m s) as [s1 [a|e|]]; intros H; try discriminate.
  by exists s1, a.
Qed.

Lemma bind_cases {A B} (m : M A) (k : A → M B) s :
  (∃ s1 a, m s = (s1, Ret a) ∧ bind m k s = k a s1)
  ∨ (∃ s1 e, m s = (s1, Raise e) ∧ bind m k s = (s1, Raise e))
  ∨ (∃ s1, m s = (s1, OutOfFuel) ∧ bind m k s = (s1, OutOfFuel)).
Proof.
  unfold bind. destruct (m s) as [s1 [a|e|]]; eauto 6.
Qed.

Lemma step_rel_refl K Q s : step_rel K Q s s.
Proof. split; [by split|]. exists []. by rewrite app_nil_r. Qed.

Lemma step_rel_trans K Q s1 s2 s3 :
  step_rel K Q s1 s2 → step_rel K Q s2 s3 → step_rel K Q s1 s3.
Proof.
  intros [HK1 (e1 & Hl1 & HQ1)] [HK2 (e2 & Hl2 & HQ2)]. split.
  - intros HK. destruct (HK1 HK), (HK2 HK). split; congruence.
  - exists (e1 ++ e2). rewrite Hl2, Hl1, app_assoc. split; [done|].
    by apply Forall_app.
Qed.

Section Respects.
Context (K : Prop) (Q : event → Prop) (V : error → Prop) (D : Prop).

Lemma respects_ret {A} (a : A) : respects K Q V D (ret a).
Proof. intros s. split_and!; [apply step_rel_refl | discriminate..]. Qed.

Lemma respects_raise {A} e : V e → respects K Q V D (@raise A e).
Proof.
  intros HV s. split_and!; [apply step_rel_refl| |discriminate].
  simpl. by intros ? [= <-].
Qed.

Lemma respects_diverge {A} : D → respects K Q V D (@diverge A).
Proof. intros HD s. split_and!; [apply step_rel_refl | discriminate | done]. Qed.

Lemma respects_deref r : respects K Q V D (deref r).
Proof. intros s. split_and!; [apply step_rel_refl | discriminate..]. Qed.

Lemma respects_emit ev : Q ev → respects K Q V D (emit ev).
Proof.
  intros HQ s. split_and!; [|discriminate..]. split; [by split|].
  exists [ev]. split; [done|]. by apply Forall_singleton.
Qed.

Lemma respects_store r o : ¬ K → respects K Q V D (store r o).
Proof.
  intros HK s. split_and!; [|discriminate..]. split; [done|].
  exists []. rewrite app_nil_r. split; [by destruct r|done].
Qed.

Lemma respects_bind {A B} (m : M A) (k : A → M B) :
  respects K Q V D m → (∀ a, respects K Q V D (k a)) → respects K Q V D (bind m k).
Proof.
  intros Hm Hk s. destruct (Hm s) as (Hr & Hv & Hd).
  destruct (bind_cases m k s) as [(s1 & a & H1 & ->)|[(s1 & e & H1 & ->)|(s1 & H1 & ->)]];
    rewrite H1 in Hr, Hv, Hd; simpl in *.
  - destruct (Hk a s1) as (Hr' & Hv' & Hd'). split_and!; [|done..].
    by eapply step_rel_trans.
  - split_and!; [done| |discriminate]. intros ? [= <-]. by apply Hv.
  - split_and!; [done|discriminate|by intros _; apply Hd].
Qed.

Lemma respects_index {A} (xs : list A) i : V IndexError → respects K Q V D (index xs i).
Proof.
  intros HV. unfold index. destruct (xs !! i);
    [apply respects_ret | by apply respects_raise].
Qed.

Lemma respects_list_assign {A} (xs : list A) i x :
  V IndexError → respects K Q V D (list_assign xs i x).
Proof.
  intros HV. unfold list_assign. case_decide;
    [apply respects_ret | by apply respects_raise].
Qed.

Lemma respects_ends k : V IndexError → respects K Q V D (ends k).
Proof.
  intros HV. unfold ends. destruct k; [by apply respects_raise|].
  destruct (last _); [apply respects_ret | by apply respects_raise].
Qed.

Lemma respects_mapM {A B} (f : A → M B) xs :
  (∀ x, respects K Q V D (f x)) → respects K Q V D (mapM_ f xs).
Proof.
  intros Hf. induction xs as [|x xs IH]; simpl; [apply respects_ret|].
  apply respects_bind; [done|]. intros y.
  apply respects_bind; [done|]. intros ys. apply respects_ret.
Qed.

Lemma respects_foldM {A S} (f : S → A → M S) acc xs :
  (∀ a x, respects K Q V D (f a x)) → respects K Q V D (foldM f acc xs).
Proof.
  intros Hf. revert acc. induction xs as [|x xs IH]; intros acc; simpl;
    [apply respects_ret|].
  apply respects_bind; [done|]. intros a. apply IH.
Qed.
End Respects.

(** Breaks a goal [respects K Q V m] down along the structure of [m]. *)
Ltac respects_step :=
  lazymatch goal with
  | |- respects _ _ _ _ (bind _ _) => apply respects_bind; [|intros ?]
  | |- respects _ _ _ _ (ret _) => apply respects_ret
  | |- respects _ _ _ _ diverge => apply respects_diverge
  | |- respects _ _ _ _ (deref _) => apply respects_deref
  | |- respects _ _ _ _ (raise _) => apply respects_raise
  | |- respects _ _ _ _ (emit _) => apply respects_emit
  | |- respects _ _ _ _ (store _ _) => apply respects_store
  | |- respects _ _ _ _ (index _ _) => apply respects_index
  | |- respects _ _ _ _ (list_assign _ _ _) => apply respects_list_assign
  | |- respects _ _ _ _ (ends _) => apply respects_ends
  | |- respects _ _ _ _ (mapM_ _ _) => apply respects_mapM; intros ?
  | |- respects _ _ _ _ (foldM _ _ _) => apply respects_foldM; intros ? ?
  | |- respects _ _ _ _ (if ?b then _ else _) => destruct b
  | |- respects _ _ _ _ (match ?x with _ => _ end) => destruct x
  | |- respects _ _ _ _ (let '(_, _) := ?x in _) => destruct x
  end.

Ltac respects_tac := repeat respects_step; try done.

(** ** What each stage may do to the state *)

Section Stages.
Context (E : Externals).

Lemma checkInputs_respects K Q D gibbsSp dimCt tdvSpec PTM MWv MWu foe :
  (∀ w, Q (Warn w)) →
  respects K Q any_error D (_checkInputs E gibbsSp dimCt tdvSpec PTM MWv MWu foe).
Proof.
  intros HQ.
  unfold _checkInputs, _checkSplineAndTdvs, _checkUserInput, rangeCheck,
    _checkMemReq, ptmranges, pointCounts.
  respects_tac.
Qed.

Lemma createThermodynamicStatesObj_respects K Q V D dimCt tdvSpec PTM :
  respects K Q V D (createThermodynamicStatesObj dimCt tdvSpec PTM).
Proof. unfold createThermodynamicStatesObj. respects_tac. Qed.

Lemma wrapPTM_respects Q V D origPTM dimCt tdvSpec :
  V IndexError → V TypeError → V ValueError →
  respects False Q V D (_wrapPTM origPTM dimCt tdvSpec).
Proof.
  intros ???. unfold _wrapPTM, _wrapPTM_try, _needs0M.
  respects_tac; tauto.
Qed.

Lemma getDerivatives_respects K Q V D gibbsSp PTM dimCt tdvSpec :
  (∀ rd dd pts, Q (EvalSpline rd dd pts)) → V IndexError → V StopIteration →
  respects K Q V D (getDerivatives E gibbsSp PTM dimCt tdvSpec).
Proof.
  intros ???. unfold getDerivatives, evalDerivative, getDerivSpec, _buildDerivDirective.
  respects_tac.
Qed.

Lemma getGriddedPTM_respects K Q V D tdvSpec PTM :
  respects K Q V D (_getGriddedPTM tdvSpec PTM).
Proof. unfold _getGriddedPTM. respects_tac. Qed.

Lemma getVolSolventInVolSlnConversion_respects K Q V D MWu PTM :
  V IndexError → V TypeError →
  respects K Q V D (_getVolSolventInVolSlnConversion MWu PTM).
Proof. intros ??. unfold _getVolSolventInVolSlnConversion. respects_tac. Qed.

Lemma evalTDV_respects K Q V D R st t :
  (∀ n a, Q (Calc n a)) → respects K Q V D (evalTDV R st t).
Proof. intros ?. unfold evalTDV. respects_tac. Qed.

Lemma pass_respects K Q V D R tdvSpec st :
  (∀ n a, Q (Calc n a)) → respects K Q V D (pass R tdvSpec st).
Proof.
  intros ?. unfold pass. apply respects_foldM. intros. by apply evalTDV_respects.
Qed.

Lemma scheduler_respects K Q V fuel R tdvSpec st :
  (∀ n a, Q (Calc n a)) → respects K Q V True (scheduler fuel R tdvSpec st).
Proof.
  intros ?. revert st. induction fuel as [|fuel IH]; intros st; simpl;
    case_decide; try respects_tac.
  by apply pass_respects.
Qed.

Lemma remove0M_respects K Q V D tdvout PTM :
  V IndexError → respects K Q V D (_remove0M tdvout PTM).
Proof.
  intros ?. unfold _remove0M, firstM_nonzero, remove_first_M. respects_tac.
Qed.

End Stages.

(** ** Validation comes first (C4) *)

Section Validation.
Context (E : Externals).

Lemma fails_clean_early {A B} (m : M A) (k : A → M B) :
  respects True is_advisory any_error True m → (∀ a, fails_clean (k a)) →
  fails_clean (bind m k).
Proof.
  intros Hm Hk s s' e Hrun Hval. destruct (Hm s) as (Hr & _ & _).
  destruct (bind_cases m k s) as [(s1 & a & H1 & Hb)|[(s1 & e' & H1 & Hb)|(s1 & H1 & Hb)]];
    rewrite Hb in Hrun; rewrite H1 in Hr; simpl in Hr.
  - eapply step_rel_trans; [done|]. by eapply Hk.
  - by injection Hrun as <- <-.
  - discriminate.
Qed.

Lemma fails_clean_late {A} (m : M A) :
  respects False any_event (λ e, ¬ is_validation e) True m → fails_clean m.
Proof.
  intros Hm s s' e Hrun Hval. destruct (Hm s) as (_ & Hv & _).
  rewrite Hrun in Hv. by destruct (Hv e).
Qed.

Lemma setup_fails_clean gibbsSp PTM tdvSpec MWv MWu foe :
  fails_clean (setup E gibbsSp PTM tdvSpec MWv MWu foe).
Proof.
  unfold setup.
  apply fails_clean_early; [respects_tac|]. intros spec.
  apply fails_clean_early; [respects_tac|]. intros _.
  apply fails_clean_early; [by apply checkInputs_respects|]. intros _.
  apply fails_clean_early; [apply createThermodynamicStatesObj_respects|].
  intros tdvout. apply fails_clean_late.
  apply respects_bind; [by apply wrapPTM_respects; intros []|]. intros PTMw.
  apply respects_bind; [by apply getDerivatives_respects; try intros []|].
  intros derivs. apply respects_bind.
  { destruct (existsb _ _); respects_tac. apply getGriddedPTM_respects. }
  intros gPTM. apply respects_bind; [|intros; apply respects_ret].
  destruct (existsb _ _); respects_tac.
  by apply getVolSolventInVolSlnConversion_respects; intros [].
Qed.

Lemma evalSolutionGibbs_fails_clean fuel gibbsSp PTM tdvSpec MWv MWu foe :
  fails_clean (evalSolutionGibbs E fuel gibbsSp PTM tdvSpec MWv MWu foe).
Proof.
  intros s s' e Hrun Hval. unfold evalSolutionGibbs in Hrun.
  destruct (bind_cases (setup E gibbsSp PTM tdvSpec MWv MWu foe)
              (λ pre, let '(tdvSpec0, tdvout, R) := pre in
                      tdvout0 <- scheduler fuel R tdvSpec0 (∅, tdvout) ;;
                      tdvout1 <- _remove0M tdvout0 (r_PTM R) ;; ret tdvout1) s)
    as [(s1 & [[spec tdvout] R] & H1 & Hb)|[(s1 & e' & H1 & Hb)|(s1 & H1 & Hb)]];
    rewrite Hb in Hrun.
  - exfalso. revert Hrun Hval. generalize s1 s' e.
    cut (respects False any_event (λ e, ¬ is_validation e) True
           (tdvout0 <- scheduler fuel R spec (∅, tdvout) ;;
            tdvout1 <- _remove0M tdvout0 (r_PTM R) ;; ret tdvout1)).
    { intros Hm s2 s2' e2 Hrun Hval. destruct (Hm s2) as (_ & Hv & _).
      rewrite Hrun in Hv. by destruct (Hv e2). }
    apply respects_bind; [by apply scheduler_respects|]. intros o.
    apply respects_bind; [by apply remove0M_respects; intros []|].
    intros; apply respects_ret.
  - injection Hrun as <- <-. by eapply setup_fails_clean.
  - discriminate.
Qed.

Lemma advisory_not_computation evs :
  Forall is_advisory evs → Forall (λ ev, ¬ is_calc ev ∧ ¬ is_spline_call ev) evs.
Proof.
  intros H. eapply Forall_impl; [done|]. intros [] ?; simpl in *; tauto.
Qed.

(** C4: whenever [evalSolutionGibbs] raises a validation error (unknown
    variable, incompatible spline, dimension mismatch, missing molecular
    weight, extrapolation under the fail policy), nothing has been computed:
    the trace holds at most the informational note and warnings, no spline
    evaluation and no variable computation, both arrays are as the caller left
    them, and the outcome carries no result object. *)
Theorem validation_precedes_computation fuel gibbsSp PTM tdvSpec MWv MWu foe s s' e :
  evalSolutionGibbs E fuel gibbsSp PTM tdvSpec MWv MWu foe s = (s', Raise e) →
  is_validation e →
  same_store s s'
  ∧ ∃ evs, log s' = log s ++ evs ∧ Forall is_advisory evs
      ∧ Forall (λ ev, ¬ is_calc ev ∧ ¬ is_spline_call ev) evs.
Proof.
  intros Hrun Hval.
  destruct (evalSolutionGibbs_fails_clean _ _ _ _ _ _ _ _ _ _ Hrun Hval)
    as [Hst (evs & Hlog & Hadv)].
  split; [by apply Hst|]. exists evs. split_and!; [done..|].
  by apply advisory_not_computation.
Qed.

(** *** The capability checks (C6, C7) *)

Lemma Qlt_0_neqb k0 : (0 < k0)%Q → Qneqb k0 0 = true.
Proof.
  intros Hlt. unfold Qneqb. destruct (Qeq_bool k0 0) eqn:Heq; [|done].
  apply Qeq_bool_eq in Heq. rewrite Heq in Hlt. by apply Qlt_irrefl in Hlt.
Qed.

Lemma mapM_ends_ok (ks : list (list Q)) s :
  Forall (λ k, k ≠ []) ks →
  ∃ krs, mapM_ ends ks s = (s, Ret krs)
         ∧ ∀ i k0 k', ks !! i = Some (k0 :: k') → fst <$> krs !! i = Some k0.
Proof.
  induction 1 as [|k ks Hk _ (krs & Hrun & Hlook)].
  - exists []. split; [done|]. intros i ?? Hi. by rewrite lookup_nil in Hi.
  - destruct k as [|k0 k']; [done|]. simpl.
    destruct (last (k0 :: k')) as [kl|] eqn:Hlast.
    2:{ by rewrite last_cons in Hlast; destruct (last k'). }
    exists ((k0, kl) :: krs). split.
    + unfold bind at 1. simpl. unfold bind at 1. by rewrite Hrun.
    + intros [|i] ?? Hi; simpl in *; [by injection Hi as <- <-|by eapply Hlook].
Qed.

Lemma notice_ok (b : bool) ev s :
  ∃ s1, (if b then emit ev else ret tt) s = (s1, Ret tt)
        ∧ (is_advisory ev → step_rel True is_advisory s s1).
Proof.
  destruct b; eexists; (split; [done|]); intros Hev.
  - by destruct (respects_emit True is_advisory any_error True ev Hev s).
  - apply step_rel_refl.
Qed.

Lemma checkSplineAndTdvs_incompatible gibbsSp tdvSpec k0 ks t s :
  Forall (λ k, k ≠ []) (knots gibbsSp) →
  knots gibbsSp !! iM = Some (k0 :: ks) →
  (0 < k0)%Q →
  t ∈ tdvSpec → req0M t = true →
  _checkSplineAndTdvs gibbsSp 3 tdvSpec s
  = (s, Raise (IncompatibleSpline (name <$> filter (λ t, req0M t = true) tdvSpec))).
Proof.
  intros Hne Hk Hlt Hin Hreq. unfold _checkSplineAndTdvs.
  destruct (mapM_ends_ok _ s Hne) as (krs & Hrun & Hlook).
  rewrite (bind_Ret _ _ _ _ _ Hrun).
  assert (t ∈ filter (λ t, req0M t = true) tdvSpec) as Hf by by apply list_elem_of_filter.
  destruct (filter _ tdvSpec) as [|t0 l] eqn:Hfl; [by apply elem_of_nil in Hf|].
  specialize (Hlook _ _ _ Hk). destruct (krs !! iM) as [[k0' kl]|] eqn:Hi; [|done].
  injection Hlook as ->. simpl. unfold index. rewrite Hi.
  unfold bind, ret. simpl. by rewrite Qlt_0_neqb.
Qed.

Lemma checkSplineAndTdvs_mismatch gibbsSp tdvSpec t s :
  Forall (λ k, k ≠ []) (knots gibbsSp) →
  t ∈ tdvSpec → reqM t = true ∨ reqF t = true →
  _checkSplineAndTdvs gibbsSp 2 tdvSpec s
  = (s, Raise (DimensionMismatch
                 (list_to_set (name <$> filter (λ t, reqF t || reqM t = true) tdvSpec)))).
Proof.
  intros Hne Hin Hreq. unfold _checkSplineAndTdvs.
  destruct (mapM_ends_ok _ s Hne) as (krs & Hrun & _).
  rewrite (bind_Ret _ _ _ _ _ Hrun).
  assert (t ∈ filter (λ t, reqF t || reqM t = true) tdvSpec) as Hf.
  { apply list_elem_of_filter. split; [|done]. destruct Hreq as [-> | ->]; by destruct (reqF t). }
  destruct (filter (λ t, reqF t || reqM t = true) tdvSpec) as [|t0 l] eqn:Hfl;
    [by apply elem_of_nil in Hf|].
  done.
Qed.

(** The run of [evalSolutionGibbs] when [_checkSplineAndTdvs] raises *)
Lemma evalSolutionGibbs_capability_failure fuel gibbsSp PTM origSpec spec MWv MWu foe s e :
  expandTDVSpec E origSpec (length (number gibbsSp)) = inr spec →
  (∀ s1, _checkSplineAndTdvs gibbsSp (length (number gibbsSp)) spec s1 = (s1, Raise e)) →
  ∃ s', evalSolutionGibbs E fuel gibbsSp PTM origSpec MWv MWu foe s = (s', Raise e)
        ∧ step_rel True is_advisory s s'.
Proof.
  intros Hexp Hchk. unfold evalSolutionGibbs.
  cut (∃ s', setup E gibbsSp PTM origSpec MWv MWu foe s = (s', Raise e)
             ∧ step_rel True is_advisory s s').
  { intros (s' & Hrun & Hst). exists s'. split; [|done]. by erewrite bind_Raise. }
  unfold setup. rewrite Hexp.
  rewrite (bind_Ret _ _ s s spec) by done. cbv beta.
  match goal with |- context [if ?b then emit ?ev else ret tt] =>
    destruct (notice_ok b ev s) as (s1 & Hn & Hadv) end.
  exists s1. split; [|by apply Hadv].
  erewrite bind_Ret; [|done]. unfold _checkInputs.
  erewrite bind_Raise; [done|]. by erewrite bind_Raise.
Qed.

(** C6: a three-dimensional spline whose molality knots start above zero,
    asked for a closure that contains a variable needing zero-concentration
    support, makes [evalSolutionGibbs] raise the incompatible-spline error,
    which names the variables needing that support; nothing has been computed
    by then (the trace gained advisory messages only, both arrays are
    untouched). *)
Theorem incompatible_spline_raised fuel gibbsSp PTM origSpec spec MWv MWu foe s k0 ks t :
  length (number gibbsSp) = 3 →
  Forall (λ k, k ≠ []) (knots gibbsSp) →
  knots gibbsSp !! iM = Some (k0 :: ks) →
  (0 < k0)%Q →
  expandTDVSpec E origSpec 3 = inr spec →
  t ∈ spec → req0M t = true →
  ∃ s' names evs,
    evalSolutionGibbs E fuel gibbsSp PTM origSpec MWv MWu foe s
    = (s', Raise (IncompatibleSpline names))
    ∧ names = name <$> filter (λ t, req0M t = true) spec
    ∧ name t ∈ names
    ∧ same_store s s'
    ∧ log s' = log s ++ evs
    ∧ Forall (λ ev, ¬ is_calc ev ∧ ¬ is_spline_call ev) evs.
Proof.
  intros Hdim Hne Hk Hlt Hexp Hin Hreq.
  destruct (evalSolutionGibbs_capability_failure fuel gibbsSp PTM origSpec spec
              MWv MWu foe s
              (IncompatibleSpline (name <$> filter (λ t, req0M t = true) spec)))
    as (s' & Hrun & [Hst (evs & Hlog & Hadv)]).
  { by rewrite Hdim. }
  { intros s1. rewrite Hdim. by eapply checkSplineAndTdvs_incompatible. }
  exists s', (name <$> filter (λ t, req0M t = true) spec), evs.
  split_and!; try done.
  - apply list_elem_of_fmap. exists t. split; [done|]. by apply list_elem_of_filter.
  - by apply Hst.
  - by apply advisory_not_computation.
Qed.

(** C7: a two-dimensional spline, asked for a closure that contains a variable
    needing molality or the conversion factor, makes [evalSolutionGibbs] raise
    the dimension-mismatch error, which names those variables; nothing has
    been computed by then. *)
Theorem dimension_mismatch_raised fuel gibbsSp PTM origSpec spec MWv MWu foe s t :
  length (number gibbsSp) = 2 →
  Forall (λ k, k ≠ []) (knots gibbsSp) →
  expandTDVSpec E origSpec 2 = inr spec →
  t ∈ spec → reqM t = true ∨ reqF t = true →
  ∃ s' names evs,
    evalSolutionGibbs E fuel gibbsSp PTM origSpec MWv MWu foe s
    = (s', Raise (DimensionMismatch names))
    ∧ names = list_to_set (name <$> filter (λ t, reqF t || reqM t = true) spec)
    ∧ name t ∈ names
    ∧ same_store s s'
    ∧ log s' = log s ++ evs
    ∧ Forall (λ ev, ¬ is_calc ev ∧ ¬ is_spline_call ev) evs.
Proof.
  intros Hdim Hne Hexp Hin Hreq.
  destruct (evalSolutionGibbs_capability_failure fuel gibbsSp PTM origSpec spec
              MWv MWu foe s
              (DimensionMismatch
                 (list_to_set (name <$> filter (λ t, reqF t || reqM t = true) spec))))
    as (s' & Hrun & [Hst (evs & Hlog & Hadv)]).
  { by rewrite Hdim. }
  { intros s1. rewrite Hdim. by eapply checkSplineAndTdvs_mismatch. }
  eexists s', _, evs. split_and!; try done.
  - apply elem_of_list_to_set, list_elem_of_fmap. exists t. split; [done|].
    apply list_elem_of_filter. split; [|done].
    destruct Hreq as [-> | ->]; by destruct (reqF t).
  - by apply Hst.
  - by apply advisory_not_computation.
Qed.

End Validation.

(** ** The scheduler loop (C2) *)

Lemma add_log_nil s : add_log s [] = s.
Proof. destruct s. unfold add_log. simpl. by rewrite app_nil_r. Qed.

Lemma add_log_app s a b : add_log (add_log s a) b = add_log s (a ++ b).
Proof. unfold add_log. simpl. by rewrite app_assoc. Qed.

Lemma calc_names_app a b : calc_names (a ++ b) = calc_names a ++ calc_names b.
Proof. apply omap_app. Qed.




Lemma dict_set_keys_new {V} k (v : V) d :
  k ∉ (fst <$> d) → fst <$> dict_set k v d = (fst <$> d) ++ [k].
Proof.
  induction d as [|[k' v'] d IH]; csimpl; [done|]. intros Hk.
  apply not_elem_of_cons in Hk as [Hne Hk]. case_decide; [congruence|].
  csimpl. by rewrite IH.
Qed.

Lemma eligible_spec c t :
  eligible c t = true ↔ (name t ∉ c) ∧ (reqTDV t ⊆ c).
Proof.
  unfold eligible. rewrite andb_true_iff, orb_true_iff, !bool_decide_eq_true.
  split.
  - intros [Hn [He|Hd]]; (split; [done|]).
    + rewrite He. set_solver.
    + intros x Hx. destruct (decide (x ∈ c)) as [|Hnc]; [done|].
      assert (x ∈ reqTDV t ∖ c) as Hin by set_solver. rewrite Hd in Hin. set_solver.
  - intros [Hn Hs]. split; [done|]. right. set_solver.
Qed.

Section Scheduler.
Context (R : Resources) (tdvSpec : list TDV).

Lemma evalTDV_run c o t s :
  evalTDV R (c, o) t s
  = (add_log s [Calc (name t) (_buildEvalArgs t (r_derivs R) (pts_of (r_PTM R) s)
                                 (r_gPTM R) (r_MWv R) (r_MWu R) o (r_gibbsSp R) (r_f R))],
     Ret ({[name t]} ∪ c,
          setattr o (name t)
            (calcFn t (_buildEvalArgs t (r_derivs R) (pts_of (r_PTM R) s) (r_gPTM R)
                         (r_MWv R) (r_MWu R) o (r_gibbsSp R) (r_f R))))).
Proof. reflexivity. Qed.

Lemma foldM_evalTDV ts : ∀ c o s,
  ts ⊆ tdvSpec →
  NoDup (name <$> ts) →
  (∀ t, t ∈ ts → (name t ∉ keys o) ∧ ∀ d, d ∈ reqTDV t → d ∈ keys o) →
  ∃ evs o',
    foldM (evalTDV R) (c, o) ts s
    = (add_log s evs, Ret (list_to_set (name <$> ts) ∪ c, o'))
    ∧ calc_names evs = name <$> ts
    ∧ Forall (scheduled R tdvSpec (pts_of (r_PTM R) s)) evs
    ∧ PTM o' = PTM o
    ∧ keys o' = keys o ++ (name <$> ts).
Proof.
  induction ts as [|t ts IH]; intros c o s Hsub Hnd Hfresh.
  - exists [], o. rewrite add_log_nil, app_nil_r. split_and!; try done.
    by assert (list_to_set (name <$> []) ∪ c = c) as -> by set_solver.
  - simpl in Hnd. apply NoDup_cons in Hnd as [Hnt Hnd].
    destruct (Hfresh t) as [Ht Hdeps]; [set_solver|].
    simpl. erewrite bind_Ret; [|apply evalTDV_run].
    set (args := _buildEvalArgs t _ _ _ _ _ _ _ _).
    destruct (IH ({[name t]} ∪ c) (setattr o (name t) (calcFn t args))
                (add_log s [Calc (name t) args]))
      as (evs & o' & Hrun & Hnames & Hsched & HPTM & Hkeys).
    { set_solver. }
    { done. }
    { intros t' Ht'. unfold keys, setattr. simpl.
      rewrite dict_set_keys_new by done. destruct (Hfresh t') as [Hn Hd]; [set_solver|].
      split.
      - rewrite elem_of_app, list_elem_of_singleton. intros [?|Heq]; [done|].
        apply Hnt. rewrite <- Heq. apply list_elem_of_fmap. by exists t'.
      - intros d Hdin. apply elem_of_app. left. by apply Hd. }
    exists (Calc (name t) args :: evs), o'. split_and!.
    + rewrite Hrun, add_log_app.
      by assert (list_to_set (name <$> ts) ∪ ({[name t]} ∪ c)
                 = list_to_set (name <$> t :: ts) ∪ c) as -> by set_solver.
    + change (calc_names (Calc (name t) args :: evs)) with (name t :: calc_names evs).
      by rewrite Hnames.
    + constructor; [|done].
      exists t, o. split_and!; [set_solver|done|done].
    + done.
    + rewrite Hkeys. unfold keys, setattr. simpl.
      rewrite dict_set_keys_new by done. by rewrite <- app_assoc.
Qed.

End Scheduler.

Section SchedulerLoop.
Context (R : Resources) (tdvSpec : list TDV).

Lemma pass_run c o s :
  NoDup (name <$> tdvSpec) →
  (∀ n, n ∈ c ↔ n ∈ keys o) →
  ∃ evs o',
    pass R tdvSpec (c, o) s
    = (add_log s evs, Ret (list_to_set (calc_names evs) ∪ c, o'))
    ∧ calc_names evs = name <$> filter (λ t, eligible c t = true) tdvSpec
    ∧ Forall (scheduled R tdvSpec (pts_of (r_PTM R) s)) evs
    ∧ PTM o' = PTM o
    ∧ keys o' = keys o ++ calc_names evs.
Proof.
  intros Hnd Hc. unfold pass. simpl.
  destruct (foldM_evalTDV R tdvSpec (filter (λ t, eligible c t = true) tdvSpec) c o s)
    as (evs & o' & Hrun & Hnames & Hsched & HPTM & Hkeys).
  - intros t Ht. by apply list_elem_of_filter in Ht as [_ ?].
  - eapply sublist_NoDup; [done|]. apply fmap_sublist, sublist_filter.
  - intros t Ht. apply list_elem_of_filter in Ht as [Hel _].
    apply eligible_spec in Hel as [Hn Hd]. rewrite <- Hc. split; [done|].
    intros d Hdin. apply Hc. by apply Hd.
  - exists evs, o'. rewrite Hnames. by rewrite <- Hnames at 3.
Qed.

Lemma scheduler_inv rank B : ∀ fuel k c o s,
  NoDup (name <$> tdvSpec) →
  ranked tdvSpec rank B →
  NoDup (keys o) →
  (∀ n, n ∈ c ↔ n ∈ keys o) →
  (∀ n, n ∈ keys o → n ∈ (name <$> tdvSpec)) →
  (∀ t, t ∈ tdvSpec → rank (name t) < k → name t ∈ c) →
  (B ≤ k + fuel)%nat →
  ∃ evs out,
    scheduler fuel R tdvSpec (c, o) s = (add_log s evs, Ret out)
    ∧ keys out = keys o ++ calc_names evs
    ∧ keys out ≡ₚ name <$> tdvSpec
    ∧ Forall (scheduled R tdvSpec (pts_of (r_PTM R) s)) evs
    ∧ PTM out = PTM o.
Proof.
  induction fuel as [|fuel IH]; intros k c o s Hnd Hrk Hko Hc Hsub Hdone HB.
  all: assert (c = list_to_set (keys o)) as Hceq by set_solver.
  all: assert (size c = length (keys o)) as Hsize
         by (by rewrite Hceq, size_list_to_set).
  all: simpl; case_decide as Hlt.
  - exfalso. assert (list_to_set (name <$> tdvSpec) ⊆ c) as Hall.
    { intros n Hn. apply elem_of_list_to_set, list_elem_of_fmap in Hn as (t & -> & Ht).
      apply Hdone; [done|]. destruct (Hrk t Ht). lia. }
    apply subseteq_size in Hall. rewrite size_list_to_set in Hall by done.
    rewrite length_fmap in Hall. lia.
  - exists [], o. rewrite add_log_nil, app_nil_r. split_and!; try done.
    apply submseteq_length_Permutation; [by apply NoDup_submseteq|].
    rewrite length_fmap. simpl in Hlt. lia.
  - destruct (pass_run c o s Hnd Hc) as (evs1 & o1 & Hrun1 & Hn1 & Hs1 & HP1 & Hk1).
    erewrite bind_Ret; [|done].
    assert (∀ n, n ∈ calc_names evs1 → (n ∉ c) ∧ n ∈ (name <$> tdvSpec)) as Hnew.
    { intros n. rewrite Hn1. intros (t & -> & Ht)%list_elem_of_fmap.
      apply list_elem_of_filter in Ht as [Hel Ht]. apply eligible_spec in Hel as [? _].
      split; [done|]. apply list_elem_of_fmap. by exists t. }
    destruct (IH (S k) (list_to_set (calc_names evs1) ∪ c) o1 (add_log s evs1))
      as (evs2 & out & Hrun2 & Hk2 & Hperm & Hs2 & HP2); try done.
    + rewrite Hk1. apply NoDup_app. split_and!; [done| |].
      * intros n Hn Hn'. destruct (Hnew n Hn') as [Hnc _]. by apply Hnc, Hc.
      * rewrite Hn1. eapply (sublist_NoDup _ (name <$> tdvSpec)); [done|].
        apply fmap_sublist, sublist_filter.
    + intros n. rewrite Hk1, elem_of_app, elem_of_union, elem_of_list_to_set, Hc. tauto.
    + intros n. rewrite Hk1, elem_of_app. intros [?|Hn]; [by apply Hsub|].
      by destruct (Hnew n Hn).
    + intros t Ht Hr. destruct (decide (name t ∈ c)) as [|Hnc]; [set_solver|].
      apply elem_of_union. left. apply elem_of_list_to_set. rewrite Hn1.
      apply list_elem_of_fmap. exists t. split; [done|].
      apply list_elem_of_filter. split; [|done]. apply eligible_spec. split; [done|].
      intros d Hd. destruct (Hrk t Ht) as [_ Hdeps].
      destruct (Hdeps d Hd) as [(t' & -> & Ht')%list_elem_of_fmap Hlt'].
      apply Hdone; [done|lia].
    + lia.
    + exists (evs1 ++ evs2), out. rewrite Hrun2, add_log_app.
      split_and!; try done.
      * by rewrite Hk2, Hk1, calc_names_app, app_assoc.
      * apply Forall_app. split; [done|]. by destruct (r_PTM R).
      * congruence.
  - exists [], o. rewrite add_log_nil, app_nil_r. split_and!; try done.
    apply submseteq_length_Permutation; [by apply NoDup_submseteq|].
    rewrite length_fmap. lia.
Qed.

Lemma pass_stuck st s :
  filter (λ t, eligible (fst st) t = true) tdvSpec = [] →
  pass R tdvSpec st s = (s, Ret st).
Proof. intros Hnone. unfold pass. by rewrite Hnone. Qed.

Lemma scheduler_stuck fuel st s :
  filter (λ t, eligible (fst st) t = true) tdvSpec = [] →
  size (fst st) < length tdvSpec →
  scheduler fuel R tdvSpec st s = (s, OutOfFuel).
Proof.
  intros Hnone Hlt. induction fuel as [|fuel IH]; simpl;
    (case_decide; [|lia]); [done|].
  erewrite bind_Ret; [|by apply pass_stuck]. done.
Qed.

End SchedulerLoop.

(** ** Taking a successful [setup] apart *)

Section Setup.
Context (E : Externals).

Lemma createThermodynamicStatesObj_run dimCt tdvSpec PTMa s :
  createThermodynamicStatesObj dimCt tdvSpec PTMa s
  = (s, Ret {| PTM := match PTMa with
                      | PTuple xs => CopyFlat (scalar_val <$> xs)
                      | PArray => CopyNested (caller_obj s)
                      end;
               vars := [] |}).
Proof. by destruct PTMa. Qed.

Lemma getGriddedPTM_run tdvSpec r s :
  _getGriddedPTM tdvSpec r s
  = (s, Ret (if existsb reqGrid tdvSpec then meshgrid (pts_of r s) else [])).
Proof. unfold _getGriddedPTM. destruct (existsb _ _); [by destruct r|done]. Qed.

Lemma getVolSolventInVolSlnConversion_state MWu r s s' f :
  _getVolSolventInVolSlnConversion MWu r s = (s', Ret f) → s' = s.
Proof.
  unfold _getVolSolventInVolSlnConversion, bind, deref, index. simpl.
  destruct (_ !! iM); simpl; [|discriminate].
  destruct MWu; simpl; intros H; [by injection H as <- _|discriminate].
Qed.

Lemma setup_inv gibbsSp PTMa origSpec MWv MWu foe s s1 spec o0 R :
  setup E gibbsSp PTMa origSpec MWv MWu foe s = (s1, Ret (spec, o0, R)) →
  let dimCt := length (number gibbsSp) in
  ∃ sN sC sW,
    expandTDVSpec E origSpec dimCt = inr spec
    ∧ step_rel True is_advisory s sN
    ∧ _checkInputs E gibbsSp dimCt spec PTMa MWv MWu foe sN = (sC, Ret tt)
    ∧ o0 = {| PTM := match PTMa with
                     | PTuple xs => CopyFlat (scalar_val <$> xs)
                     | PArray => CopyNested (caller_obj sC)
                     end;
              vars := [] |}
    ∧ _wrapPTM PTMa dimCt spec sC = (sW, Ret (r_PTM R))
    ∧ getDerivatives E gibbsSp (r_PTM R) dimCt spec sW = (s1, Ret (r_derivs R))
    ∧ r_gPTM R = (if existsb reqGrid spec
                  then Some (meshgrid (pts_of (r_PTM R) s1)) else None)
    ∧ r_MWv R = MWv ∧ r_MWu R = MWu ∧ r_gibbsSp R = gibbsSp
    ∧ (if existsb reqF spec
       then f <- _getVolSolventInVolSlnConversion MWu (r_PTM R) ;; ret (Some f)
       else ret None) s1 = (s1, Ret (r_f R)).
Proof.
  intros Hrun dimCt. unfold setup in Hrun. fold dimCt in Hrun.
  apply bind_Ret_inv in Hrun as (s0 & spec' & Hexp & Hrun).
  destruct (expandTDVSpec E origSpec dimCt) as [n|spec0] eqn:Hex; [discriminate|].
  injection Hexp as <- <-.
  apply bind_Ret_inv in Hrun as (sN & [] & Hnote & Hrun).
  apply bind_Ret_inv in Hrun as (sC & [] & Hchk & Hrun).
  apply bind_Ret_inv in Hrun as (sC' & o & Hcreate & Hrun).
  rewrite createThermodynamicStatesObj_run in Hcreate. injection Hcreate as <- <-.
  apply bind_Ret_inv in Hrun as (sW & PTMw & Hwrap & Hrun).
  apply bind_Ret_inv in Hrun as (sD & derivs & Hder & Hrun).
  apply bind_Ret_inv in Hrun as (sG & gPTM & Hgrid & Hrun).
  apply bind_Ret_inv in Hrun as (sF & f & Hf & Hrun).
  injection Hrun as <- <- <- <-. simpl.
  assert (sG = sD ∧ gPTM = if existsb reqGrid spec0
                           then Some (meshgrid (pts_of PTMw sD)) else None) as [-> ->].
  { destruct (existsb reqGrid spec0) eqn:Hany; [|by injection Hgrid as <- <-].
    apply bind_Ret_inv in Hgrid as (sG' & g & Hg & Hret).
    rewrite getGriddedPTM_run, Hany in Hg. injection Hg as <- <-.
    by injection Hret as <- <-. }
  assert (sF = sD) as ->.
  { destruct (existsb reqF spec0); [|by injection Hf as <- _].
    apply bind_Ret_inv in Hf as (sF' & f' & Hf' & Hret).
    apply getVolSolventInVolSlnConversion_state in Hf' as ->.
    by injection Hret as <- _. }
  exists sN, sC, sW. split_and!; try done.
  match type of Hnote with (if ?b then emit ?ev else ret tt) _ = _ =>
    destruct (notice_ok b ev s) as (sN' & Hn' & Hadv) end.
  rewrite Hnote in Hn'. injection Hn' as <-. apply Hadv. exact I.
Qed.

Lemma eval_after_setup fuel gibbsSp PTMa origSpec MWv MWu foe s s1 spec o0 R :
  setup E gibbsSp PTMa origSpec MWv MWu foe s = (s1, Ret (spec, o0, R)) →
  evalSolutionGibbs E fuel gibbsSp PTMa origSpec MWv MWu foe s
  = (tdvout <- scheduler fuel R spec (∅, o0) ;;
     tdvout <- _remove0M tdvout (r_PTM R) ;; ret tdvout) s1.
Proof.
  intros Hrun. unfold evalSolutionGibbs.
  by rewrite (bind_Ret _ _ _ _ _ Hrun).
Qed.

End Setup.

(** ** The arguments of a computation function *)

Lemma conditional_inserts_lookup (es : list (bool * (string * Resource))) :
  ∀ (m : gmap string Resource) k r,
  NoDup ((λ e, fst (snd e)) <$> es) →
  foldl cond_insert m es !! k = Some r
  ↔ (true, (k, r)) ∈ es ∨ ((∀ r', (true, (k, r')) ∉ es) ∧ m !! k = Some r).
Proof.
  induction es as [|[b [k0 r0]] es IH]; intros m k r Hnd.
  - simpl. split; [intros ?; right; split; [|done]|intros [?|[_ ?]]; [|done]].
    + intros r' Hin. by apply elem_of_nil in Hin.
    + by apply elem_of_nil in H.
  - rewrite fmap_cons in Hnd. apply NoDup_cons in Hnd as [Hk0 Hnd]. simpl in Hk0.
    simpl. rewrite IH by done. clear IH. unfold cond_insert at 1. simpl.
    assert (∀ b' r', (b', (k0, r')) ∉ es) as Hfresh.
    { intros b' r' Hin. apply Hk0. apply list_elem_of_fmap. by exists (b', (k0, r')). }
    destruct b; simpl.
    + split.
      * intros [Hin|[Hno Hl]]; [left; by right|].
        destruct (decide (k0 = k)) as [->|Hne].
        -- rewrite lookup_insert_eq in Hl. injection Hl as ->. left. by left.
        -- rewrite lookup_insert_ne in Hl by done. right. split; [|done].
           intros r' [Heq|Hin]%elem_of_cons; [congruence|by eapply Hno].
      * intros [[Heq|Hin]%elem_of_cons|[Hno Hl]].
        -- injection Heq as -> ->. right. split; [apply Hfresh|].
           by rewrite lookup_insert_eq.
        -- by left.
        -- right. split; [intros r' Hin; eapply Hno; by right|].
           rewrite lookup_insert_ne; [done|]. intros ->. eapply Hno. by left.
    + split.
      * intros [Hin|[Hno Hl]]; [left; by right|]. right. split; [|done].
        intros r' [Heq|Hin]%elem_of_cons; [congruence|by eapply Hno].
      * intros [[Heq|Hin]%elem_of_cons|[Hno Hl]]; [congruence|by left|].
        right. split; [intros r' Hin; eapply Hno; by right|done].
Qed.

(** [_buildEvalArgs] hands over exactly the declared resources, provided the
    eight keywords of the descriptor are distinct. *)
Lemma buildEvalArgs_exact tdv derivs pts gPTM MWv MWu tdvout gibbsSp f k r :
  NoDup (parm_names tdv) →
  _buildEvalArgs tdv derivs pts gPTM MWv MWu tdvout gibbsSp f !! k = Some r
  ↔ (true, (k, r)) ∈ resources tdv derivs pts gPTM MWv MWu tdvout gibbsSp f.
Proof.
  intros Hnd.
  change (_buildEvalArgs tdv derivs pts gPTM MWv MWu tdvout gibbsSp f)
    with (foldl cond_insert ∅
            (resources tdv derivs pts gPTM MWv MWu tdvout gibbsSp f)).
  rewrite conditional_inserts_lookup by done.
  split; [intros [?|[_ Hl]]; [done|by rewrite lookup_empty in Hl]|by left].
Qed.

(** ** [_remove0M] *)

Lemma mapM_values_keys (g : ndarray → M ndarray) (l : list (string * ndarray)) :
  ∀ s s' l',
  mapM_ (λ pv, v <- g (snd pv) ;; ret (fst pv, v)) l s = (s', Ret l') →
  fst <$> l' = fst <$> l.
Proof.
  induction l as [|[k v] l IH]; intros s s' l' Hrun; simpl in Hrun.
  - by injection Hrun as <- <-.
  - apply bind_Ret_inv in Hrun as (s1 & [k1 v1] & Hone & Hrun).
    apply bind_Ret_inv in Hone as (s0 & v0 & _ & Hone). injection Hone as <- <- <-.
    apply bind_Ret_inv in Hrun as (s2 & l2 & Hrest & Hrun). injection Hrun as <- <-.
    csimpl. f_equal. by eapply IH.
Qed.

Lemma remove0M_quiet tdvout r s :
  fst (_remove0M tdvout r s) = s ∧ snd (_remove0M tdvout r s) ≠ OutOfFuel.
Proof.
  destruct (remove0M_respects True (λ _, False) any_error False tdvout r I s)
    as ([Hst (evs & Hlog & Hevs)] & _ & Hd).
  split; [|by intros ?; apply Hd].
  destruct evs as [|ev evs]; [|by apply Forall_cons in Hevs as [[] _]].
  rewrite app_nil_r in Hlog. destruct (Hst I) as [Hc Hw].
  destruct (fst _), s; simpl in *. congruence.
Qed.

Lemma remove0M_keys tdvout r s s' out :
  _remove0M tdvout r s = (s', Ret out) → keys out = keys tdvout ∧ PTM out = PTM tdvout.
Proof.
  unfold _remove0M. intros Hrun.
  apply bind_Ret_inv in Hrun as (s1 & w & _ & Hrun).
  apply bind_Ret_inv in Hrun as (s2 & has0 & _ & Hrun).
  destruct has0; [|by injection Hrun as <- <-].
  apply bind_Ret_inv in Hrun as (s3 & nz & _ & Hrun).
  destruct nz; [|by injection Hrun as <- <-].
  apply bind_Ret_inv in Hrun as (s4 & vs & Hmap & Hrun). injection Hrun as <- <-.
  split; [|done]. unfold keys. simpl. by eapply mapM_values_keys.
Qed.

(** ** Termination of the scheduler (C2) *)

Section Claims_scheduler.
Context (E : Externals).

Lemma setup_respects Q D gibbsSp PTMa origSpec MWv MWu foe :
  (∀ ev, ¬ is_calc ev → Q ev) →
  respects False Q any_error D (setup E gibbsSp PTMa origSpec MWv MWu foe).
Proof.
  intros HQ. unfold setup.
  assert (∀ ev, ¬ is_calc ev → Q ev) as HQ' by done.
  apply respects_bind; [respects_tac|]. intros spec.
  apply respects_bind; [respects_tac; apply HQ; simpl; tauto|]. intros _.
  apply respects_bind; [apply checkInputs_respects; intros; apply HQ; simpl; tauto|].
  intros _.
  apply respects_bind; [apply createThermodynamicStatesObj_respects|]. intros o.
  apply respects_bind; [by apply wrapPTM_respects|]. intros PTMw.
  apply respects_bind.
  { apply getDerivatives_respects; try done. intros; apply HQ; simpl; tauto. }
  intros derivs. apply respects_bind.
  { destruct (existsb _ _); respects_tac. apply getGriddedPTM_respects. }
  intros gPTM. apply respects_bind; [|intros; apply respects_ret].
  destruct (existsb _ _); respects_tac.
  by apply getVolSolventInVolSlnConversion_respects.
Qed.

(** C2, as the code has it: the scheduler loop of [evalSolutionGibbs] ends,
    within as many passes as there are ranks, with every variable of the
    closure stored, when the names of the closure are distinct and its
    dependencies are well founded; there is no dependency-cycle error: from a
    state where no variable is eligible while the completed set is smaller
    than the closure, a pass changes nothing and the loop never ends, whatever
    the number of passes allowed. *)
Theorem scheduler_ends_iff_progress (R : Resources) (tdvSpec : list TDV) :
  (∀ rank B o s,
     NoDup (name <$> tdvSpec) → ranked tdvSpec rank B → vars o = [] →
     ∃ evs out, scheduler B R tdvSpec (∅, o) s = (add_log s evs, Ret out)
                ∧ keys out ≡ₚ name <$> tdvSpec)
  ∧ (∀ fuel st s,
       filter (λ t, eligible (fst st) t = true) tdvSpec = [] →
       size (fst st) < length tdvSpec →
       pass R tdvSpec st s = (s, Ret st)
       ∧ scheduler fuel R tdvSpec st s = (s, OutOfFuel)).
Proof.
  split.
  - intros rank B o s Hnd Hrk Ho.
    destruct (scheduler_inv R tdvSpec rank B B 0 ∅ o s) as (evs & out & Hrun & _ & Hp & _);
      try done.
    + unfold keys. rewrite Ho. constructor.
    + intros n. unfold keys. rewrite Ho. set_solver.
    + intros n. unfold keys. rewrite Ho. set_solver.
    + lia.
    + by exists evs, out.
  - intros fuel st s Hnone Hlt. split; [by apply pass_stuck|by apply scheduler_stuck].
Qed.

End Claims_scheduler.

(** ** The derivative calculator *)

Section Claims_derivatives.
Context (E : Externals).

Lemma respects_log K Q V D {A} (m : M A) s s' r :
  respects K Q V D m → m s = (s', r) →
  ∃ evs, log s' = log s ++ evs ∧ Forall Q evs.
Proof.
  intros Hm Hrun. destruct (Hm s) as ([_ Hlog] & _). by rewrite Hrun in Hlog.
Qed.

Lemma stateless_ret {A} (a : A) : stateless (ret a).
Proof. by exists (Ret a). Qed.

Lemma stateless_list_assign {A} (xs : list A) i x : stateless (list_assign xs i x).
Proof. unfold list_assign. case_decide; by eexists. Qed.

Lemma stateless_bind {A B} (m : M A) (k : A → M B) :
  stateless m → (∀ a, stateless (k a)) → stateless (bind m k).
Proof.
  intros [r Hm] Hk. destruct r as [a|e|].
  - destruct (Hk a) as [r' Hr']. exists r'. intros s. unfold bind. by rewrite Hm.
  - exists (Raise e). intros s. unfold bind. by rewrite Hm.
  - exists OutOfFuel. intros s. unfold bind. by rewrite Hm.
Qed.

Lemma buildDerivDirective_pure derivSpec dimCt s s' r :
  _buildDerivDirective derivSpec dimCt s = (s', r) →
  ∀ s0, _buildDerivDirective derivSpec dimCt s0 = (s0, r).
Proof.
  assert (stateless (_buildDerivDirective derivSpec dimCt)) as [r0 Hr0].
  { unfold _buildDerivDirective.
    repeat (apply stateless_bind; [|intros ?]);
      try case_bool_decide;
      auto using stateless_ret, stateless_list_assign. }
  rewrite Hr0. by intros [= <- <-].
Qed.

Lemma getDerivatives_loop gibbsSp r dimCt : ∀ rds out s s' out',
  foldM (evalDerivative E gibbsSp r dimCt) out rds s = (s', Ret out') →
  ∃ evs, s' = add_log s evs ∧ spline_calls evs = rds
         ∧ Forall (derivative_call E dimCt (pts_of r s)) evs.
Proof.
  induction rds as [|rd rds IH]; intros out s s' out' Hrun; simpl in Hrun.
  - injection Hrun as <- <-. exists []. by rewrite add_log_nil.
  - apply bind_Ret_inv in Hrun as (s1 & out1 & Hone & Hrun).
    unfold evalDerivative in Hone.
    apply bind_Ret_inv in Hone as (s2 & ds & Hfind & Hone).
    unfold getDerivSpec in Hfind.
    destruct (List.find _ (derivatives E)) as [ds'|] eqn:Hf; [|discriminate].
    injection Hfind as <- <-.
    apply bind_Ret_inv in Hone as (s3 & dd & Hdd & Hone).
    pose proof (buildDerivDirective_pure _ _ _ _ _ Hdd) as Hpure.
    rewrite Hpure in Hdd. injection Hdd as <-.
    apply bind_Ret_inv in Hone as (s4 & pts & Hpts & Hone).
    injection Hpts as <- <-. injection Hone as <- <-.
    apply IH in Hrun as (evs & -> & Hcalls & Hall).
    exists (EvalSpline rd dd (pts_of r s) :: evs). split_and!.
    + unfold add_log. simpl. by rewrite <- app_assoc.
    + change (spline_calls (EvalSpline rd dd (pts_of r s) :: evs))
        with (rd :: spline_calls evs). by rewrite Hcalls.
    + constructor; [|by destruct r].
      exists rd, ds', dd. split_and!; try done.
      apply find_some in Hf as [_ Hn]. by apply bool_decide_eq_true in Hn.
Qed.

Lemma reqderivs_spec tdvSpec d :
  d ∈ reqderivs E tdvSpec ↔ ∃ t, t ∈ tdvSpec ∧ d ∈ reqDerivs t.
Proof.
  unfold reqderivs. rewrite (set_order_perm E), elem_of_remove_dups, list_elem_of_bind.
  naive_solver.
Qed.


End Claims_derivatives.

(** ** The point-set normaliser and the caller's array (C10) *)

Section Claims_wrap.
Context (E : Externals).

Lemma wrapPTM_array_run tdvSpec s p P' m M' :
  caller_obj s !! iP = Some (p :: P') →
  caller_obj s !! iM = Some (m :: M') →
  _wrapPTM PArray 3 tdvSpec s
  = (if Qneqb m 0 && existsb req0M tdvSpec
     then set_caller s (<[iM := 0%Q :: m :: M']> (caller_obj s)) else s,
     Ret Caller).
Proof.
  intros HP HM. unfold _wrapPTM, _wrapPTM_try.
  unfold bind at 1. unfold bind at 1. simpl. rewrite HP.
  unfold _needs0M. simpl. unfold bind at 1. unfold bind at 1. simpl.
  unfold index at 1. rewrite HM. unfold bind at 1. simpl.
  destruct (Qneqb m 0 && existsb req0M tdvSpec); [|done].
  unfold bind, index. simpl. by rewrite HM.
Qed.

Lemma wrapPTM_array_inv dimCt tdvSpec s s' r :
  _wrapPTM PArray dimCt tdvSpec s = (s', Ret r) → 0 < dimCt →
  ∃ p P', caller_obj s !! iP = Some (p :: P').
Proof.
  intros Hrun Hdim. unfold _wrapPTM in Hrun.
  apply bind_Ret_inv in Hrun as (s1 & r1 & Htry & _).
  unfold _wrapPTM_try in Htry. apply bind_Ret_inv in Htry as (s0 & ds & Hds & Htry).
  injection Hds as <- <-.
  destruct (caller_obj s !! iP) as [[|p P']|] eqn:HP; [| by eauto |].
  all: exfalso; apply bind_Ret_inv in Htry as (s2 & [] & _ & Htry).
  all: apply bind_Ret_inv in Htry as (s3 & [] & Hloop & _).
  all: destruct dimCt as [|n]; [lia|]; simpl in Hloop.
  all: apply bind_Ret_inv in Hloop as (s4 & [] & Hone & _).
  all: unfold index in Hone; unfold iP in HP; rewrite HP in Hone.
  all: by apply bind_Ret_inv in Hone as (? & ? & ? & ?).
Qed.

Lemma foldM_evalTDV_PTM R ts : ∀ c o s s' c' o',
  foldM (evalTDV R) (c, o) ts s = (s', Ret (c', o')) → PTM o' = PTM o.
Proof.
  induction ts as [|t ts IH]; intros c o s s' c' o' Hrun; simpl in Hrun.
  - by injection Hrun as <- <- <-.
  - rewrite (bind_Ret _ _ _ _ _ (evalTDV_run R c o t s)) in Hrun.
    by apply IH in Hrun.
Qed.

Lemma scheduler_PTM fuel R tdvSpec : ∀ st s s' out,
  scheduler fuel R tdvSpec st s = (s', Ret out) → PTM out = PTM (snd st).
Proof.
  induction fuel as [|fuel IH]; intros [c o] s s' out Hrun; simpl in Hrun;
    case_decide; try discriminate; try by injection Hrun as <- <-.
  apply bind_Ret_inv in Hrun as (s1 & [c1 o1] & Hpass & Hrun).
  apply IH in Hrun. apply foldM_evalTDV_PTM in Hpass. simpl in *. congruence.
Qed.

Lemma stage_keeps_store {A} (m : M A) Q s s' r :
  respects True Q any_error True m → m s = (s', r) → same_store s s'.
Proof.
  intros Hm Hrun. destruct (Hm s) as ([Hst _] & _). rewrite Hrun in Hst. by apply Hst.
Qed.

(** C10: when the point set is passed as an array of per-dimension arrays for
    a three-dimensional spline, the closure contains a variable needing
    zero-concentration support and the first molality is not zero, a call of
    [evalSolutionGibbs] that returns has replaced the molality slot of the
    caller's own outer array by a new sequence with a leading 0: the caller's
    object is changed by the call, while the point set kept in the result
    object is the one the caller passed. *)
Theorem caller_array_gets_zero_molality fuel gibbsSp origSpec spec MWv MWu foe
    s s' out t m M' :
  evalSolutionGibbs E fuel gibbsSp PArray origSpec MWv MWu foe s = (s', Ret out) →
  length (number gibbsSp) = 3 →
  expandTDVSpec E origSpec 3 = inr spec →
  t ∈ spec → req0M t = true →
  caller_obj s !! iM = Some (m :: M') →
  Qneqb m 0 = true →
  caller_obj s' = <[iM := 0%Q :: m :: M']> (caller_obj s)
  ∧ caller_obj s' !! iM = Some (0%Q :: m :: M')
  ∧ PTM out = CopyNested (caller_obj s).
Proof.
  intros Hrun Hdim Hexp Ht Hreq HM Hm. unfold evalSolutionGibbs in Hrun.
  apply bind_Ret_inv in Hrun as (s1 & [[spec' o0] R] & Hsetup & Hrun).
  destruct (setup_inv E _ _ _ _ _ _ _ _ _ _ _ Hsetup)
    as (sN & sC & sW & Hexp' & [HstN _] & Hchk & Ho0 & Hwrap & Hder & _).
  rewrite Hdim in *. rewrite Hexp in Hexp'. injection Hexp' as <-.
  apply bind_Ret_inv in Hrun as (s2 & o1 & Hsched & Hrun).
  apply bind_Ret_inv in Hrun as (s3 & o2 & Hrem & Hrun). injection Hrun as <- <-.
  destruct (HstN I) as [HcN _].
  destruct (stage_keeps_store _ is_advisory _ _ _
              (checkInputs_respects E True is_advisory True _ _ _ _ _ _ _ (λ _, I)) Hchk)
    as [HcC _].
  assert (caller_obj sC = caller_obj s) as HsC by congruence.
  destruct (wrapPTM_array_inv _ _ _ _ _ Hwrap) as (p & P' & HP); [lia|].
  rewrite (wrapPTM_array_run spec sC p P' m M') in Hwrap
    by first [exact HP | by rewrite HsC].
  assert (existsb req0M spec = true) as Hany.
  { apply existsb_exists. exists t. split; [by apply list_elem_of_In|done]. }
  rewrite Hm, Hany in Hwrap. simpl in Hwrap. injection Hwrap as <- HR.
  destruct (stage_keeps_store _ any_event _ _ _
              (getDerivatives_respects E True any_event any_error True _ _ _ _
                 (λ _ _ _, I) I I) Hder) as [HcD _].
  destruct (stage_keeps_store _ any_event _ _ _
              (scheduler_respects True any_event any_error _ _ _ _ (λ _ _, I)) Hsched)
    as [HcS _].
  destruct (remove0M_quiet o1 (r_PTM R) s2) as [Hq _]. rewrite Hrem in Hq.
  simpl in Hq. subst s3.
  apply remove0M_keys in Hrem as [_ HPTM].
  apply scheduler_PTM in Hsched as HPTM1. simpl in HPTM1.
  assert (caller_obj s2 = <[iM := 0%Q :: m :: M']> (caller_obj s)) as Hfinal.
  { rewrite HcS, HcD. simpl. by rewrite HsC. }
  split_and!; [done| |].
  - rewrite Hfinal. apply list_lookup_insert_eq. by eapply lookup_lt_Some.
  - rewrite HPTM, HPTM1, Ho0. by rewrite HsC.
Qed.

End Claims_wrap.

(** ** Slicing arrays *)

Lemma rows_length s inner d : length (rows s inner d) = s.
Proof. unfold rows. by rewrite length_fmap, length_seq. Qed.

Lemma rows_lookup s inner d i :
  i < s → rows s inner d !! i = Some (take inner (drop (i * inner) d)).
Proof.
  intros Hi. unfold rows. rewrite list_lookup_fmap, lookup_seq_lt by done. done.
Qed.

Lemma row_length s inner (d : list Q) i :
  length d = s * inner → i < s → length (take inner (drop (i * inner) d)) = inner.
Proof.
  intros Hd Hi. rewrite length_take, length_drop, Hd.
  assert (inner ≤ s * inner - i * inner); [|lia]. 
  replace (s * inner - i * inner) with ((s - i) * inner) by nia. 
  destruct (s - i) as [|n] eqn:Hn; [lia|]. nia.
Qed.

Lemma mjoin_uniform_length {A} (ls : list (list A)) n :
  Forall (λ l, length l = n) ls → length (mjoin ls) = length ls * n.
Proof. induction 1 as [|l ls Hl _ IH]; simpl; [done|]. rewrite length_app. lia. Qed.

Lemma mjoin_uniform_chunk {A} (ls : list (list A)) n i l :
  Forall (λ l, length l = n) ls → ls !! i = Some l →
  take n (drop (i * n) (mjoin ls)) = l.
Proof.
  intros Hall. revert i. induction Hall as [|l0 ls Hl Hall IH]; intros i Hi.
  - by rewrite lookup_nil in Hi.
  - destruct i as [|i]; simpl in *.
    + injection Hi as ->. rewrite drop_0, take_app_length'; done.
    + rewrite drop_app_ge by lia. replace (n + i * n - length l0) with (i * n) by lia.
      by apply IH.
Qed.

Lemma getitem_length : ∀ sh slc d,
  length slc = length sh → length d = foldr Nat.mul 1 sh →
  length (getitem sh slc d) = foldr Nat.mul 1 (sliced_shape sh slc).
Proof.
  induction sh as [|s sh IH]; intros [|sl slc] d Hlen Hd; simpl in *; try done.
  rewrite (mjoin_uniform_length _ (foldr Nat.mul 1 (sliced_shape sh slc))).
  - rewrite length_fmap, length_drop, rows_length. done.
  - apply Forall_fmap, Forall_forall. intros r Hr.
    apply list_elem_of_lookup in Hr as [i Hi]. rewrite lookup_drop in Hi.
    assert (slice_start sl + i < s) as Hlt.
    { apply lookup_lt_Some in Hi. by rewrite rows_length in Hi. }
    rewrite rows_lookup in Hi by done. injection Hi as <-. simpl.
    apply IH; [lia|]. by apply (row_length s).
Qed.

Lemma nd_index_getitem : ∀ sh slc idx d,
  length slc = length sh → length idx = length sh →
  length d = foldr Nat.mul 1 sh →
  nd_index (sliced_shape sh slc) idx (getitem sh slc d)
  = nd_index sh (zip_with Nat.add (slice_start <$> slc) idx) d.
Proof.
  induction sh as [|s sh IH]; intros [|sl slc] [|i idx] d Hlen Hidx Hd;
    simpl in *; try done.
  destruct (decide (i < s - slice_start sl)) as [Hi|Hi];
    destruct (decide (slice_start sl + i < s)); try lia; [|done].
  assert (drop (slice_start sl) (rows s (foldr Nat.mul 1 sh) d) !! i
          = Some (take (foldr Nat.mul 1 sh) (drop ((slice_start sl + i) * foldr Nat.mul 1 sh) d)))
    as Hrow by (by rewrite lookup_drop, rows_lookup).
  rewrite (mjoin_uniform_chunk _ _ _ (getitem sh slc
             (take (foldr Nat.mul 1 sh) (drop ((slice_start sl + i) * foldr Nat.mul 1 sh) d)))).
  - apply IH; [lia|lia|]. by apply (row_length s).
  - apply Forall_fmap, Forall_forall. intros r Hr.
    apply list_elem_of_lookup in Hr as [j Hj]. rewrite lookup_drop in Hj.
    assert (slice_start sl + j < s) as Hlt.
    { apply lookup_lt_Some in Hj. by rewrite rows_length in Hj. }
    rewrite rows_lookup in Hj by done. injection Hj as <-. simpl.
    apply getitem_length; [lia|]. by apply (row_length s).
  - by rewrite list_lookup_fmap, Hrow.
Qed.

(** ** Two runs side by side (C3) *)

Lemma oblivious_ret {A} (a : A) : oblivious (ret a).
Proof. by intros s1 s2 H. Qed.

Lemma oblivious_raise {A} e : oblivious (@raise A e).
Proof. by intros s1 s2 H. Qed.

Lemma oblivious_emit ev : oblivious (emit ev).
Proof. by intros s1 s2 H. Qed.

Lemma oblivious_deref r : oblivious (deref r).
Proof.
  intros s1 s2 [Hc Hw]. split; [|done]. simpl. by destruct r; rewrite ?Hc, ?Hw.
Qed.

Lemma oblivious_bind {A B} (m : M A) (k : A → M B) :
  oblivious m → (∀ a, oblivious (k a)) → oblivious (bind m k).
Proof.
  intros Hm Hk s1 s2 Hs. destruct (Hm s1 s2 Hs) as [Hr Ha]. unfold bind.
  destruct (m s1) as [s1' r1], (m s2) as [s2' r2]. simpl in *. subst r2.
  destruct r1; [by apply Hk|done..].
Qed.

Lemma oblivious_index {A} (xs : list A) i : oblivious (index xs i).
Proof. unfold index. destruct (xs !! i); [apply oblivious_ret|apply oblivious_raise]. Qed.

Lemma oblivious_list_assign {A} (xs : list A) i x : oblivious (list_assign xs i x).
Proof.
  unfold list_assign. case_decide; [apply oblivious_ret|apply oblivious_raise].
Qed.

Lemma oblivious_foldM {A S} (f : S → A → M S) acc xs :
  (∀ a x, oblivious (f a x)) → oblivious (foldM f acc xs).
Proof.
  intros Hf. revert acc. induction xs as [|x xs IH]; intros acc; simpl;
    [apply oblivious_ret|].
  apply oblivious_bind; [done|]. intros a. apply IH.
Qed.

Ltac oblivious_step :=
  lazymatch goal with
  | |- oblivious (bind _ _) => apply oblivious_bind; [|intros ?]
  | |- oblivious (ret _) => apply oblivious_ret
  | |- oblivious (raise _) => apply oblivious_raise
  | |- oblivious (emit _) => apply oblivious_emit
  | |- oblivious (deref _) => apply oblivious_deref
  | |- oblivious (index _ _) => apply oblivious_index
  | |- oblivious (list_assign _ _ _) => apply oblivious_list_assign
  | |- oblivious (foldM _ _ _) => apply oblivious_foldM; intros ? ?
  | |- oblivious (if ?b then _ else _) => destruct b
  | |- oblivious (match ?x with _ => _ end) => destruct x
  end.

Lemma getDerivatives_oblivious E gibbsSp r dimCt tdvSpec :
  oblivious (getDerivatives E gibbsSp r dimCt tdvSpec).
Proof.
  unfold getDerivatives, evalDerivative, getDerivSpec, _buildDerivDirective.
  repeat oblivious_step.
Qed.

Lemma getVolSolventInVolSlnConversion_oblivious MWu r :
  oblivious (_getVolSolventInVolSlnConversion MWu r).
Proof. unfold _getVolSolventInVolSlnConversion. repeat oblivious_step. Qed.

(** Running an oblivious computation that returns, from a state with the same
    arrays *)
Lemma oblivious_Ret {A} (m : M A) s1 s1' a s2 :
  oblivious m → agree s1 s2 → m s1 = (s1', Ret a) →
  ∃ s2', m s2 = (s2', Ret a) ∧ agree s1' s2'.
Proof.
  intros Hm Hs Hrun. destruct (Hm s1 s2 Hs) as [Hr Ha]. rewrite Hrun in Hr, Ha.
  exists (fst (m s2)). split; [|done]. destruct (m s2). simpl in *. by subst.
Qed.

Lemma foldM_evalTDV_pair R ts : ∀ c o o' s1 s2 s1' c1 o1,
  Forall reads_variables_only ts →
  vars o = vars o' → agree s1 s2 →
  foldM (evalTDV R) (c, o) ts s1 = (s1', Ret (c1, o1)) →
  ∃ s2' o1', foldM (evalTDV R) (c, o') ts s2 = (s2', Ret (c1, o1'))
             ∧ vars o1 = vars o1' ∧ agree s1' s2'.
Proof.
  induction ts as [|t ts IH]; intros c o o' s1 s2 s1' c1 o1 Hts Ho Hs Hrun;
    simpl in *.
  - injection Hrun as <- <- <-. by exists s2, o'.
  - apply Forall_cons in Hts as [Ht Hts].
    rewrite (bind_Ret _ _ _ _ _ (evalTDV_run R c o t s1)) in Hrun.
    rewrite (bind_Ret _ _ _ _ _ (evalTDV_run R c o' t s2)).
    eapply IH; [done| | |exact Hrun].
    + assert (pts_of (r_PTM R) s1 = pts_of (r_PTM R) s2) as ->
        by (destruct Hs as [Hc Hw]; by destruct (r_PTM R)).
      unfold setattr. simpl. rewrite Ho.
      by rewrite (Ht _ _ _ _ _ o o' _ _ Ho).
    + by destruct Hs.
Qed.

Lemma scheduler_pair fuel R tdvSpec : ∀ c o o' s1 s2 s1' out,
  Forall reads_variables_only tdvSpec →
  vars o = vars o' → agree s1 s2 →
  scheduler fuel R tdvSpec (c, o) s1 = (s1', Ret out) →
  ∃ s2' out', scheduler fuel R tdvSpec (c, o') s2 = (s2', Ret out')
              ∧ vars out = vars out' ∧ agree s1' s2'.
Proof.
  induction fuel as [|fuel IH]; intros c o o' s1 s2 s1' out Hts Ho Hs Hrun;
    simpl in *; case_decide; try discriminate.
  - injection Hrun as <- <-. by exists s2, o'.
  - apply bind_Ret_inv in Hrun as (s1a & [c1 o1] & Hpass & Hrun).
    unfold pass in *. simpl in *.
    eapply foldM_evalTDV_pair in Hpass as (s2a & o1' & Hpass' & Ho1 & Hsa); try done.
    + rewrite (bind_Ret _ _ _ _ _ Hpass'). by eapply IH.
    + apply Forall_forall. intros t Ht. apply list_elem_of_filter in Ht as [_ Ht].
      by eapply Forall_forall in Hts.
  - injection Hrun as <- <-. by exists s2, o'.
Qed.

(** *** The checks see no difference *)

Lemma stateless_raise {A} e : stateless (@raise A e).
Proof. by exists (Raise e). Qed.

Lemma stateless_index {A} (xs : list A) i : stateless (index xs i).
Proof. unfold index. destruct (xs !! i); by eexists. Qed.

Lemma stateless_ends k : stateless (ends k).
Proof. unfold ends. destruct k; [by eexists|]. destruct (last _); by eexists. Qed.

Lemma stateless_mapM {A B} (f : A → M B) xs :
  (∀ x, stateless (f x)) → stateless (mapM_ f xs).
Proof.
  intros Hf. induction xs as [|x xs IH]; simpl; [apply stateless_ret|].
  apply stateless_bind; [done|]. intros y.
  apply stateless_bind; [done|]. intros ys. apply stateless_ret.
Qed.

Lemma checkSplineAndTdvs_stateless gibbsSp dimCt tdvSpec :
  stateless (_checkSplineAndTdvs gibbsSp dimCt tdvSpec).
Proof.
  unfold _checkSplineAndTdvs.
  apply stateless_bind; [apply stateless_mapM, stateless_ends|]. intros krs.
  apply stateless_bind.
  - destruct (_ && _); [|apply stateless_ret].
    apply stateless_bind; [apply stateless_index|]. intros; apply stateless_ret.
  - intros []; [apply stateless_raise|].
    destruct (_ && _); [apply stateless_raise|apply stateless_ret].
Qed.

Lemma checkSplineAndTdvs_knot gibbsSp tdvSpec t s s' :
  _checkSplineAndTdvs gibbsSp 3 tdvSpec s = (s', Ret tt) →
  t ∈ tdvSpec → req0M t = true →
  ∃ krs kr, (∀ s0, mapM_ ends (knots gibbsSp) s0 = (s0, Ret krs))
            ∧ krs !! iM = Some kr ∧ Qeq_bool (fst kr) 0 = true.
Proof.
  intros Hrun Hin Hreq. unfold _checkSplineAndTdvs in Hrun.
  destruct (stateless_mapM ends (knots gibbsSp) stateless_ends) as [r Hr].
  unfold bind at 1 in Hrun. rewrite Hr in Hrun.
  destruct r as [krs|e|]; try discriminate.
  exists krs.
  assert (t ∈ filter (λ t, req0M t = true) tdvSpec) as Hf by by apply list_elem_of_filter.
  destruct (filter (λ t, req0M t = true) tdvSpec) as [|t0 l] eqn:Hfl;
    [by apply elem_of_nil in Hf|].
  simpl in Hrun. unfold index in Hrun.
  destruct (krs !! iM) as [kr|] eqn:Hk; [|discriminate].
  exists kr. split_and!; [done..|].
  unfold bind, ret in Hrun. simpl in Hrun. unfold Qneqb in Hrun.
  by destruct (Qeq_bool (fst kr) 0).
Qed.

Lemma hasVals_zero kr m l :
  Qeq_bool (fst kr) 0 = true → (0 < m)%Q →
  hasValsOutsideKnotRange kr (0%Q, l) = hasValsOutsideKnotRange kr (m, l).
Proof.
  intros Hk Hm. unfold hasValsOutsideKnotRange, Qltb. simpl. f_equal.
  apply Qeq_bool_iff in Hk.
  assert (Qle_bool (fst kr) 0 = true) as -> by (apply Qle_bool_iff; by rewrite Hk).
  assert (Qle_bool (fst kr) m = true) as ->; [|done].
  apply Qle_bool_iff. rewrite Hk. by apply Qlt_le_weak.
Qed.

Lemma mapM_ext {A B} (f g : A → M B) xs :
  (∀ x, x ∈ xs → ∀ s, f x s = g x s) → ∀ s, mapM_ f xs s = mapM_ g xs s.
Proof.
  induction xs as [|x xs IH]; intros Hfg s; [done|]. simpl. unfold bind at 1 3.
  rewrite Hfg by by left. destruct (g x s) as [s1 [y|e|]]; [|done..].
  unfold bind. rewrite IH; [done|]. intros x' Hx'. apply Hfg. by right.
Qed.

Lemma bind_cong_l {A B} (m m' : M A) (k : A → M B) s :
  m s = m' s → bind m k s = bind m' k s.
Proof. intros H. unfold bind. by rewrite H. Qed.

Lemma bind_cong_r {A B} (m : M A) (k k' : A → M B) s :
  (∀ a s', m s = (s', Ret a) → k a s' = k' a s') → bind m k s = bind m k' s.
Proof. intros H. unfold bind. destruct (m s) as [s' [a|e|]]; [by apply H|done..]. Qed.

Lemma rangeCheck_zero krs kr a b m l foe s :
  krs !! iM = Some kr → Qeq_bool (fst kr) 0 = true → (0 < m)%Q →
  rangeCheck 3 krs [a; b; (0%Q, l)] foe s = rangeCheck 3 krs [a; b; (m, l)] foe s.
Proof.
  intros Hk Hk0 Hm. unfold rangeCheck. apply bind_cong_l, mapM_ext.
  intros i Hi s0. apply bind_cong_r. intros kri s1 Hi0.
  assert (i = 0 ∨ i = 1 ∨ i = 2) as [->|[->| ->]] by set_solver; [done..|].
  unfold index in Hi0. unfold iM in Hk. rewrite Hk in Hi0. injection Hi0 as <- <-.
  unfold bind, index, ret. simpl. by rewrite (hasVals_zero kr m l).
Qed.

Lemma rangeCheck_outcome dimCt krs ptmr foe s1 s2 :
  snd (rangeCheck dimCt krs ptmr foe s1) = snd (rangeCheck dimCt krs ptmr foe s2).
Proof.
  unfold rangeCheck.
  destruct (stateless_mapM (λ i, kr <- index krs i ;; dr <- index ptmr i ;;
                                 ret (hasValsOutsideKnotRange kr dr)) (seq 0 dimCt))
    as [r Hr].
  { intros i. apply stateless_bind; [apply stateless_index|]. intros kr.
    apply stateless_bind; [apply stateless_index|]. intros; apply stateless_ret. }
  unfold bind at 1 4. rewrite !Hr. destruct r as [flags|e|]; [|done..].
  destruct (nonempty _); [|done]. by destruct foe.
Qed.

Lemma checkMemReq_ok E tdvSpec PTMa s : snd (_checkMemReq E tdvSpec PTMa s) = Ret tt.
Proof.
  unfold _checkMemReq, pointCounts, bind. destruct PTMa; simpl; by case_bool_decide.
Qed.

Lemma ends_cons_zero m M' s :
  ∃ l, ends (0%Q :: m :: M') s = (s, Ret (0%Q, l)) ∧ ends (m :: M') s = (s, Ret (m, l)).
Proof.
  unfold ends. rewrite (last_cons 0%Q (m :: M')).
  destruct (last (m :: M')) as [l|] eqn:Hl; [by exists l|].
  by apply last_None in Hl.
Qed.

Lemma mapM_cons_inv {A B} (f : A → M B) x xs s s' l :
  mapM_ f (x :: xs) s = (s', Ret l) →
  ∃ s1 y ys, f x s = (s1, Ret y) ∧ mapM_ f xs s1 = (s', Ret ys) ∧ l = y :: ys.
Proof.
  simpl. intros Hrun. apply bind_Ret_inv in Hrun as (s1 & y & Hx & Hrun).
  apply bind_Ret_inv in Hrun as (s2 & ys & Hxs & Hrun). injection Hrun as <- <-.
  by exists s1, y, ys.
Qed.

Lemma mapM_cons_Ret {A B} (f : A → M B) x xs s s1 s2 y ys :
  f x s = (s1, Ret y) → mapM_ f xs s1 = (s2, Ret ys) →
  mapM_ f (x :: xs) s = (s2, Ret (y :: ys)).
Proof.
  intros Hx Hxs. simpl. rewrite (bind_Ret _ _ _ _ _ Hx).
  by rewrite (bind_Ret _ _ _ _ _ Hxs).
Qed.

Lemma ends_pure k s s' r : ends k s = (s', r) → ∀ s0, ends k s0 = (s0, r).
Proof.
  destruct (stateless_ends k) as [r0 Hr0]. rewrite Hr0. by intros [= <- <-].
Qed.

Lemma checkUserInput_zero gibbsSp tdvSpec MWu MWv foe P T m M' krs kr sA sA' sB :
  (∀ s0, mapM_ ends (knots gibbsSp) s0 = (s0, Ret krs)) →
  krs !! iM = Some kr → Qeq_bool (fst kr) 0 = true → (0 < m)%Q →
  caller_obj sA = [P; T; 0%Q :: m :: M'] →
  caller_obj sB = [P; T; m :: M'] →
  _checkUserInput gibbsSp 3 tdvSpec PArray MWu MWv foe sA = (sA', Ret tt) →
  snd (_checkUserInput gibbsSp 3 tdvSpec PArray MWu MWv foe sB) = Ret tt.
Proof.
  intros Hkrs Hk Hk0 Hm HA HB. unfold _checkUserInput.
  destruct (_ && _); [discriminate|]. destruct (_ && _); [discriminate|].
  intros Hrun.
  apply bind_Ret_inv in Hrun as (s1 & krs' & Hk1 & Hrun).
  rewrite Hkrs in Hk1. injection Hk1 as <- <-.
  apply bind_Ret_inv in Hrun as (s2 & ptmrA & Hp & Hrun).
  unfold ptmranges in Hp. apply bind_Ret_inv in Hp as (s3 & ds & Hd & Hp).
  injection Hd as <- <-. rewrite HA in Hp.
  apply mapM_cons_inv in Hp as (sa & a & ys & HPa & Hp & ->).
  apply mapM_cons_inv in Hp as (sb & b & ys' & HTb & Hp & ->).
  apply mapM_cons_inv in Hp as (sc & c & ys'' & HMc & Hp & ->).
  injection Hp as <- <-.
  pose proof (ends_pure _ _ _ _ HPa) as HP'.
  pose proof (ends_pure _ _ _ _ HTb) as HT'.
  destruct (ends_cons_zero m M' sB) as (l & HlB' & HlB).
  rewrite (ends_pure _ _ _ _ HMc) in HlB'. injection HlB' as ->.
  rewrite (bind_Ret _ _ _ _ _ (Hkrs sB)).
  assert (ptmranges PArray sB = (sB, Ret [a; b; (m, l)])) as HpB.
  { unfold ptmranges. unfold bind at 1. simpl. rewrite HB.
    eapply mapM_cons_Ret; [apply HP'|]. eapply mapM_cons_Ret; [apply HT'|].
    by eapply mapM_cons_Ret. }
  rewrite (bind_Ret _ _ _ _ _ HpB).
  rewrite <- (rangeCheck_zero krs kr a b m l foe sB) by done.
  erewrite (rangeCheck_outcome 3 krs _ foe sB). by rewrite Hrun.
Qed.

Lemma checkInputs_zero E gibbsSp tdvSpec MWv MWu foe P T m M' t sA sA' sB :
  t ∈ tdvSpec → req0M t = true → (0 < m)%Q →
  caller_obj sA = [P; T; 0%Q :: m :: M'] →
  caller_obj sB = [P; T; m :: M'] →
  _checkInputs E gibbsSp 3 tdvSpec PArray MWv MWu foe sA = (sA', Ret tt) →
  ∃ sB', _checkInputs E gibbsSp 3 tdvSpec PArray MWv MWu foe sB = (sB', Ret tt)
         ∧ same_store sB sB' ∧ same_store sA sA'.
Proof.
  intros Hin Hreq Hm HA HB Hrun.
  assert (∀ s s' r, _checkInputs E gibbsSp 3 tdvSpec PArray MWv MWu foe s = (s', r) →
                    same_store s s') as Hkeep.
  { intros s s' r. apply (stage_keeps_store _ is_advisory).
    by apply checkInputs_respects. }
  destruct (_checkInputs E gibbsSp 3 tdvSpec PArray MWv MWu foe sB) as [sB' rB] eqn:HrunB.
  exists sB'. split_and!; [|by eapply Hkeep..]. f_equal.
  unfold _checkInputs in Hrun, HrunB.
  apply bind_Ret_inv in Hrun as (s1 & [] & Hc1 & Hrun).
  apply bind_Ret_inv in Hrun as (s2 & [] & Hc2 & Hc3).
  destruct (checkSplineAndTdvs_knot _ _ _ _ _ Hc1 Hin Hreq) as (krs & kr & Hkrs & Hk & Hk0).
  destruct (checkSplineAndTdvs_stateless gibbsSp 3 tdvSpec) as [r Hr].
  rewrite Hr in Hc1. injection Hc1 as <- ->.
  rewrite (bind_Ret _ _ _ _ _ (Hr sB)) in HrunB.
  pose proof (checkUserInput_zero gibbsSp tdvSpec MWv MWu foe P T m M' krs kr sA s2 sB
                Hkrs Hk Hk0 Hm HA HB Hc2) as HuB.
  destruct (_checkUserInput gibbsSp 3 tdvSpec PArray MWv MWu foe sB) as [sB2 r2] eqn:Hu.
  simpl in HuB. subst r2. rewrite (bind_Ret _ _ _ _ _ Hu) in HrunB.
  pose proof (checkMemReq_ok E tdvSpec PArray sB2) as Hmem. rewrite HrunB in Hmem.
  by simpl in Hmem.
Qed.

Lemma setup_intro E gibbsSp PTMa origSpec MWv MWu foe s sN sC sW s1 spec r derivs f :
  let dimCt := length (number gibbsSp) in
  let addedTDVs := name <$> filter (λ t, in_origSpec (name t) origSpec = false) spec in
  expandTDVSpec E origSpec dimCt = inr spec →
  (if nonempty origSpec && nonempty addedTDVs then emit (Notice addedTDVs) else ret tt) s
  = (sN, Ret tt) →
  _checkInputs E gibbsSp dimCt spec PTMa MWv MWu foe sN = (sC, Ret tt) →
  _wrapPTM PTMa dimCt spec sC = (sW, Ret r) →
  getDerivatives E gibbsSp r dimCt spec sW = (s1, Ret derivs) →
  (if existsb reqF spec
   then f <- _getVolSolventInVolSlnConversion MWu r ;; ret (Some f)
   else ret None) s1 = (s1, Ret f) →
  setup E gibbsSp PTMa origSpec MWv MWu foe s
  = (s1, Ret (spec,
              {| PTM := match PTMa with
                        | PTuple xs => CopyFlat (scalar_val <$> xs)
                        | PArray => CopyNested (caller_obj sC)
                        end;
                 vars := [] |},
              {| r_derivs := derivs; r_PTM := r;
                 r_gPTM := if existsb reqGrid spec
                           then Some (meshgrid (pts_of r s1)) else None;
                 r_MWv := MWv; r_MWu := MWu; r_gibbsSp := gibbsSp; r_f := f |})).
Proof.
  intros dimCt added Hexp Hnote Hchk Hwrap Hder Hf. unfold setup. fold dimCt.
  rewrite Hexp. rewrite (bind_Ret _ _ s s spec) by done. cbv beta.
  rewrite (bind_Ret _ _ _ _ _ Hnote), (bind_Ret _ _ _ _ _ Hchk).
  rewrite (bind_Ret _ _ _ _ _ (createThermodynamicStatesObj_run _ _ _ _)).
  rewrite (bind_Ret _ _ _ _ _ Hwrap), (bind_Ret _ _ _ _ _ Hder).
  assert ((if existsb reqGrid spec
           then g <- _getGriddedPTM spec r ;; ret (Some g) else ret None) s1
          = (s1, Ret (if existsb reqGrid spec
                      then Some (meshgrid (pts_of r s1)) else None))) as Hg.
  { destruct (existsb reqGrid spec) eqn:Hany; [|done].
    rewrite (bind_Ret _ _ _ _ _ (getGriddedPTM_run _ _ _)). by rewrite Hany. }
  rewrite (bind_Ret _ _ _ _ _ Hg). by rewrite (bind_Ret _ _ _ _ _ Hf).
Qed.

Lemma remove_first_M_3d v s :
  ndim v = 3 → remove_first_M v s = (s, Ret (drop_first_M v)).
Proof.
  unfold ndim, remove_first_M, drop_first_M. intros Hn. rewrite Hn. done.
Qed.

Lemma remove_all_3d (l : list (string * ndarray)) s :
  Forall (λ pv, ndim (snd pv) = 3) l →
  mapM_ (λ pv, v <- remove_first_M (snd pv) ;; ret (fst pv, v)) l s
  = (s, Ret ((λ pv, (fst pv, drop_first_M (snd pv))) <$> l)).
Proof.
  induction 1 as [|pv l Hpv _ IH]; [done|].
  eapply mapM_cons_Ret; [|exact IH].
  by rewrite (bind_Ret _ _ _ _ _ (remove_first_M_3d _ s Hpv)).
Qed.

Lemma drop_first_M_get v a b c i j k :
  shape v = [a; b; c] → length (data v) = size_of v →
  shape (drop_first_M v) = [a; b; c - 1]
  ∧ nd_get (drop_first_M v) [i; j; k] = nd_get v [i; j; S k].
Proof.
  intros Hsh Hlen. unfold nd_get, drop_first_M. simpl. rewrite Hsh.
  split; [simpl; by rewrite !Nat.sub_0_r|].
  rewrite nd_index_getitem; [|done|done|by rewrite Hlen; unfold size_of; rewrite Hsh].
  done.
Qed.

Lemma remove0M_explicit_zero o s P T m M' :
  caller_obj s = [P; T; 0%Q :: m :: M'] →
  PTM o = CopyNested [P; T; 0%Q :: m :: M'] →
  _remove0M o Caller s = (s, Ret o).
Proof.
  intros Hc HP. unfold _remove0M, bind, deref, index. simpl. rewrite Hc. simpl.
  by rewrite HP.
Qed.

Lemma remove0M_injected_zero o s P T m M' :
  caller_obj s = [P; T; 0%Q :: m :: M'] →
  PTM o = CopyNested [P; T; m :: M'] →
  Qneqb m 0 = true →
  Forall (λ pv, ndim (snd pv) = 3) (vars o) →
  _remove0M o Caller s
  = (s, Ret {| PTM := PTM o;
               vars := (λ pv, (fst pv, drop_first_M (snd pv))) <$> vars o |}).
Proof.
  intros Hc HP Hm Hnd. unfold _remove0M. unfold bind at 1 2. simpl. rewrite Hc. simpl.
  unfold bind at 1. rewrite HP. simpl. rewrite Hm.
  by rewrite (bind_Ret _ _ _ _ _ (remove_all_3d _ s Hnd)).
Qed.

Lemma conversion_factor_pair tdvSpec MWu r s1 s2 f :
  agree s1 s2 →
  (if existsb reqF tdvSpec
   then f <- _getVolSolventInVolSlnConversion MWu r ;; ret (Some f)
   else ret None) s1 = (s1, Ret f) →
  (if existsb reqF tdvSpec
   then f <- _getVolSolventInVolSlnConversion MWu r ;; ret (Some f)
   else ret None) s2 = (s2, Ret f).
Proof.
  intros Hs. destruct (existsb reqF tdvSpec); [|by intros [= <-]].
  intros Hrun. apply bind_Ret_inv in Hrun as (s1' & f' & Hf & Hret).
  injection Hret as <- <-.
  destruct (oblivious_Ret _ _ _ _ s2
              (getVolSolventInVolSlnConversion_oblivious MWu r) Hs Hf) as (s2' & Hf2 & _).
  pose proof (getVolSolventInVolSlnConversion_state _ _ _ _ _ Hf2) as ->.
  by rewrite (bind_Ret _ _ _ _ _ Hf2).
Qed.

Section Claim_round_trip.
Context (E : Externals).

(** C3: for a three-dimensional spline and a closure containing a variable
    that needs zero-concentration support, whose computation functions read
    the computed variables only, evaluating at a point set whose molalities
    start with an explicit 0 and evaluating at the same point set without that
    0 give the same values at every molality of the shorter point set: if the
    first call returns grid-shaped arrays, the second returns, for every
    variable, the array [v[:, :, 1:]] of the first, so that its element at
    molality index [k] is the element of the first at index [k + 1]. *)
Theorem zero_point_round_trip fuel gibbsSp origSpec spec MWv MWu foe P T m M' t
    sA' outA :
  length (number gibbsSp) = 3 →
  expandTDVSpec E origSpec 3 = inr spec →
  t ∈ spec → req0M t = true →
  Forall reads_variables_only spec →
  (0 < m)%Q →
  evalSolutionGibbs E fuel gibbsSp PArray origSpec MWv MWu foe
    (initial [P; T; 0%Q :: m :: M']) = (sA', Ret outA) →
  Forall (λ pv, shape (snd pv) = [length P; length T; S (S (length M'))]
                ∧ length (data (snd pv)) = size_of (snd pv)) (vars outA) →
  ∃ sB' outB,
    evalSolutionGibbs E fuel gibbsSp PArray origSpec MWv MWu foe
      (initial [P; T; m :: M']) = (sB', Ret outB)
    ∧ PTM outB = CopyNested [P; T; m :: M']
    ∧ Forall2 (λ pa pb,
                 fst pb = fst pa
                 ∧ shape (snd pb) = [length P; length T; S (length M')]
                 ∧ ∀ i j k, nd_get (snd pb) [i; j; k] = nd_get (snd pa) [i; j; S k])
              (vars outA) (vars outB).
Proof.
  intros Hdim Hexp Hin Hreq Hread Hm HrunA Hshape.
  set (dsA := [P; T; 0%Q :: m :: M']) in *. set (dsB := [P; T; m :: M']).
  unfold evalSolutionGibbs in HrunA.
  apply bind_Ret_inv in HrunA as (sA1 & [[spec' oA0] RA] & HsetupA & HrunA).
  destruct (setup_inv E _ _ _ _ _ _ _ _ _ _ _ HsetupA)
    as (sAN & sAC & sAW & Hexp' & [HstN _] & HchkA & HoA0 & HwrapA & HderA & HgA
        & HMWv & HMWu & Hsp & HfA).
  rewrite Hdim in *. rewrite Hexp in Hexp'. injection Hexp' as <-.
  apply bind_Ret_inv in HrunA as (sA2 & oA1 & HschedA & HrunA).
  apply bind_Ret_inv in HrunA as (sA3 & oA2 & HremA & HrunA). injection HrunA as <- <-.
  destruct (HstN I) as [HcAN HwAN]. simpl in HcAN, HwAN.
  (* the note and the checks of the second call *)
  match type of HsetupA with setup _ _ _ ?os _ _ _ _ = _ =>
    destruct (notice_ok
      (nonempty os && nonempty (name <$> filter (λ t, in_origSpec (name t) os = false) spec))
      (Notice (name <$> filter (λ t, in_origSpec (name t) os = false) spec))
      (initial dsB)) as (sBN & HnoteB & HadvB) end.
  destruct (HadvB I) as [HstBN _]. destruct (HstBN I) as [HcBN HwBN].
  simpl in HcBN, HwBN.
  destruct (checkInputs_zero E gibbsSp spec MWv MWu foe P T m M' t sAN sAC sBN)
    as (sBC & HchkB & [HcBC HwBC] & [HcAC HwAC]); try done.
  (* the point sets after normalisation *)
  destruct (wrapPTM_array_inv _ _ _ _ _ HwrapA) as (p & P0 & HP); [lia|].
  assert (caller_obj sAC = dsA) as HdsA by congruence.
  assert (caller_obj sBC = dsB) as HdsB by congruence.
  rewrite HdsA in HP. simpl in HP. injection HP as HP.
  rewrite (wrapPTM_array_run spec sAC p P0 0%Q (m :: M')) in HwrapA
    by (rewrite HdsA; subst dsA; by rewrite ?HP).
  simpl in HwrapA. injection HwrapA as <- HrA.
  assert (existsb req0M spec = true) as Hany.
  { apply existsb_exists. exists t. split; [by apply list_elem_of_In|done]. }
  pose proof (wrapPTM_array_run spec sBC p P0 m M') as HwrapB.
  rewrite HdsB, Hany, (Qlt_0_neqb m Hm) in HwrapB. simpl in HwrapB.
  specialize (HwrapB ltac:(by rewrite HP) eq_refl).
  set (sBW := set_caller sBC (<[iM:=0%Q :: m :: M']> dsB)) in *.
  assert (agree sAC sBW) as HagW.
  { split; simpl; [by rewrite HdsA|congruence]. }
  (* derivatives, grid and conversion factor *)
  rewrite <- HrA in *.
  destruct (oblivious_Ret _ _ _ _ sBW (getDerivatives_oblivious E gibbsSp Caller 3 spec)
              HagW HderA) as (sB1 & HderB & Hag1).
  pose proof (conversion_factor_pair _ _ _ _ _ _ Hag1 HfA) as HfB.
  pose proof (setup_intro E gibbsSp PArray origSpec MWv MWu foe (initial dsB)
                sBN sBC sBW sB1 spec Caller (r_derivs RA) (r_f RA)) as HsetupB.
  rewrite Hdim in HsetupB. specialize (HsetupB Hexp HnoteB HchkB HwrapB HderB HfB).
  assert ({| r_derivs := r_derivs RA; r_PTM := Caller;
             r_gPTM := if existsb reqGrid spec
                       then Some (meshgrid (pts_of Caller sB1)) else None;
             r_MWv := MWv; r_MWu := MWu; r_gibbsSp := gibbsSp; r_f := r_f RA |} = RA)
    as HR.
  { destruct RA. simpl in *. destruct Hag1 as [Hc1 _]. rewrite <- Hc1. congruence. }
  rewrite HR in HsetupB.
  rewrite (eval_after_setup E fuel _ _ _ _ _ _ _ _ _ _ _ HsetupB).
  (* the scheduler *)
  destruct (scheduler_pair fuel RA spec ∅ oA0
              {| PTM := CopyNested (caller_obj sBC); vars := [] |} sA1 sB1 sA2 oA1)
    as (sB2 & oB1 & HschedB & Hvars & Hag2); try done.
  { by rewrite HoA0. }
  rewrite (bind_Ret _ _ _ _ _ HschedB).
  apply scheduler_PTM in HschedA as HPA. apply scheduler_PTM in HschedB as HPB.
  simpl in HPA, HPB. rewrite HoA0 in HPA. simpl in HPA. rewrite HdsA in HPA.
  rewrite HdsB in HPB.
  (* the arrays as the reconciler finds them *)
  assert (caller_obj sA2 = dsA) as HcA2.
  { destruct (stage_keeps_store _ any_event _ _ _
                (getDerivatives_respects E True any_event any_error True _ _ _ _
                   (λ _ _ _, I) I I) HderA) as [HcD _].
    destruct (stage_keeps_store _ any_event _ _ _
                (scheduler_respects True any_event any_error _ _ _ _ (λ _ _, I)) HschedA)
      as [HcS _].
    congruence. }
  assert (caller_obj sB2 = dsA) as HcB2 by (destruct Hag2; congruence).
  rewrite (remove0M_explicit_zero oA1 sA2 P T m M' HcA2 HPA) in HremA.
  injection HremA as <- <-.
  assert (Forall (λ pv, ndim (snd pv) = 3) (vars oB1)) as Hnd.
  { rewrite <- Hvars. eapply Forall_impl; [exact Hshape|].
    intros pv [Hs _]. unfold ndim. by rewrite Hs. }
  rewrite <- HrA.
  rewrite (bind_Ret _ _ _ _ _
             (remove0M_injected_zero oB1 sB2 P T m M' HcB2 HPB (Qlt_0_neqb m Hm) Hnd)).
  eexists _, _. split; [done|]. simpl. split; [done|].
  rewrite <- Hvars. apply Forall2_fmap_r, Forall_Forall2_diag.
  eapply Forall_impl; [exact Hshape|]. intros pv [Hs Hl].
  destruct (drop_first_M_get (snd pv) _ _ _ 0 0 0 Hs Hl) as [Hsh _].
  split_and!; [done|exact Hsh|]. intros i j k.
  by destruct (drop_first_M_get (snd pv) _ _ _ i j k Hs Hl) as [_ ?].
Qed.

End Claim_round_trip.

Lemma rankedb_ranked tdvSpec rank B : rankedb tdvSpec rank B = true → ranked tdvSpec rank B.
Proof.
  unfold rankedb, ranked. rewrite forallb_forall. intros H t Ht.
  apply list_elem_of_In, H, andb_true_iff in Ht as [Hlt Hdeps].
  apply Nat.ltb_lt in Hlt. split; [done|]. intros d Hd.
  rewrite forallb_forall in Hdeps.
  apply elem_of_elements, list_elem_of_In, Hdeps, andb_true_iff in Hd as [Hin Hr].
  apply bool_decide_eq_true in Hin. by apply Nat.ltb_lt in Hr.
Qed.

(** ** The engine on the small registry *)

Import Examples.

Lemma mus_reads_variables_only : reads_variables_only mus.
Proof.
  intros derivs pts gPTM MWv MWu o o' sp f Ho.
  unfold mus, mkTDV, calcFn, fromTdv. 
  assert (∀ o0, _buildEvalArgs mus derivs pts gPTM MWv MWu o0 sp f !! "tdv" = Some (RTdv o0)) as Hl.
  { intros o0. apply buildEvalArgs_exact; [compute_done|].
    unfold resources. set_solver. }
  unfold mus, mkTDV in Hl. rewrite !Hl. by rewrite Ho.
Qed.

Lemma fromDeriv_reads_variables_only n d ds b1 b2 deps b3 b4 b5 :
  reads_variables_only (mkTDV n ds b1 b2 deps b3 b4 b5 (fromDeriv d)).
Proof.
  intros derivs pts gPTM MWv MWu o o' sp f Ho.
  unfold mkTDV, calcFn, fromDeriv, _buildEvalArgs. simpl.
  repeat match goal with |- context [if ?b then _ else _] => destruct b end;
  by simplify_map_eq.
Qed.

(** ** The molecular-weight check (C1) *)

(** C1, on a run: for a closure whose only variable is flagged [reqMWv], a
    call with solvent molecular weight 0 and a solute molecular weight is not
    rejected ([_checkInputs] hands the two weights to [_checkUserInput] in the
    wrong order): it returns, after computing the variable with [MWv = 0];
    and a call with the default solvent weight and no solute weight is
    rejected for a missing solvent weight. *)
Theorem zero_solvent_weight_not_rejected :
  let run := evalSolutionGibbs (registry [rho]) 1 sp3 PArray [ByName "rho"]
               (Some 0%Q) (Some (58 # 1000)) true (initial grid3) in
  (∃ out, snd run = Ret out)
  ∧ (∃ args, Calc "rho" args ∈ log (fst run) ∧ args !! "MWv" = Some (RMW (Some 0%Q)))
  ∧ snd (evalSolutionGibbs (registry [rho]) 1 sp3 PArray [ByName "rho"]
           MWv_default None true (initial grid3))
    = Raise (MissingParameter Solvent ["rho"]).
Proof.
  split_and!.
  - eexists. vm_compute. reflexivity.
  - eexists. split.
    + vm_compute. right. left.
    + vm_compute. reflexivity.
  - vm_compute. reflexivity.
Qed.

(** ** A single point (C8) *)

Lemma wrapPTM_python_scalar x xs dimCt tdvSpec s :
  _wrapPTM (PTuple (PyNum x :: xs)) dimCt tdvSpec s = (s, Raise TypeError).
Proof. reflexivity. Qed.

Lemma python_scalar_point_never_returns E fuel gibbsSp x xs origSpec MWv MWu foe s :
  ∃ e, snd (evalSolutionGibbs E fuel gibbsSp (PTuple (PyNum x :: xs)) origSpec
              MWv MWu foe s) = Raise e.
Proof.
  unfold evalSolutionGibbs.
  destruct (bind_cases (setup E gibbsSp (PTuple (PyNum x :: xs)) origSpec MWv MWu foe)
              (λ pre, let '(tdvSpec0, tdvout, R) := pre in
                      tdvout0 <- scheduler fuel R tdvSpec0 (∅, tdvout) ;;
                      tdvout1 <- _remove0M tdvout0 (r_PTM R) ;; ret tdvout1) s)
    as [(s1 & [[spec o0] R] & H1 & Hb)|[(s1 & e & H1 & Hb)|(s1 & H1 & Hb)]];
    rewrite Hb.
  - destruct (setup_inv E _ _ _ _ _ _ _ _ _ _ _ H1)
      as (sN & sC & sW & _ & _ & _ & _ & Hwrap & _).
    by rewrite wrapPTM_python_scalar in Hwrap.
  - by exists e.
  - destruct (setup_respects E any_event False gibbsSp (PTuple (PyNum x :: xs))
                origSpec MWv MWu foe (λ _ _, I) s) as (_ & _ & Hd).
    rewrite H1 in Hd. by destruct Hd.
Qed.

(** C8, on the code: a single point whose pressure is written as a Python
    number never yields a result object, the call always raises; on the
    single point [(0, 0)] of the repository's own test, written with Python
    numbers, it raises [TypeError] out of [_wrapPTM] (whose handler catches
    [IndexError] only) instead of returning one-element arrays; the same
    point written with NumPy scalars returns arrays of one element each. *)
Theorem python_scalar_point_raises :
  (∀ E fuel gibbsSp x xs origSpec MWv MWu foe s,
     ∃ e, snd (evalSolutionGibbs E fuel gibbsSp (PTuple (PyNum x :: xs)) origSpec
                 MWv MWu foe s) = Raise e)
  ∧ snd (evalSolutionGibbs (registry [G; Cp]) 1 sp2 (PTuple [PyNum 0; PyNum 0]) []
           MWv_default None true (initial []))
    = Raise TypeError
  ∧ ∃ out,
      snd (evalSolutionGibbs (registry [G; Cp]) 1 sp2 (PTuple [NpNum 0; NpNum 0]) []
             MWv_default None true (initial []))
      = Ret out
      ∧ Forall (λ pv, size_of (snd pv) = 1) (vars out).
Proof.
  split_and!; [apply python_scalar_point_never_returns|by vm_compute|].
  eexists. split; [vm_compute; reflexivity|]. repeat constructor.
Qed.

(** ** Runs of the confirmed properties *)

(** C2, refuted as stated: with two variables that wait for each other the
    call neither returns nor raises, whatever the number of passes allowed. *)
Lemma scheduler_spins_on_a_cycle :
  ¬ ∃ fuel, snd (evalSolutionGibbs (registry [ping; pong]) fuel sp2 PArray
                   [ByName "ping"] MWv_default None true (initial grid2))
            ≠ OutOfFuel.
Proof.
  intros [fuel Hne]. apply Hne. clear Hne.
  assert (∃ s1 o0 R, setup (registry [ping; pong]) sp2 PArray [ByName "ping"]
                       MWv_default None true (initial grid2)
                     = (s1, Ret ([ping; pong], o0, R))) as (s1 & o0 & R & Hsetup).
  { do 3 eexists. vm_compute. reflexivity. }
  rewrite (eval_after_setup _ fuel _ _ _ _ _ _ _ _ _ _ _ Hsetup).
  erewrite bind_OutOfFuel; [done|].
  apply scheduler_stuck; [by vm_compute|]. vm_compute. lia.
Qed.

Lemma scheduler_ends_iff_progress_witness :
  (∃ evs out,
     scheduler 2 {| r_derivs := ∅; r_PTM := Caller; r_gPTM := None; r_MWv := None;
                    r_MWu := None; r_gibbsSp := sp3; r_f := None |} [mus; G]
       (∅, {| PTM := CopyNested grid3; vars := [] |}) (initial grid3_with0)
     = (add_log (initial grid3_with0) evs, Ret out)
     ∧ keys out ≡ₚ name <$> [mus; G])
  ∧ (pass {| r_derivs := ∅; r_PTM := Caller; r_gPTM := None; r_MWv := None;
             r_MWu := None; r_gibbsSp := sp2; r_f := None |} [ping; pong]
       (∅, {| PTM := CopyNested grid2; vars := [] |}) (initial grid2)
     = (initial grid2, Ret (∅, {| PTM := CopyNested grid2; vars := [] |}))
     ∧ scheduler 7 {| r_derivs := ∅; r_PTM := Caller; r_gPTM := None; r_MWv := None;
                      r_MWu := None; r_gibbsSp := sp2; r_f := None |} [ping; pong]
         (∅, {| PTM := CopyNested grid2; vars := [] |}) (initial grid2)
       = (initial grid2, OutOfFuel)).
Proof.
  split.
  - apply (proj1 (scheduler_ends_iff_progress _ [mus; G]) rank_mus 2).
    + compute_done.
    + apply rankedb_ranked. vm_compute. reflexivity.
    + reflexivity.
  - apply (proj2 (scheduler_ends_iff_progress _ [ping; pong]) 7).
    + vm_compute. reflexivity.
    + vm_compute. lia.
Defined.

Lemma zero_point_round_trip_witness :
  ∃ sB' outB,
    evalSolutionGibbs (registry [mus; G]) 2 sp3 PArray [ByName "mus"] MWv_default None
      true (initial [[1; 2]; [3]; [4; 5]]%Q) = (sB', Ret outB)
    ∧ PTM outB = CopyNested [[1; 2]; [3]; [4; 5]]%Q
    ∧ Forall2 (λ pa pb,
                 fst pb = fst pa
                 ∧ shape (snd pb) = [2; 1; 2]
                 ∧ ∀ i j k, nd_get (snd pb) [i; j; k] = nd_get (snd pa) [i; j; S k])
              [("G", sumgrid grid3_with0); ("mus", sumgrid grid3_with0)] (vars outB).
Proof.
  apply (zero_point_round_trip (registry [mus; G]) 2 sp3 [ByName "mus"] [mus; G]
           MWv_default None true [1; 2]%Q [3]%Q 4%Q [5]%Q mus
           (fst (evalSolutionGibbs (registry [mus; G]) 2 sp3 PArray [ByName "mus"]
                   MWv_default None true (initial grid3_with0)))
           {| PTM := CopyNested grid3_with0;
              vars := [("G", sumgrid grid3_with0); ("mus", sumgrid grid3_with0)] |}).
  - reflexivity.
  - reflexivity.
  - by left.
  - reflexivity.
  - constructor; [apply mus_reads_variables_only|].
    constructor; [apply fromDeriv_reads_variables_only|]. constructor.
  - reflexivity.
  - vm_compute. reflexivity.
  - repeat constructor.
Defined.

Lemma validation_precedes_computation_witness :
  same_store (initial grid3)
    (fst (evalSolutionGibbs (registry [mus; G]) 2 sp3_from_tenth PArray [ByName "mus"]
            MWv_default None true (initial grid3)))
  ∧ ∃ evs,
      log (fst (evalSolutionGibbs (registry [mus; G]) 2 sp3_from_tenth PArray
                  [ByName "mus"] MWv_default None true (initial grid3)))
      = log (initial grid3) ++ evs
      ∧ Forall is_advisory evs
      ∧ Forall (λ ev, ¬ is_calc ev ∧ ¬ is_spline_call ev) evs.
Proof.
  eapply (validation_precedes_computation (registry [mus; G]) 2 sp3_from_tenth PArray
            [ByName "mus"] MWv_default None true (initial grid3) _
            (IncompatibleSpline ["mus"])).
  - vm_compute. reflexivity.
  - exact I.
Defined.

Lemma incompatible_spline_raised_witness :
  ∃ s' names evs,
    evalSolutionGibbs (registry [mus; G]) 2 sp3_from_tenth PArray [ByName "mus"]
      MWv_default None true (initial grid3)
    = (s', Raise (IncompatibleSpline names))
    ∧ names = name <$> filter (λ t, req0M t = true) [mus; G]
    ∧ name mus ∈ names
    ∧ same_store (initial grid3) s'
    ∧ log s' = log (initial grid3) ++ evs
    ∧ Forall (λ ev, ¬ is_calc ev ∧ ¬ is_spline_call ev) evs.
Proof.
  apply (incompatible_spline_raised (registry [mus; G]) 2 sp3_from_tenth PArray
           [ByName "mus"] [mus; G] MWv_default None true (initial grid3)
           (1 # 10)%Q [1 # 10; 10; 10]%Q mus).
  - reflexivity.
  - repeat constructor; discriminate.
  - reflexivity.
  - reflexivity.
  - reflexivity.
  - by left.
  - reflexivity.
Defined.

Lemma dimension_mismatch_raised_witness :
  ∃ s' names evs,
    evalSolutionGibbs (registry [Va; G]) 2 sp2 PArray [ByName "Va"]
      MWv_default None true (initial grid2)
    = (s', Raise (DimensionMismatch names))
    ∧ names = list_to_set (name <$> filter (λ t, reqF t || reqM t = true) [Va; G])
    ∧ name Va ∈ names
    ∧ same_store (initial grid2) s'
    ∧ log s' = log (initial grid2) ++ evs
    ∧ Forall (λ ev, ¬ is_calc ev ∧ ¬ is_spline_call ev) evs.
Proof.
  apply (dimension_mismatch_raised (registry [Va; G]) 2 sp2 PArray
           [ByName "Va"] [Va; G] MWv_default None true (initial grid2) Va).
  - reflexivity.
  - repeat constructor; discriminate.
  - reflexivity.
  - by left.
  - by left.
Defined.

Lemma caller_array_gets_zero_molality_witness :
  caller_obj (fst (evalSolutionGibbs (registry [mus; G]) 2 sp3 PArray [ByName "mus"]
                     MWv_default None true (initial grid3)))
  = <[iM := [0; 4; 5]%Q]> grid3
  ∧ caller_obj (fst (evalSolutionGibbs (registry [mus; G]) 2 sp3 PArray [ByName "mus"]
                       MWv_default None true (initial grid3))) !! iM
    = Some [0; 4; 5]%Q
  ∧ PTM {| PTM := CopyNested grid3;
           vars := [("G", drop_first_M (sumgrid grid3_with0));
                    ("mus", drop_first_M (sumgrid grid3_with0))] |}
    = CopyNested grid3.
Proof.
  apply (caller_array_gets_zero_molality (registry [mus; G]) 2 sp3 [ByName "mus"]
           [mus; G] MWv_default None true (initial grid3) _ _ mus 4%Q [5]%Q).
  - vm_compute. reflexivity.
  - reflexivity.
  - reflexivity.
  - by left.
  - reflexivity.
  - reflexivity.
  - reflexivity.
Defined.

(** * Further properties of the engine *)

(** ** Variables are computed after what they depend on *)

Lemma dependency_ordered_mono tdvSpec evs : ∀ seen seen',
  seen ⊆ seen' → dependency_ordered tdvSpec seen evs →
  dependency_ordered tdvSpec seen' evs.
Proof.
  induction evs as [|ev evs IH]; intros seen seen' Hsub H; [done|].
  destruct ev; simpl in *; try by eapply IH.
  destruct H as [(t & Ht & Hn & Hd) H]. split.
  - exists t. split_and!; [done..|set_solver].
  - eapply IH; [|done]. set_solver.
Qed.

Lemma dependency_ordered_app tdvSpec a : ∀ seen b,
  dependency_ordered tdvSpec seen a →
  dependency_ordered tdvSpec (list_to_set (calc_names a) ∪ seen) b →
  dependency_ordered tdvSpec seen (a ++ b).
Proof.
  induction a as [|ev a IH]; intros seen b Ha Hb.
  - simpl. eapply dependency_ordered_mono; [|done]. set_solver.
  - destruct ev; simpl in *; try by apply IH.
    destruct Ha as [Ht Ha]. split; [done|]. apply IH; [done|].
    eapply dependency_ordered_mono; [|done].
    change (calc_names (Calc n args :: a)) with (n :: calc_names a). set_solver.
Qed.

Lemma dependency_ordered_no_calc tdvSpec seen evs :
  Forall (λ ev, ¬ is_calc ev) evs → dependency_ordered tdvSpec seen evs.
Proof.
  induction 1 as [|ev evs Hev _ IH]; [done|]. destruct ev; simpl in *; tauto.
Qed.

Lemma foldM_evalTDV_ordered R tdvSpec ts : ∀ c0 c o s,
  (∀ t, t ∈ ts → t ∈ tdvSpec ∧ reqTDV t ⊆ c0) → c0 ⊆ c →
  ∃ evs o',
    foldM (evalTDV R) (c, o) ts s
    = (add_log s evs, Ret (list_to_set (calc_names evs) ∪ c, o'))
    ∧ dependency_ordered tdvSpec c evs.
Proof.
  induction ts as [|t ts IH]; intros c0 c o s Hts Hc.
  - exists [], o. rewrite add_log_nil. split; [|done].
    by assert (list_to_set (calc_names []) ∪ c = c) as -> by set_solver.
  - simpl. rewrite (bind_Ret _ _ _ _ _ (evalTDV_run R c o t s)).
    set (args := _buildEvalArgs t _ _ _ _ _ _ _ _).
    destruct (IH c0 ({[name t]} ∪ c) (setattr o (name t) (calcFn t args))
                (add_log s [Calc (name t) args])) as (evs & o' & Hrun & Hord).
    { intros t' Ht'. apply Hts. by right. }
    { set_solver. }
    exists (Calc (name t) args :: evs), o'. split.
    + rewrite Hrun, add_log_app.
      change (calc_names (Calc (name t) args :: evs)) with (name t :: calc_names evs).
      by assert (list_to_set (calc_names evs) ∪ ({[name t]} ∪ c)
                 = list_to_set (name t :: calc_names evs) ∪ c) as -> by set_solver.
    + simpl. split; [|done]. destruct (Hts t) as [Ht Hd]; [by left|].
      exists t. split_and!; [done..|set_solver].
Qed.

Lemma scheduler_ordered R tdvSpec fuel : ∀ c o s,
  ∃ evs, log (fst (scheduler fuel R tdvSpec (c, o) s)) = log s ++ evs
         ∧ dependency_ordered tdvSpec c evs.
Proof.
  induction fuel as [|fuel IH]; intros c o s; simpl; case_decide;
    try (exists []; by rewrite app_nil_r).
  unfold pass. simpl.
  destruct (foldM_evalTDV_ordered R tdvSpec
              (filter (λ t, eligible c t = true) tdvSpec) c c o s)
    as (evs1 & o1 & Hrun & Hord1); [|done|].
  { intros t [Hel Ht]%list_elem_of_filter. split; [done|].
    by apply eligible_spec in Hel as [_ ?]. }
  rewrite (bind_Ret _ _ _ _ _ Hrun).
  destruct (IH (list_to_set (calc_names evs1) ∪ c) o1 (add_log s evs1))
    as (evs2 & Hlog & Hord2).
  exists (evs1 ++ evs2). split.
  - rewrite Hlog. simpl. by rewrite app_assoc.
  - by apply dependency_ordered_app.
Qed.

Section Order.
Context (E : Externals).

(** X1: whatever the outcome of a call of [evalSolutionGibbs] (a result, an
    exception, or a scheduler loop that is cut off), the variables it computed
    were computed in dependency order: every computation in the trace of the
    call is that of a variable of the closure whose dependencies ([reqTDV])
    had all been computed earlier in the same call. *)
Theorem variables_computed_after_their_dependencies fuel gibbsSp PTMa origSpec spec
    MWv MWu foe s :
  expandTDVSpec E origSpec (length (number gibbsSp)) = inr spec →
  ∃ evs,
    log (fst (evalSolutionGibbs E fuel gibbsSp PTMa origSpec MWv MWu foe s))
    = log s ++ evs
    ∧ dependency_ordered spec ∅ evs.
Proof.
  intros Hexp.
  destruct (setup_respects E (λ ev, ¬ is_calc ev) True gibbsSp PTMa origSpec MWv MWu foe
              (λ _ H, H) s) as ([_ (evs0 & Hlog0 & Hevs0)] & _ & _).
  unfold evalSolutionGibbs.
  destruct (bind_cases (setup E gibbsSp PTMa origSpec MWv MWu foe)
              (λ pre, let '(tdvSpec, tdvout, R) := pre in
                      tdvout <- scheduler fuel R tdvSpec (∅, tdvout) ;;
                      tdvout <- _remove0M tdvout (r_PTM R) ;; ret tdvout) s)
    as [(s1 & [[spec' o0] R] & Hset & ->)|[(s1 & e & Hset & ->)|(s1 & Hset & ->)]];
    rewrite Hset in Hlog0; simpl in Hlog0.
  2,3: exists evs0; split; [done|by apply dependency_ordered_no_calc].
  destruct (setup_inv E _ _ _ _ _ _ _ _ _ _ _ Hset) as (_ & _ & _ & Hexp' & _).
  rewrite Hexp in Hexp'. injection Hexp' as <-.
  destruct (scheduler_ordered R spec fuel ∅ o0 s1) as (evs1 & Hlog1 & Hord).
  exists (evs0 ++ evs1). split.
  - rewrite app_assoc, <- Hlog0, <- Hlog1.
    destruct (bind_cases (scheduler fuel R spec (∅, o0))
                (λ tdvout, tdvout <- _remove0M tdvout (r_PTM R) ;; ret tdvout) s1)
      as [(s2 & o1 & Hs & ->)|[(s2 & e & Hs & ->)|(s2 & Hs & ->)]];
      rewrite Hs; simpl; [|done..].
    destruct (remove0M_quiet o1 (r_PTM R) s2) as [Hq _].
    unfold bind. destruct (_remove0M o1 (r_PTM R) s2) as [s3 [o2| |]]; simpl in *;
      by rewrite Hq.
  - apply dependency_ordered_app; [by apply dependency_ordered_no_calc|].
    eapply dependency_ordered_mono; [|done]. set_solver.
Qed.

End Order.

(** ** What a call does to the caller's array *)

Lemma keeps_caller_ret {A} (a : A) : keeps_caller (ret a).
Proof. done. Qed.

Lemma keeps_caller_raise {A} e : keeps_caller (@raise A e).
Proof. done. Qed.

Lemma keeps_caller_deref r : keeps_caller (deref r).
Proof. done. Qed.

Lemma keeps_caller_store_wrapped o : keeps_caller (store Wrapped o).
Proof. done. Qed.

Lemma keeps_caller_bind {A B} (m : M A) (k : A → M B) :
  keeps_caller m → (∀ a, keeps_caller (k a)) → keeps_caller (bind m k).
Proof.
  intros Hm Hk s. specialize (Hm s).
  destruct (bind_cases m k s) as [(s1 & a & H1 & ->)|[(s1 & e & H1 & ->)|(s1 & H1 & ->)]];
    rewrite H1 in Hm; simpl in *; [|done..].
  by rewrite Hk.
Qed.

Lemma keeps_caller_index {A} (xs : list A) i : keeps_caller (index xs i).
Proof. unfold index. by destruct (xs !! i). Qed.

Lemma keeps_caller_foldM {A S} (f : S → A → M S) acc xs :
  (∀ a x, keeps_caller (f a x)) → keeps_caller (foldM f acc xs).
Proof.
  intros Hf. revert acc. induction xs as [|x xs IH]; intros acc; simpl; [done|].
  apply keeps_caller_bind; [done|]. intros a. apply IH.
Qed.

Lemma respects_keeps_caller {A} (m : M A) Q V D :
  respects True Q V D m → keeps_caller m.
Proof. intros Hm s. destruct (Hm s) as ([Hst _] & _). by destruct (Hst I). Qed.

Ltac keeps_caller_step :=
  lazymatch goal with
  | |- keeps_caller (bind _ _) => apply keeps_caller_bind; [|intros ?]
  | |- keeps_caller (ret _) => apply keeps_caller_ret
  | |- keeps_caller (raise _) => apply keeps_caller_raise
  | |- keeps_caller (deref _) => apply keeps_caller_deref
  | |- keeps_caller (store Wrapped _) => apply keeps_caller_store_wrapped
  | |- keeps_caller (index _ _) => apply keeps_caller_index
  | |- keeps_caller (foldM _ _ _) => apply keeps_caller_foldM; intros ? ?
  | |- keeps_caller (if ?b then _ else _) => destruct b
  | |- keeps_caller (match ?x with _ => _ end) => destruct x
  end.

Section Frame.
Context (E : Externals).

Lemma bind_value {A B} (m : M A) (k : A → M B) (P : B → Prop) s b :
  (∀ a s1 b, snd (k a s1) = Ret b → P b) → snd (bind m k s) = Ret b → P b.
Proof.
  intros Hk. unfold bind. destruct (m s) as [s1 [a| |]]; simpl; try discriminate.
  apply Hk.
Qed.

Lemma wrapper_returns_wrapped {A B} (m1 : M A) (m2 : M B) s r :
  snd ((m1 ;;; m2 ;;; ret Wrapped) s) = Ret r → r = Wrapped.
Proof.
  apply (bind_value _ _ (λ r, r = Wrapped)). intros _ s1 r1.
  apply (bind_value _ _ (λ r, r = Wrapped)). intros _ s2 r2.
  simpl. congruence.
Qed.

Lemma wrapPTM_try_caller PTMa dimCt s :
  caller_obj (fst (_wrapPTM_try PTMa dimCt s)) = caller_obj s
  ∧ (snd (_wrapPTM_try PTMa dimCt s) = Ret Caller →
     PTMa = PArray ∧ fst (_wrapPTM_try PTMa dimCt s) = s
     ∧ ∃ p P', caller_obj s !! iP = Some (p :: P')).
Proof.
  destruct PTMa as [xs|]; unfold _wrapPTM_try.
  - assert (keeps_caller
              (store Wrapped [] ;;;
               foldM (λ _ i, x <- index xs i ;; w <- deref Wrapped ;;
                             store Wrapped (w ++ [[scalar_val x]])) tt (seq 0 dimCt) ;;;
               ret Wrapped)) as Hk by repeat keeps_caller_step.
    destruct (xs !! iP) as [[x|x]|]; [by split|..];
      (split; [apply Hk|]); by intros Hr%wrapper_returns_wrapped.
  - rewrite !(bind_Ret (deref Caller) _ s s (caller_obj s) eq_refl).
    assert (keeps_caller
              (store Wrapped [] ;;;
               foldM (λ _ i, _ <- index (caller_obj s) i ;; raise ValueError) tt
                     (seq 0 dimCt) ;;;
               @ret ref Wrapped)) as Hk by repeat keeps_caller_step.
    destruct (caller_obj s !! iP) as [[|p P']|] eqn:HP;
      [|split; [done|]; intros _; split_and!; [done..|by exists p, P']|].
    all: split; [apply Hk|]; by intros Hr%wrapper_returns_wrapped.
Qed.

(** [_wrapPTM] leaves the caller's array alone, or puts a 0 in front of its
    molalities; the latter only for nested arrays, a three-dimensional spline,
    a first molality other than 0 and a variable flagged [req0M]. *)
Lemma wrapPTM_caller PTMa dimCt tdvSpec s :
  caller_obj (fst (_wrapPTM PTMa dimCt tdvSpec s)) = caller_obj s
  ∨ (PTMa = PArray ∧ dimCt = 3 ∧ existsb req0M tdvSpec = true
     ∧ zero_injected (caller_obj s) (caller_obj (fst (_wrapPTM PTMa dimCt tdvSpec s)))).
Proof.
  destruct (wrapPTM_try_caller PTMa dimCt s) as [Hc Hr].
  remember (fst (_wrapPTM PTMa dimCt tdvSpec s)) as sW eqn:HsW.
  unfold _wrapPTM in HsW.
  destruct (bind_cases (_wrapPTM_try PTMa dimCt)
              (λ PTM, need <- _needs0M dimCt PTM tdvSpec ;;
                      (if (need : bool)
                       then ds <- deref PTM ;; m <- index ds iM ;;
                            store PTM (<[iM := 0%Q :: m]> ds)
                       else ret tt) ;;; ret PTM) s)
    as [(s1 & r & H1 & Hb)|[(s1 & e & H1 & Hb)|(s1 & H1 & Hb)]];
    rewrite Hb in HsW; clear Hb; rewrite H1 in Hc, Hr; simpl in Hc, Hr, HsW;
    [|left; congruence..].
  destruct r.
  - destruct Hr as (-> & -> & p & P' & HP); [done|].
    unfold _needs0M in HsW. destruct (bool_decide (dimCt = 3)) eqn:Hd;
      [|left; by subst sW].
    apply bool_decide_eq_true in Hd as ->.
    unfold bind at 1 2 3 in HsW. simpl in HsW. unfold index at 1 in HsW.
    destruct (caller_obj s !! iM) as [[|m M']|] eqn:HM; simpl in HsW;
      [left; by subst sW| |left; by subst sW].
    destruct (Qneqb m 0) eqn:Hm; simpl in HsW; [|left; by subst sW].
    destruct (existsb req0M tdvSpec) eqn:Hany; simpl in HsW; [|left; by subst sW].
    right. split_and!; try done. exists m, M'. split_and!; try done.
    unfold bind, index in HsW; simpl in HsW. rewrite HM in HsW. by subst sW.
  - left. rewrite <- Hc, HsW.
    assert (keeps_caller
              (need <- _needs0M dimCt Wrapped tdvSpec ;;
               (if (need : bool)
                then ds <- deref Wrapped ;; m <- index ds iM ;;
                     store Wrapped (<[iM := 0%Q :: m]> ds)
                else ret tt) ;;; ret Wrapped)) as Hk.
    { unfold _needs0M. repeat keeps_caller_step. }
    apply Hk.
Qed.

Lemma keeps_caller_then {A B} (m : M A) (k : A → M B)
    (Φ : list (list Q) → list (list Q) → Prop) :
  keeps_caller m → (∀ c, Φ c c) →
  (∀ a s1, Φ (caller_obj s1) (caller_obj (fst (k a s1)))) →
  ∀ s, Φ (caller_obj s) (caller_obj (fst (bind m k s))).
Proof.
  intros Hm Hrefl Hk s. specialize (Hm s).
  destruct (bind_cases m k s) as [(s1 & a & H1 & ->)|[(s1 & e & H1 & ->)|(s1 & H1 & ->)]];
    rewrite H1 in Hm; simpl in *; rewrite <- Hm; [apply Hk|apply Hrefl..].
Qed.

Lemma then_keeps_caller {A B} (m : M A) (k : A → M B)
    (Φ : list (list Q) → list (list Q) → Prop) :
  (∀ s, Φ (caller_obj s) (caller_obj (fst (m s)))) → (∀ a, keeps_caller (k a)) →
  ∀ s, Φ (caller_obj s) (caller_obj (fst (bind m k s))).
Proof.
  intros Hm Hk s. specialize (Hm s).
  destruct (bind_cases m k s) as [(s1 & a & H1 & ->)|[(s1 & e & H1 & ->)|(s1 & H1 & ->)]];
    rewrite H1 in Hm; simpl in *; [|done..].
  by rewrite Hk.
Qed.

(** The part of [setup] that follows [_wrapPTM] *)
Lemma after_wrap_keeps_caller gibbsSp dimCt tdvSpec o MWv MWu PTM :
  keeps_caller
    (derivs <- getDerivatives E gibbsSp PTM dimCt tdvSpec ;;
     gPTM <- (if existsb reqGrid tdvSpec
              then g <- _getGriddedPTM tdvSpec PTM ;; ret (Some g) else ret None) ;;
     f <- (if existsb reqF tdvSpec
           then f <- _getVolSolventInVolSlnConversion MWu PTM ;; ret (Some f)
           else ret None) ;;
     ret (tdvSpec, o : ThermodynamicStates,
          {| r_derivs := derivs; r_PTM := PTM; r_gPTM := gPTM; r_MWv := MWv;
             r_MWu := MWu; r_gibbsSp := gibbsSp; r_f := f |})).
Proof.
  apply keeps_caller_bind.
  { eapply (respects_keeps_caller _ any_event any_error True),
      getDerivatives_respects; done. }
  intros derivs. apply keeps_caller_bind.
  { destruct (existsb reqGrid tdvSpec); [|done].
    apply keeps_caller_bind; [|done].
    apply (respects_keeps_caller _ any_event any_error True), getGriddedPTM_respects. }
  intros g. apply keeps_caller_bind; [|done].
  destruct (existsb reqF tdvSpec); [|done].
  apply keeps_caller_bind; [|done].
  by apply (respects_keeps_caller _ any_event any_error True),
    getVolSolventInVolSlnConversion_respects.
Qed.

Lemma after_setup_keeps_caller fuel (pre : list TDV * ThermodynamicStates * Resources) :
  keeps_caller
    (let '(tdvSpec, tdvout, R) := pre in
     tdvout <- scheduler fuel R tdvSpec (∅, tdvout) ;;
     tdvout <- _remove0M tdvout (r_PTM R) ;; ret tdvout).
Proof.
  destruct pre as [[tdvSpec o] R]. apply keeps_caller_bind.
  { by apply (respects_keeps_caller _ any_event any_error True), scheduler_respects. }
  intros o1. apply keeps_caller_bind; [|done].
  by apply (respects_keeps_caller _ any_event any_error True), remove0M_respects.
Qed.

(** X2: whatever its outcome, a call of [evalSolutionGibbs] leaves the
    caller's outer array as it was, with one exception: the point set was
    passed as nested arrays, the spline has three dimensions, the closure
    holds a variable flagged [req0M] and the molalities do not start with 0;
    then the only change is a 0 put in front of the molalities.  In
    particular a tuple of scalars never leads to a change of the caller's
    array.  (The spline evaluator and the computation functions are taken
    not to write to their arguments.) *)
Theorem caller_array_changes_only_by_zero_injection fuel gibbsSp PTMa origSpec MWv MWu
    foe s :
  let s' := fst (evalSolutionGibbs E fuel gibbsSp PTMa origSpec MWv MWu foe s) in
  caller_obj s' = caller_obj s
  ∨ (PTMa = PArray ∧ length (number gibbsSp) = 3
     ∧ (∃ spec t, expandTDVSpec E origSpec 3 = inr spec ∧ t ∈ spec ∧ req0M t = true)
     ∧ zero_injected (caller_obj s) (caller_obj s')).
Proof.
  simpl. revert s.
  pose (Φ := λ c c' : list (list Q),
          c' = c
          ∨ (PTMa = PArray ∧ length (number gibbsSp) = 3
             ∧ (∃ spec t, expandTDVSpec E origSpec 3 = inr spec ∧ t ∈ spec
                          ∧ req0M t = true)
             ∧ zero_injected c c')).
  assert (∀ c, Φ c c) as Hrefl by (by left).
  change (∀ s, Φ (caller_obj s)
                 (caller_obj (fst (evalSolutionGibbs E fuel gibbsSp PTMa origSpec
                                     MWv MWu foe s)))).
  unfold evalSolutionGibbs.
  apply (then_keeps_caller _ _ Φ); [|apply after_setup_keeps_caller].
  unfold setup. set (dimCt := length (number gibbsSp)).
  destruct (expandTDVSpec E origSpec dimCt) as [n|spec] eqn:Hexp; [intros; apply Hrefl|].
  cbv beta iota. intros s. rewrite (bind_Ret _ _ s s spec eq_refl). revert s.
  apply (keeps_caller_then _ _ Φ); [|done|].
  { apply (respects_keeps_caller _ any_event any_error True).
    destruct (nonempty origSpec && _); respects_tac. }
  intros _. apply (keeps_caller_then _ _ Φ); [|done|].
  { by apply (respects_keeps_caller _ any_event any_error True), checkInputs_respects. }
  intros _. apply (keeps_caller_then _ _ Φ); [|done|].
  { apply (respects_keeps_caller _ any_event any_error True),
      createThermodynamicStatesObj_respects. }
  intros o. apply (then_keeps_caller _ _ Φ); [|intros; apply after_wrap_keeps_caller].
  intros s. destruct (wrapPTM_caller PTMa dimCt spec s)
    as [Hc|(-> & Hd & Hany & Hz)]; [by left|right].
  apply existsb_exists in Hany as (t & Ht%list_elem_of_In & Hreq).
  split_and!; try done. exists spec, t. by rewrite <- Hd.
Qed.

(** X3: the [PTM] attribute of the object a call returns is the copy of the
    point set as the caller passed it: the flat array of the coordinates for
    a tuple, the outer array as it was before the call for nested arrays,
    whether or not a 0 was put in front of the molalities meanwhile. *)
Theorem result_keeps_the_points_as_passed fuel gibbsSp PTMa origSpec MWv MWu foe
    s s' out :
  evalSolutionGibbs E fuel gibbsSp PTMa origSpec MWv MWu foe s = (s', Ret out) →
  PTM out = original_copy PTMa s.
Proof.
  intros Hrun. unfold evalSolutionGibbs in Hrun.
  apply bind_Ret_inv in Hrun as (s1 & [[spec o0] R] & Hsetup & Hrun).
  destruct (setup_inv E _ _ _ _ _ _ _ _ _ _ _ Hsetup)
    as (sN & sC & sW & _ & [HstN _] & Hchk & Ho0 & _).
  apply bind_Ret_inv in Hrun as (s2 & o1 & Hsched & Hrun).
  apply bind_Ret_inv in Hrun as (s3 & o2 & Hrem & Hrun). injection Hrun as <- <-.
  apply scheduler_PTM in Hsched. apply remove0M_keys in Hrem as [_ Hrem].
  rewrite Hrem, Hsched, Ho0. simpl. destruct PTMa as [xs|]; [done|]. simpl.
  destruct (HstN I) as [HcN _].
  pose proof (respects_keeps_caller _ _ _ _
                (checkInputs_respects E True any_event True gibbsSp
                   (length (number gibbsSp)) spec PArray MWv MWu foe (λ _, I)) sN)
    as HcC.
  rewrite Hchk in HcC. simpl in HcC. congruence.
Qed.


End Frame.

(** ** The points after normalisation and the shape of the results *)

Lemma dict_set_Forall {V} (P : string * V → Prop) k v d :
  P (k, v) → Forall P d → Forall P (dict_set k v d).
Proof.
  intros Hkv. induction 1 as [|[k' v'] d Hhd Htl IH]; simpl; [by repeat constructor|].
  case_decide; by constructor.
Qed.

Lemma foldM_evalTDV_values R ts : ∀ c o s,
  ∃ evs c' o',
    foldM (evalTDV R) (c, o) ts s = (add_log s evs, Ret (c', o'))
    ∧ ∀ P : ndarray → Prop,
        (∀ t args, t ∈ ts → Calc (name t) args ∈ evs → P (calcFn t args)) →
        Forall (λ pv, P (snd pv)) (vars o) → Forall (λ pv, P (snd pv)) (vars o').
Proof.
  induction ts as [|t ts IH]; intros c o s.
  - exists [], c, o. by rewrite add_log_nil.
  - simpl. rewrite (bind_Ret _ _ _ _ _ (evalTDV_run R c o t s)).
    set (args := _buildEvalArgs t _ _ _ _ _ _ _ _).
    destruct (IH ({[name t]} ∪ c) (setattr o (name t) (calcFn t args))
                (add_log s [Calc (name t) args])) as (evs & c' & o' & Hrun & Hval).
    exists (Calc (name t) args :: evs), c', o'. split.
    + by rewrite Hrun, add_log_app.
    + intros P Hfn Ho. apply Hval.
      * intros t' args' Ht' Hin. apply Hfn; by right.
      * simpl. apply dict_set_Forall; [|done]. simpl. apply Hfn; by left.
Qed.

Lemma scheduler_values fuel R tdvSpec : ∀ c o s s' out,
  scheduler fuel R tdvSpec (c, o) s = (s', Ret out) →
  ∃ evs, log s' = log s ++ evs
         ∧ ∀ P : ndarray → Prop,
             (∀ t args, t ∈ tdvSpec → Calc (name t) args ∈ evs → P (calcFn t args)) →
             Forall (λ pv, P (snd pv)) (vars o) → Forall (λ pv, P (snd pv)) (vars out).
Proof.
  induction fuel as [|fuel IH]; intros c o s s' out Hrun; simpl in Hrun;
    case_decide; try discriminate;
    try (injection Hrun as <- <-; exists []; by rewrite app_nil_r).
  unfold pass in Hrun. simpl in Hrun.
  destruct (foldM_evalTDV_values R (filter (λ t, eligible c t = true) tdvSpec) c o s)
    as (evs1 & c1 & o1 & Hpass & Hval1).
  rewrite (bind_Ret _ _ _ _ _ Hpass) in Hrun.
  apply IH in Hrun as (evs2 & Hlog & Hval2).
  exists (evs1 ++ evs2). split; [by rewrite Hlog, app_assoc|].
  intros P Hfn Ho. apply Hval2.
  - intros t args Ht Hin. apply Hfn; [done|]. apply elem_of_app. by right.
  - apply Hval1; [|done]. intros t args [_ Ht]%list_elem_of_filter Hin.
    apply Hfn; [done|]. apply elem_of_app. by left.
Qed.

Lemma wrap_loop xs : ∀ n a s s',
  foldM (λ _ i, x <- index xs i ;; w <- deref Wrapped ;;
                store Wrapped (w ++ [[scalar_val x]])) tt (seq a n) s = (s', Ret tt) →
  n ≤ length xs - a
  ∧ caller_obj s' = caller_obj s ∧ log s' = log s
  ∧ wrapped_obj s' = wrapped_obj s ++ ((λ x, [scalar_val x]) <$> take n (drop a xs)).
Proof.
  induction n as [|n IH]; intros a s s' Hrun; simpl in Hrun.
  - injection Hrun as <-. rewrite take_0, app_nil_r. split_and!; [lia|done..].
  - apply bind_Ret_inv in Hrun as (s1 & [] & Hone & Hrun).
    apply bind_Ret_inv in Hone as (s0 & x & Hx & Hone). unfold index in Hx.
    destruct (xs !! a) as [x'|] eqn:Hxa; [|discriminate]. injection Hx as <- <-.
    injection Hone as <-. apply IH in Hrun as (Hlen & Hc & Hl & Hw). simpl in *.
    apply lookup_lt_Some in Hxa as Hlt.
    split_and!; [lia|done..|]. rewrite Hw, <- app_assoc. f_equal.
    rewrite (drop_S _ _ _ Hxa). done.
Qed.

Lemma wrapPTM_try_tuple xs dimCt s s1 r :
  _wrapPTM_try (PTuple xs) dimCt s = (s1, Ret r) →
  r = Wrapped ∧ dimCt ≤ length xs
  ∧ caller_obj s1 = caller_obj s ∧ log s1 = log s
  ∧ wrapped_obj s1 = (λ x, [scalar_val x]) <$> take dimCt xs.
Proof.
  unfold _wrapPTM_try. intros Hrun.
  assert ((store Wrapped [] ;;;
           foldM (λ _ i, x <- index xs i ;; w <- deref Wrapped ;;
                         store Wrapped (w ++ [[scalar_val x]])) tt (seq 0 dimCt) ;;;
           ret Wrapped) s = (s1, Ret r)) as Hrun'.
  { by destruct (xs !! iP) as [[x|x]|]. }
  clear Hrun. apply bind_Ret_inv in Hrun' as (s0 & [] & Hst & Hrun).
  injection Hst as <-.
  apply bind_Ret_inv in Hrun as (s2 & [] & Hloop & Hrun). injection Hrun as <- <-.
  apply wrap_loop in Hloop as (Hlen & Hc & Hl & Hw). simpl in *.
  rewrite drop_0 in Hw. split_and!; [done|lia|done..].
Qed.

(** The second half of [_wrapPTM], run on the array [r] stands for *)
Lemma inject_run r dimCt tdvSpec s sW r' :
  (need <- _needs0M dimCt r tdvSpec ;;
   (if (need : bool)
    then ds <- deref r ;; m <- index ds iM ;; store r (<[iM := 0%Q :: m]> ds)
    else ret tt) ;;; ret r) s = (sW, Ret r') →
  r' = r ∧ pts_of r sW = inject0 dimCt tdvSpec (pts_of r s) ∧ log sW = log s.
Proof.
  intros Hrun. apply bind_Ret_inv in Hrun as (s1 & need & Hneed & Hrun).
  apply bind_Ret_inv in Hrun as (s2 & [] & Hinj & Hrun). injection Hrun as <- <-.
  split; [done|]. unfold _needs0M in Hneed. unfold inject0.
  destruct (bool_decide (dimCt = 3)).
  - apply bind_Ret_inv in Hneed as (s0 & ds & Hds & Hneed). injection Hds as <- <-.
    apply bind_Ret_inv in Hneed as (s0 & m & Hm & Hneed). unfold index in Hm.
    change (match r with Caller => caller_obj s | Wrapped => wrapped_obj s end)
      with (pts_of r s) in *.
    destruct (pts_of r s !! iM) as [m'|] eqn:HM; [|discriminate].
    injection Hm as <- <-.
    apply bind_Ret_inv in Hneed as (s0 & m0 & Hm0 & Hneed). unfold index in Hm0.
    destruct m' as [|m1 M']; [discriminate|]. injection Hm0 as <- <-.
    injection Hneed as <- <-.
    destruct (Qneqb m1 0 && existsb req0M tdvSpec); [|by injection Hinj as <-].
    apply bind_Ret_inv in Hinj as (s0 & ds & Hds & Hinj). injection Hds as <- <-.
    apply bind_Ret_inv in Hinj as (s0 & m & Hm & Hinj). unfold index in Hm.
    change (match r with Caller => caller_obj s | Wrapped => wrapped_obj s end)
      with (pts_of r s) in *.
    rewrite HM in Hm. injection Hm as <- <-. injection Hinj as <-. by destruct r.
  - injection Hneed as <- <-. by injection Hinj as <-.
Qed.

Section Shape.
Context (E : Externals).

(** When [_wrapPTM] returns, the array it hands on holds the normalised
    points. *)
Lemma wrapPTM_points PTMa dimCt tdvSpec s sW r :
  _wrapPTM PTMa dimCt tdvSpec s = (sW, Ret r) →
  (PTMa = PArray → 0 < dimCt ∨ caller_obj s = []) →
  pts_of r sW = normalised PTMa dimCt tdvSpec s
  ∧ (∀ xs, PTMa = PTuple xs → dimCt ≤ length xs)
  ∧ log sW = log s.
Proof.
  intros Hrun Hlen. unfold _wrapPTM in Hrun.
  apply bind_Ret_inv in Hrun as (s1 & r1 & Htry & Hrun).
  apply inject_run in Hrun as (-> & Hpts & Hlog). unfold normalised.
  destruct PTMa as [xs|].
  - apply wrapPTM_try_tuple in Htry as (-> & Hle & Hc & Hl & Hw). simpl in *.
    rewrite Hpts, Hw. split_and!; [done| |congruence]. by intros ? [= <-].
  - specialize (Hlen eq_refl). unfold _wrapPTM_try in Htry.
    apply bind_Ret_inv in Htry as (s0 & ds & Hds & Htry). injection Hds as <- <-.
    destruct (caller_obj s !! iP) as [[|p P']|] eqn:HP.
    2: { injection Htry as <- <-. split_and!; [done| |done]. by intros. }
    all: apply bind_Ret_inv in Htry as (s2 & [] & Hst & Htry); injection Hst as <-.
    all: apply bind_Ret_inv in Htry as (s3 & [] & Hloop & Htry).
    all: injection Htry as <- <-.
    all: destruct dimCt as [|n];
           [|simpl in Hloop; apply bind_Ret_inv in Hloop as (s4 & [] & Hone & _);
             unfold index, iP in *; rewrite HP in Hone;
             by apply bind_Ret_inv in Hone as (? & ? & ? & ?)].
    all: injection Hloop as <-; simpl in *.
    all: destruct Hlen as [?|Hlen]; [lia|]; rewrite Hlen in *; simpl in *.
    all: split_and!; [by rewrite Hpts| |done]; by intros.
Qed.

Lemma firstM_given PTMa s s0 m0 M' :
  (∀ xs, PTMa = PTuple xs → 3 ≤ length xs) →
  given_points PTMa 3 s !! iM = Some (m0 :: M') →
  firstM_nonzero (original_copy PTMa s) s0 = (s0, Ret (Qneqb m0 0)).
Proof.
  intros Hlen HM. destruct PTMa as [xs|]; simpl in *; [|by rewrite HM].
  rewrite list_lookup_fmap in HM.
  destruct (take 3 xs !! iM) as [x|] eqn:Hx; [|discriminate].
  injection HM as <- <-. apply lookup_take_Some in Hx as [Hx _].
  unfold bind, index. by rewrite list_lookup_fmap, Hx.
Qed.

(** [_remove0M] brings the arrays computed on the normalised points back to
    the shape of the points as given. *)
Lemma remove0M_shapes PTMa dimCt tdvSpec s o r s2 s3 out :
  PTM o = original_copy PTMa s →
  pts_of r s2 = normalised PTMa dimCt tdvSpec s →
  length (given_points PTMa dimCt s) = dimCt →
  (∀ xs, PTMa = PTuple xs → dimCt ≤ length xs) →
  Forall (λ pv, shape (snd pv) = length <$> normalised PTMa dimCt tdvSpec s) (vars o) →
  _remove0M o r s2 = (s3, Ret out) →
  Forall (λ pv, shape (snd pv) = length <$> given_points PTMa dimCt s) (vars out).
Proof.
  intros HPTM Hpts Hlen Hxs Hsh Hrun. unfold normalised, inject0 in *.
  set (base := given_points PTMa dimCt s) in *.
  unfold _remove0M in Hrun.
  apply bind_Ret_inv in Hrun as (s0 & w & Hw & Hrun). injection Hw as <- <-.
  change (match r with Caller => caller_obj s2 | Wrapped => wrapped_obj s2 end)
    with (pts_of r s2) in *. rewrite Hpts in Hrun.
  apply bind_Ret_inv in Hrun as (s0 & has0 & Hhas & Hrun).
  destruct (bool_decide (dimCt = 3)) eqn:Hd.
  2: { apply bool_decide_eq_false in Hd.
       rewrite bool_decide_false in Hhas by congruence.
       injection Hhas as <- <-. by injection Hrun as <- <-. }
  apply bool_decide_eq_true in Hd. subst dimCt.
  destruct base as [|P [|T [|M [|]]]] eqn:Hbase; try discriminate. simpl in *.
  destruct M as [|m0 M'].
  { simpl in Hhas. apply bind_Ret_inv in Hhas as (? & ? & Hm & Hhas).
    injection Hm as <- <-. by apply bind_Ret_inv in Hhas as (? & ? & ? & ?). }
  pose proof (firstM_given PTMa s s2 m0 M' Hxs) as Hnz.
  fold base in Hnz. rewrite Hbase in Hnz. specialize (Hnz eq_refl).
  rewrite <- HPTM in Hnz.
  destruct (Qneqb m0 0 && existsb req0M tdvSpec) eqn:Hinj; simpl in *.
  - injection Hhas as <- <-. apply andb_true_iff in Hinj as [Hm _].
    change (Qeq_bool 0 0) with true in Hrun. cbv iota in Hrun.
    rewrite (bind_Ret _ _ _ _ _ Hnz), Hm in Hrun.
    rewrite (bind_Ret _ _ _ _ _ (remove_all_3d _ s2 ltac:(
      eapply Forall_impl; [exact Hsh|]; intros pv Hpv; unfold ndim; by rewrite Hpv)))
      in Hrun.
    injection Hrun as <- <-. simpl. apply Forall_fmap.
    eapply Forall_impl; [exact Hsh|]. intros pv Hpv. simpl. rewrite Hpv. simpl.
    by rewrite !Nat.sub_0_r.
  - injection Hhas as <- <-.
    destruct (Qeq_bool m0 0) eqn:Hm0; [|by injection Hrun as <- <-].
    rewrite (bind_Ret _ _ _ _ _ Hnz) in Hrun. unfold Qneqb in Hrun.
    rewrite Hm0 in Hrun. by injection Hrun as <- <-.
Qed.

(** The arrays a call returns have the shape of the grid of the points as
    given, when every computation function returns an array shaped like the
    grid of the points it is evaluated on. *)
Lemma eval_shapes fuel gibbsSp PTMa origSpec spec MWv MWu foe s s' out :
  evalSolutionGibbs E fuel gibbsSp PTMa origSpec MWv MWu foe s = (s', Ret out) →
  expandTDVSpec E origSpec (length (number gibbsSp)) = inr spec →
  (PTMa = PArray → length (caller_obj s) = length (number gibbsSp)) →
  (∀ t args, t ∈ spec → Calc (name t) args ∈ log s' →
     shape (calcFn t args)
     = length <$> normalised PTMa (length (number gibbsSp)) spec s) →
  Forall (λ pv, shape (snd pv)
                = length <$> given_points PTMa (length (number gibbsSp)) s) (vars out)
  ∧ ∀ xs, PTMa = PTuple xs → length (number gibbsSp) ≤ length xs.
Proof.
  intros Hrun Hexp Hlen Hfn. unfold evalSolutionGibbs in Hrun.
  set (dimCt := length (number gibbsSp)) in *.
  apply bind_Ret_inv in Hrun as (s1 & [[spec' o0] R] & Hsetup & Hrun).
  destruct (setup_inv E _ _ _ _ _ _ _ _ _ _ _ Hsetup)
    as (sN & sC & sW & Hexp' & [HstN _] & Hchk & Ho0 & Hwrap & Hder & _).
  fold dimCt in Hexp', Hchk, Hwrap, Hder.
  rewrite Hexp in Hexp'. injection Hexp' as <-.
  apply bind_Ret_inv in Hrun as (s2 & o1 & Hsched & Hrun).
  apply bind_Ret_inv in Hrun as (s3 & o2 & Hrem & Hrun). injection Hrun as <- <-.
  destruct (HstN I) as [HcN _].
  destruct (stage_keeps_store _ any_event _ _ _
              (checkInputs_respects E True any_event True gibbsSp dimCt spec PTMa
                 MWv MWu foe (λ _, I)) Hchk) as [HcC _].
  assert (caller_obj sC = caller_obj s) as Hc by congruence.
  assert (given_points PTMa dimCt sC = given_points PTMa dimCt s) as Hgiven
    by (destruct PTMa; simpl; congruence).
  assert (normalised PTMa dimCt spec sC = normalised PTMa dimCt spec s) as Hnorm
    by (unfold normalised; by rewrite Hgiven).
  destruct (wrapPTM_points _ _ _ _ _ _ Hwrap) as (Hpts & Hxs & _).
  { intros HP. destruct dimCt; [right|left; lia].
    apply nil_length_inv. rewrite Hc. by apply Hlen. }
  rewrite Hnorm in Hpts.
  destruct (stage_keeps_store _ any_event _ _ _
              (getDerivatives_respects E True any_event any_error True _ _ _ _
                 (λ _ _ _, I) I I) Hder) as [HcD HwD].
  destruct (stage_keeps_store _ any_event _ _ _
              (scheduler_respects True any_event any_error _ _ _ _ (λ _ _, I)) Hsched)
    as [HcS HwS].
  assert (pts_of (r_PTM R) s2 = normalised PTMa dimCt spec s) as Hpts2.
  { rewrite <- Hpts. destruct (r_PTM R); simpl; congruence. }
  assert (length (given_points PTMa dimCt s) = dimCt) as Hglen.
  { destruct PTMa as [xs|]; simpl; [|by apply Hlen].
    rewrite length_fmap, length_take. specialize (Hxs xs eq_refl). lia. }
  apply scheduler_PTM in Hsched as HPTM. simpl in HPTM.
  destruct (remove0M_quiet o1 (r_PTM R) s2) as [Hq _]. rewrite Hrem in Hq.
  simpl in Hq. subst s3.
  apply scheduler_values in Hsched as (evs & Hlog & Hval).
  specialize (Hval (λ v, shape v = length <$> normalised PTMa dimCt spec s)).
  simpl in Hval.
  assert (Forall (λ pv, shape (snd pv) = length <$> normalised PTMa dimCt spec s)
            (vars o1)) as Hsh.
  { apply Hval; [|by rewrite Ho0]. intros t args Ht Hin. apply Hfn; [done|].
    rewrite Hlog. apply elem_of_app. by right. }
  assert (PTM o1 = original_copy PTMa s) as HPTM'.
  { rewrite HPTM, Ho0. destruct PTMa; simpl; congruence. }
  split; [|done].
  exact (remove0M_shapes _ _ _ _ _ _ _ _ _ HPTM' Hpts2 Hglen Hxs Hsh Hrem).
Qed.

(** X5: a call that returns gives every variable an array of the shape the
    caller asked for (for nested arrays holding one array per dimension of
    the spline, the lengths of these arrays; for a tuple of scalars, a single
    element), provided every computation function that was called returned an
    array shaped like the grid of the normalised points: a zero molality that
    was put in front is sliced off again by [_remove0M], and nothing is
    sliced off otherwise. *)
Theorem output_arrays_have_the_requested_shape fuel gibbsSp PTMa origSpec spec
    MWv MWu foe s s' out n v :
  evalSolutionGibbs E fuel gibbsSp PTMa origSpec MWv MWu foe s = (s', Ret out) →
  expandTDVSpec E origSpec (length (number gibbsSp)) = inr spec →
  (PTMa = PArray → length (caller_obj s) = length (number gibbsSp)) →
  (∀ t args, t ∈ spec → Calc (name t) args ∈ log s' →
     shape (calcFn t args)
     = length <$> normalised PTMa (length (number gibbsSp)) spec s) →
  (n, v) ∈ vars out →
  shape v = requested_shape PTMa (length (number gibbsSp)) s
  ∧ (∀ xs, PTMa = PTuple xs → size_of v = 1).
Proof.
  intros Hrun Hexp Hlen Hfn Hin.
  destruct (eval_shapes _ _ _ _ _ _ _ _ _ _ _ Hrun Hexp Hlen Hfn) as [Hout Hxs].
  set (dimCt := length (number gibbsSp)) in *.
  rewrite Forall_forall in Hout. specialize (Hout _ Hin). simpl in Hout.
  assert (shape v = requested_shape PTMa dimCt s) as Hv.
  { rewrite Hout. destruct PTMa as [xs|]; simpl; [|done].
    specialize (Hxs xs eq_refl). clear -Hxs. revert xs Hxs.
    induction dimCt as [|d IH]; intros xs Hxs; [done|].
    destruct xs as [|x xs]; simpl in *; [lia|]. f_equal. apply IH. lia. }
  split; [done|]. intros xs ->. unfold size_of. rewrite Hv. simpl.
  clear. induction dimCt as [|d IH]; simpl; [done|]. rewrite IH. done.
Qed.

Lemma buildEvalArgs_points tdv derivs pts gPTM MWv MWu tdvout gibbsSp f k p :
  _buildEvalArgs tdv derivs pts gPTM MWv MWu tdvout gibbsSp f !! k = Some (RPTM p) →
  p = pts.
Proof.
  unfold _buildEvalArgs.
  repeat match goal with |- context [if ?b then _ else _] => destruct b end;
    intros H;
    repeat (apply lookup_insert_Some in H as [[_ H]|[_ H]]; [congruence|]);
    by rewrite lookup_empty in H.
Qed.

Lemma foldM_evalTDV_points R ts : ∀ c o s,
  ∃ evs c' o',
    foldM (evalTDV R) (c, o) ts s = (add_log s evs, Ret (c', o'))
    ∧ Forall (at_points (pts_of (r_PTM R) s)) evs.
Proof.
  induction ts as [|t ts IH]; intros c o s.
  - exists [], c, o. by rewrite add_log_nil.
  - simpl. rewrite (bind_Ret _ _ _ _ _ (evalTDV_run R c o t s)).
    set (args := _buildEvalArgs t _ _ _ _ _ _ _ _).
    destruct (IH ({[name t]} ∪ c) (setattr o (name t) (calcFn t args))
                (add_log s [Calc (name t) args])) as (evs & c' & o' & Hrun & Hev).
    exists (Calc (name t) args :: evs), c', o'. split.
    + by rewrite Hrun, add_log_app.
    + constructor; [|by destruct (r_PTM R)].
      intros k p. apply buildEvalArgs_points.
Qed.

Lemma scheduler_points R tdvSpec fuel : ∀ st s,
  ∃ evs, log (fst (scheduler fuel R tdvSpec st s)) = log s ++ evs
         ∧ Forall (at_points (pts_of (r_PTM R) s)) evs.
Proof.
  induction fuel as [|fuel IH]; intros [c o] s; simpl; case_decide;
    try (exists []; by rewrite app_nil_r).
  unfold pass. simpl.
  destruct (foldM_evalTDV_points R (filter (λ t, eligible c t = true) tdvSpec) c o s)
    as (evs1 & c1 & o1 & Hrun & Hev1).
  rewrite (bind_Ret _ _ _ _ _ Hrun).
  destruct (IH (c1, o1) (add_log s evs1)) as (evs2 & Hlog & Hev2).
  exists (evs1 ++ evs2). split.
  - rewrite Hlog. simpl. by rewrite app_assoc.
  - apply Forall_app. split; [done|]. by destruct (r_PTM R).
Qed.

(** X4: in a call that returns, for a spline of at least one dimension,
    every invocation of the spline evaluator is at the normalised points, and
    a computation function that is handed a point set is handed the
    normalised points: the caller's arrays (each scalar coordinate of a tuple
    as an array of one element), with a 0 in front of the molalities exactly
    when the spline has three dimensions, the molalities do not start with 0
    and some variable of the closure is flagged [req0M]. *)
Theorem evaluation_happens_at_the_normalised_points fuel gibbsSp PTMa origSpec spec
    MWv MWu foe s s' out :
  evalSolutionGibbs E fuel gibbsSp PTMa origSpec MWv MWu foe s = (s', Ret out) →
  expandTDVSpec E origSpec (length (number gibbsSp)) = inr spec →
  0 < length (number gibbsSp) →
  ∃ evs, log s' = log s ++ evs
         ∧ Forall (at_points (normalised PTMa (length (number gibbsSp)) spec s)) evs.
Proof.
  intros Hrun Hexp Hdim. unfold evalSolutionGibbs in Hrun.
  set (dimCt := length (number gibbsSp)) in *.
  apply bind_Ret_inv in Hrun as (s1 & [[spec' o0] R] & Hsetup & Hrun).
  destruct (setup_inv E _ _ _ _ _ _ _ _ _ _ _ Hsetup)
    as (sN & sC & sW & Hexp' & [HstN (evN & HlN & HaN)] & Hchk & _ & Hwrap & Hder & _).
  fold dimCt in Hexp', Hchk, Hwrap, Hder.
  rewrite Hexp in Hexp'. injection Hexp' as <-.
  apply bind_Ret_inv in Hrun as (s2 & o1 & Hsched & Hrun).
  apply bind_Ret_inv in Hrun as (s3 & o2 & Hrem & Hrun). injection Hrun as <- <-.
  destruct (HstN I) as [HcN _].
  destruct (stage_keeps_store _ any_event _ _ _
              (checkInputs_respects E True any_event True gibbsSp dimCt spec PTMa
                 MWv MWu foe (λ _, I)) Hchk) as [HcC _].
  destruct (respects_log True is_advisory any_error True _ _ _ _
              (checkInputs_respects E True is_advisory True _ _ _ _ _ _ _ (λ _, I)) Hchk)
    as (evC & HlC & HaC).
  assert (normalised PTMa dimCt spec sC = normalised PTMa dimCt spec s) as Hnorm.
  { unfold normalised. f_equal. destruct PTMa; simpl; congruence. }
  destruct (wrapPTM_points _ _ _ _ _ _ Hwrap) as (Hpts & _ & HlW); [by left|].
  rewrite Hnorm in Hpts.
  apply getDerivatives_loop in Hder as (evD & -> & _ & HaD).
  destruct (scheduler_points R spec fuel (∅, o0) (add_log sW evD)) as (evS & HlS & HaS).
  rewrite Hsched in HlS. simpl in HlS.
  destruct (remove0M_quiet o1 (r_PTM R) s2) as [Hq _]. rewrite Hrem in Hq.
  simpl in Hq. subst s3.
  exists (evN ++ evC ++ evD ++ evS). split.
  - rewrite HlS, HlW, HlC, HlN. by rewrite <- !app_assoc.
  - rewrite !Forall_app. split_and!.
    + eapply Forall_impl; [exact HaN|]. by intros [] ?.
    + eapply Forall_impl; [exact HaC|]. by intros [] ?.
    + eapply Forall_impl; [exact HaD|]. intros ev (rd & ds & dd & -> & _). done.
    + eapply Forall_impl; [exact HaS|]. intros ev Hev.
      by replace (pts_of (r_PTM R) (add_log sW evD)) with (pts_of (r_PTM R) sW) in Hev
        by (by destruct (r_PTM R)); rewrite Hpts in Hev.
Qed.

End Shape.

(** ** Calling twice on the same array *)

Section Twice.
Context (E : Externals).

(** A call on nested arrays for a three-dimensional spline that returns: what
    it leaves in the caller's array and in the result object. *)
Lemma eval_array_3d fuel gibbsSp origSpec spec MWv MWu foe s s' out m M' :
  evalSolutionGibbs E fuel gibbsSp PArray origSpec MWv MWu foe s = (s', Ret out) →
  length (number gibbsSp) = 3 →
  expandTDVSpec E origSpec 3 = inr spec →
  caller_obj s !! iM = Some (m :: M') →
  caller_obj s' = (if Qneqb m 0 && existsb req0M spec
                   then <[iM := 0%Q :: m :: M']> (caller_obj s) else caller_obj s)
  ∧ PTM out = CopyNested (caller_obj s).
Proof.
  intros Hrun Hdim Hexp HM. unfold evalSolutionGibbs in Hrun.
  apply bind_Ret_inv in Hrun as (s1 & [[spec' o0] R] & Hsetup & Hrun).
  destruct (setup_inv E _ _ _ _ _ _ _ _ _ _ _ Hsetup)
    as (sN & sC & sW & Hexp' & [HstN _] & Hchk & Ho0 & Hwrap & Hder & _).
  rewrite Hdim in *. rewrite Hexp in Hexp'. injection Hexp' as <-.
  apply bind_Ret_inv in Hrun as (s2 & o1 & Hsched & Hrun).
  apply bind_Ret_inv in Hrun as (s3 & o2 & Hrem & Hrun). injection Hrun as <- <-.
  destruct (HstN I) as [HcN _].
  destruct (stage_keeps_store _ any_event _ _ _
              (checkInputs_respects E True any_event True gibbsSp 3 spec PArray
                 MWv MWu foe (λ _, I)) Hchk) as [HcC _].
  assert (caller_obj sC = caller_obj s) as Hc by congruence.
  destruct (wrapPTM_array_inv _ _ _ _ _ Hwrap) as (p & P' & HP); [lia|].
  rewrite (wrapPTM_array_run spec sC p P' m M') in Hwrap by (first [exact HP | by rewrite Hc]).
  injection Hwrap as <- Hr.
  destruct (stage_keeps_store _ any_event _ _ _
              (getDerivatives_respects E True any_event any_error True _ _ _ _
                 (λ _ _ _, I) I I) Hder) as [HcD _].
  destruct (stage_keeps_store _ any_event _ _ _
              (scheduler_respects True any_event any_error _ _ _ _ (λ _ _, I)) Hsched)
    as [HcS _].
  destruct (remove0M_quiet o1 (r_PTM R) s2) as [Hq _]. rewrite Hrem in Hq.
  simpl in Hq. subst s3.
  apply scheduler_PTM in Hsched. apply remove0M_keys in Hrem as [_ Hrem].
  split.
  - rewrite HcS, HcD. destruct (_ && _); simpl; congruence.
  - rewrite Hrem, Hsched, Ho0. simpl. congruence.
Qed.

(** X6: calling twice with the same array object does not give the same
    result twice.  When a first call on nested arrays put a 0 in front of the
    molalities (three-dimensional spline, a variable flagged [req0M],
    molalities not starting with 0) and returned, a second call with the same
    arguments, started where the first ended, finds the 0 in the caller's
    array: it leaves the array alone, stores the array with the 0 as its
    [PTM] attribute, and returns arrays with one more molality than the first
    call (given that the computation functions return arrays shaped like the
    grid they are evaluated on). *)
Theorem second_call_on_the_same_array_returns_one_more_molality fuel gibbsSp origSpec
    spec MWv MWu foe s s1 out1 s2 out2 t m M' :
  length (number gibbsSp) = 3 →
  expandTDVSpec E origSpec 3 = inr spec →
  t ∈ spec → req0M t = true →
  length (caller_obj s) = 3 →
  caller_obj s !! iM = Some (m :: M') → Qneqb m 0 = true →
  evalSolutionGibbs E fuel gibbsSp PArray origSpec MWv MWu foe s = (s1, Ret out1) →
  evalSolutionGibbs E fuel gibbsSp PArray origSpec MWv MWu foe s1 = (s2, Ret out2) →
  (∀ t args, t ∈ spec → Calc (name t) args ∈ log s2 →
     shape (calcFn t args) = length <$> <[iM := 0%Q :: m :: M']> (caller_obj s)) →
  PTM out1 = CopyNested (caller_obj s)
  ∧ PTM out2 = CopyNested (<[iM := 0%Q :: m :: M']> (caller_obj s))
  ∧ caller_obj s2 = caller_obj s1
  ∧ Forall (λ pv, shape (snd pv) = length <$> caller_obj s) (vars out1)
  ∧ Forall (λ pv, shape (snd pv) = length <$> <[iM := 0%Q :: m :: M']> (caller_obj s))
           (vars out2).
Proof.
  intros Hdim Hexp Ht Hreq Hlen HM Hm Hrun1 Hrun2 Hfn.
  assert (existsb req0M spec = true) as Hany.
  { apply existsb_exists. exists t. split; [by apply list_elem_of_In|done]. }
  destruct (eval_array_3d _ _ _ _ _ _ _ _ _ _ _ _ Hrun1 Hdim Hexp HM) as [Hc1 HP1].
  rewrite Hm, Hany in Hc1. simpl in Hc1.
  assert (caller_obj s1 !! iM = Some (0%Q :: m :: M')) as HM2.
  { rewrite Hc1. apply list_lookup_insert_eq. unfold iM. lia. }
  destruct (eval_array_3d _ _ _ _ _ _ _ _ _ _ _ _ Hrun2 Hdim Hexp HM2) as [Hc2 HP2].
  simpl in Hc2.
  assert (normalised PArray 3 spec s = <[iM := 0%Q :: m :: M']> (caller_obj s)) as Hn1.
  { unfold normalised, inject0. simpl. by rewrite HM, Hm, Hany. }
  assert (normalised PArray 3 spec s1 = <[iM := 0%Q :: m :: M']> (caller_obj s)) as Hn2.
  { unfold normalised, inject0. simpl. rewrite HM2. simpl. congruence. }
  assert (∃ evs, log s2 = log s1 ++ evs) as [evs2 Hlog2].
  { destruct (setup_respects E any_event True gibbsSp PArray origSpec MWv MWu foe
                (λ _ _, I) s1) as ([_ (evs0 & Hlog0 & _)] & _).
    unfold evalSolutionGibbs in Hrun2.
    apply bind_Ret_inv in Hrun2 as (sa & [[spec' o0] R] & Hsetup & Hrun2).
    rewrite Hsetup in Hlog0. simpl in Hlog0.
    apply bind_Ret_inv in Hrun2 as (sb & o1 & Hsched & Hrun2).
    apply bind_Ret_inv in Hrun2 as (sc & o2 & Hrem & Hrun2). injection Hrun2 as <- <-.
    destruct (respects_log True any_event any_error True _ _ _ _
                (scheduler_respects True any_event any_error _ _ _ _ (λ _ _, I)) Hsched)
      as (evS & HlS & _).
    destruct (remove0M_quiet o1 (r_PTM R) sb) as [Hq _]. rewrite Hrem in Hq.
    simpl in Hq. subst sc. exists (evs0 ++ evS). by rewrite HlS, Hlog0, app_assoc. }
  destruct (eval_shapes E _ _ _ _ spec _ _ _ _ _ _ Hrun1) as [Hsh1 _];
    rewrite ?Hdim; try done.
  { intros t' args Ht' Hin. rewrite Hn1. apply Hfn; [done|].
    rewrite Hlog2. apply elem_of_app. by left. }
  destruct (eval_shapes E _ _ _ _ spec _ _ _ _ _ _ Hrun2) as [Hsh2 _];
    rewrite ?Hdim; try done.
  { intros _. by rewrite Hc1, length_insert. }
  { intros. rewrite Hn2. by apply Hfn. }
  rewrite Hdim in Hsh1, Hsh2. simpl in Hsh1, Hsh2.
  split_and!; [done|congruence|congruence|done|].
  by rewrite Hc1 in Hsh2.
Qed.

End Twice.

(** ** The range check *)

Lemma bind_Raise_inv {A B} (m : M A) (k : A → M B) s s' e :
  bind m k s = (s', Raise e) →
  m s = (s', Raise e) ∨ ∃ s1 a, m s = (s1, Ret a) ∧ k a s1 = (s', Raise e).
Proof.
  unfold bind. destruct (m s) as [s1 [a|e'|]]; intros H; try discriminate.
  - right. by exists s1, a.
  - left. by injection H as <- <-.
Qed.

Lemma ends_extrema k s :
  ends k s = (s, match extrema k with Some r => Ret r | None => Raise IndexError end).
Proof. unfold ends, extrema. destruct k; [done|]. by destruct (last _). Qed.

Lemma mapM_ends_inv ks : ∀ s s' krs,
  mapM_ ends ks s = (s', Ret krs) → s' = s ∧ extrema <$> ks = Some <$> krs.
Proof.
  induction ks as [|k ks IH]; intros s s' krs Hrun; simpl in Hrun.
  - by injection Hrun as <- <-.
  - apply bind_Ret_inv in Hrun as (s1 & r & Hk & Hrun). rewrite ends_extrema in Hk.
    destruct (extrema k) as [r'|] eqn:Hr; [|discriminate]. injection Hk as <- <-.
    apply bind_Ret_inv in Hrun as (s2 & rs & Hks & Hrun). injection Hrun as <- <-.
    apply IH in Hks as [-> Hks]. split; [done|]. csimpl. by rewrite Hr, Hks.
Qed.

Lemma flags_run krs ptmr (l : list nat) s :
  mapM_ (λ i, kr <- index krs i ;; dr <- index ptmr i ;;
              ret (hasValsOutsideKnotRange kr dr)) l s
  = (s, if forallb (λ i, (i <? length krs) && (i <? length ptmr)) l
        then Ret (outside krs ptmr <$> l) else Raise IndexError).
Proof.
  induction l as [|i l IH]; [done|].
  cbn [mapM_ forallb fmap list_fmap]. unfold outside at 1.
  destruct (krs !! i) as [kr|] eqn:Hk.
  2: { pose proof (proj1 (lookup_ge_None _ _) Hk) as Hk'. apply Nat.ltb_ge in Hk'.
       rewrite Hk'. simpl.
       unfold bind, index. by rewrite Hk. }
  pose proof (lookup_lt_Some _ _ _ Hk) as Hk'. apply Nat.ltb_lt in Hk'. rewrite Hk'.
  destruct (ptmr !! i) as [dr|] eqn:Hd.
  2: { pose proof (proj1 (lookup_ge_None _ _) Hd) as Hd'. apply Nat.ltb_ge in Hd'.
       rewrite Hd'. simpl.
       unfold bind, index. by rewrite Hk, Hd. }
  pose proof (lookup_lt_Some _ _ _ Hd) as Hd'. apply Nat.ltb_lt in Hd'. rewrite Hd'. simpl.
  erewrite bind_Ret; [|unfold bind, index; by rewrite Hk, Hd].
  destruct (forallb _ l);
    [by rewrite (bind_Ret _ _ _ _ _ IH)|by rewrite (bind_Raise _ _ _ _ _ IH)].
Qed.

Lemma flagged_dims (f : nat → bool) (l : list nat) :
  fst <$> filter (λ p, snd p = true) (zip l (f <$> l)) = filter (λ i, f i = true) l.
Proof.
  induction l as [|i l IH]; [done|]. csimpl. rewrite !filter_cons. simpl.
  destruct (decide (f i = true)); csimpl; by rewrite IH.
Qed.

(** The range check in closed form: it fails with [IndexError] when the knots
    or the points have fewer than [dimCt] dimensions; otherwise it reports the
    dimensions below [dimCt] whose flag is set, by an exception or by a
    warning, and does nothing when there is none. *)
Lemma rangeCheck_run dimCt krs ptmr foe s :
  rangeCheck dimCt krs ptmr foe s
  = if decide (dimCt ≤ length krs ∧ dimCt ≤ length ptmr)
    then let dims := filter (λ i, outside krs ptmr i = true) (seq 0 dimCt) in
         if nonempty dims
         then if foe then (s, Raise (ExtrapolationError dims))
              else (add_log s [Warn (ExtrapolationWarning dims)], Ret tt)
         else (s, Ret tt)
    else (s, Raise IndexError).
Proof.
  unfold rangeCheck. pose proof (flags_run krs ptmr (seq 0 dimCt) s) as Hf.
  destruct (forallb _ (seq 0 dimCt)) eqn:Hall.
  - rewrite (bind_Ret _ _ _ _ _ Hf). rewrite decide_True.
    2: { destruct dimCt as [|n]; [lia|]. rewrite forallb_forall in Hall.
         specialize (Hall n). rewrite andb_true_iff, !Nat.ltb_lt in Hall.
         apply Hall, in_seq. lia. }
    rewrite flagged_dims. simpl. destruct (nonempty _); [|done]. by destruct foe.
  - rewrite (bind_Raise _ _ _ _ _ Hf). rewrite decide_False; [done|]. intros [H1 H2].
    apply not_true_iff_false in Hall. apply Hall, forallb_forall.
    intros i [_ Hi]%in_seq. rewrite andb_true_iff, !Nat.ltb_lt. lia.
Qed.

Lemma Qltb_lt x y : Qltb x y = true ↔ (x < y)%Q.
Proof.
  unfold Qltb. rewrite negb_true_iff, <- not_true_iff_false, Qle_bool_iff.
  split; [apply Qnot_le_lt|apply Qlt_not_le].
Qed.

Lemma ptmranges_inv PTMa s s' ptmr dimCt :
  ptmranges PTMa s = (s', Ret ptmr) →
  s' = s ∧ ∀ i, i < dimCt →
            ptmr !! i = given_points PTMa dimCt s !! i ≫= extrema.
Proof.
  destruct PTMa as [xs|]; simpl.
  - intros [= <- <-]. split; [done|]. intros i Hi.
    rewrite !list_lookup_fmap, lookup_take_lt by done. by destruct (xs !! i).
  - intros Hrun. apply bind_Ret_inv in Hrun as (s0 & ds & Hds & Hrun).
    injection Hds as <- <-. apply mapM_ends_inv in Hrun as [-> Heq].
    split; [done|]. intros i _.
    apply (f_equal (λ l, l !! i)) in Heq. rewrite !list_lookup_fmap in Heq.
    destruct (caller_obj s !! i), (ptmr !! i); simpl in *; congruence.
Qed.

Lemma no_extrapolation {A} (m : M A) K Q D s s' dims :
  respects K Q not_extrapolation D m → m s ≠ (s', Raise (ExtrapolationError dims)).
Proof.
  intros Hm Hrun. destruct (Hm s) as (_ & Hv & _). rewrite Hrun in Hv.
  by apply (Hv _ eq_refl).
Qed.

Lemma outside_extrapolates gibbsSp PTMa dimCt s krs ptmr i :
  extrema <$> knots gibbsSp = Some <$> krs →
  ptmr !! i = given_points PTMa dimCt s !! i ≫= extrema →
  outside krs ptmr i = true
  ↔ extrapolates (knots gibbsSp) (given_points PTMa dimCt s) i.
Proof.
  intros Hk Hp. apply (f_equal (λ l, l !! i)) in Hk. rewrite !list_lookup_fmap in Hk.
  unfold outside, extrapolates, hasValsOutsideKnotRange. rewrite <- Hp.
  destruct (knots gibbsSp !! i) as [k|], (krs !! i) as [kr|]; simpl in *;
    try discriminate.
  - injection Hk as Hk. rewrite Hk. destruct (ptmr !! i) as [dr|].
    + rewrite orb_true_iff, !Qltb_lt. split; [by exists kr, dr|].
      by intros (? & ? & [= <-] & [= <-] & ?).
    + split; [done|]. by intros (? & ? & _ & ? & _).
  - split; [done|]. by intros (? & ? & ? & _).
Qed.

Lemma checkUserInput_extrapolation gibbsSp dimCt tdvSpec PTMa MWu MWv foe s s' dims :
  _checkUserInput gibbsSp dimCt tdvSpec PTMa MWu MWv foe s
  = (s', Raise (ExtrapolationError dims)) →
  foe = true ∧ dims ≠ []
  ∧ ∀ i, i ∈ dims
         ↔ i < dimCt ∧ extrapolates (knots gibbsSp) (given_points PTMa dimCt s) i.
Proof.
  unfold _checkUserInput. destruct (_ && _); [discriminate|].
  destruct (_ && _); [discriminate|]. intros Hrun.
  apply bind_Raise_inv in Hrun as [Hrun|(s1 & krs & Hk & Hrun)].
  { exfalso. revert Hrun. apply (no_extrapolation _ True any_event True).
    respects_tac. }
  apply mapM_ends_inv in Hk as [-> Hk].
  apply bind_Raise_inv in Hrun as [Hrun|(s1 & ptmr & Hp & Hrun)].
  { exfalso. revert Hrun. apply (no_extrapolation _ True any_event True).
    unfold ptmranges. respects_tac. }
  apply (ptmranges_inv _ _ _ _ dimCt) in Hp as [-> Hp].
  rewrite rangeCheck_run in Hrun. case_decide; [|discriminate]. simpl in Hrun.
  destruct (filter _ (seq 0 dimCt)) as [|d ds] eqn:Hdims; [discriminate|].
  simpl in Hrun. destruct foe; [|discriminate]. injection Hrun as _ <-.
  split_and!; [done..|]. intros i. rewrite <- Hdims, list_elem_of_filter, elem_of_seq.
  split.
  - intros [Ho Hi]. split; [lia|]. eapply outside_extrapolates; [done|apply Hp; lia|done].
  - intros [Hi He]. split; [|lia].
    eapply outside_extrapolates in He; [done|done|by apply Hp].
Qed.

Lemma checkUserInput_Ret gibbsSp dimCt tdvSpec PTMa MWu MWv foe s s' :
  _checkUserInput gibbsSp dimCt tdvSpec PTMa MWu MWv foe s = (s', Ret tt) →
  ∃ dims,
    (∀ i, i ∈ dims
          ↔ i < dimCt ∧ extrapolates (knots gibbsSp) (given_points PTMa dimCt s) i)
    ∧ ((dims = [] ∧ s' = s)
       ∨ (dims ≠ [] ∧ foe = false
          ∧ s' = add_log s [Warn (ExtrapolationWarning dims)])).
Proof.
  unfold _checkUserInput. destruct (_ && _); [discriminate|].
  destruct (_ && _); [discriminate|]. intros Hrun.
  apply bind_Ret_inv in Hrun as (s1 & krs & Hk & Hrun).
  apply mapM_ends_inv in Hk as [-> Hk].
  apply bind_Ret_inv in Hrun as (s1 & ptmr & Hp & Hrun).
  apply (ptmranges_inv _ _ _ _ dimCt) in Hp as [-> Hp].
  rewrite rangeCheck_run in Hrun. case_decide; [|discriminate]. simpl in Hrun.
  exists (filter (λ i, outside krs ptmr i = true) (seq 0 dimCt)). split.
  - intros i. rewrite list_elem_of_filter, elem_of_seq. split.
    + intros [Ho Hi]. split; [lia|].
      eapply outside_extrapolates; [done|apply Hp; lia|done].
    + intros [Hi He]. split; [|lia].
      eapply outside_extrapolates in He; [done|done|by apply Hp].
  - destruct (filter _ (seq 0 dimCt)) as [|d ds]; simpl in Hrun.
    + left. by injection Hrun as <-.
    + right. destruct foe; [discriminate|]. by injection Hrun as <-.
Qed.

Section Extrapolation.
Context (E : Externals).

(** What the part of [setup] that follows the checks may do *)
Lemma after_checks_respects Q V gibbsSp dimCt tdvSpec PTMa MWv MWu :
  (∀ rd dd pts, Q (EvalSpline rd dd pts)) →
  V IndexError → V TypeError → V ValueError → V StopIteration →
  respects False Q V True
    (tdvout <- createThermodynamicStatesObj dimCt tdvSpec PTMa ;;
     PTM <- _wrapPTM PTMa dimCt tdvSpec ;;
     derivs <- getDerivatives E gibbsSp PTM dimCt tdvSpec ;;
     gPTM <- (if existsb reqGrid tdvSpec
              then g <- _getGriddedPTM tdvSpec PTM ;; ret (Some g) else ret None) ;;
     f <- (if existsb reqF tdvSpec
           then f <- _getVolSolventInVolSlnConversion MWu PTM ;; ret (Some f)
           else ret None) ;;
     ret (tdvSpec, tdvout,
          {| r_derivs := derivs; r_PTM := PTM; r_gPTM := gPTM; r_MWv := MWv;
             r_MWu := MWu; r_gibbsSp := gibbsSp; r_f := f |})).
Proof.
  intros HQ ????.
  apply respects_bind; [apply createThermodynamicStatesObj_respects|]. intros o.
  apply respects_bind; [by apply wrapPTM_respects|]. intros r.
  apply respects_bind; [by apply getDerivatives_respects|]. intros derivs.
  apply respects_bind.
  { destruct (existsb _ _); respects_tac. apply getGriddedPTM_respects. }
  intros g. apply respects_bind; [|intros; apply respects_ret].
  destruct (existsb _ _); respects_tac.
  by apply getVolSolventInVolSlnConversion_respects.
Qed.

(** X7: [evalSolutionGibbs] raises the extrapolation error only under the
    fail policy ([failOnExtrapolate] true), and the dimensions the error
    names are exactly the dimensions of the spline in which the first
    requested point lies below the first knot or the last requested point
    above the last knot. *)
Theorem extrapolation_error_names_the_dimensions fuel gibbsSp PTMa origSpec MWv MWu
    foe s s' dims :
  evalSolutionGibbs E fuel gibbsSp PTMa origSpec MWv MWu foe s
  = (s', Raise (ExtrapolationError dims)) →
  foe = true ∧ dims ≠ []
  ∧ ∀ i, i ∈ dims
         ↔ i < length (number gibbsSp)
           ∧ extrapolates (knots gibbsSp)
               (given_points PTMa (length (number gibbsSp)) s) i.
Proof.
  intros Hrun. unfold evalSolutionGibbs in Hrun.
  set (dimCt := length (number gibbsSp)) in *.
  apply bind_Raise_inv in Hrun as [Hrun|(s1 & [[spec o0] R] & _ & Hrun)].
  2: { exfalso. revert Hrun. apply (no_extrapolation _ True any_event True).
       apply respects_bind; [by apply scheduler_respects|]. intros o1.
       apply respects_bind; [by apply remove0M_respects|]. intros; apply respects_ret. }
  unfold setup in Hrun. fold dimCt in Hrun.
  destruct (expandTDVSpec E origSpec dimCt) as [n|spec]; [discriminate|].
  rewrite (bind_Ret _ _ s s spec eq_refl) in Hrun.
  apply bind_Raise_inv in Hrun as [Hrun|(sN & [] & HN & Hrun)].
  { exfalso. revert Hrun. apply (no_extrapolation _ True any_event True).
    destruct (_ && _); respects_tac. }
  assert (caller_obj sN = caller_obj s) as HcN.
  { eapply (stage_keeps_store _ any_event); [|exact HN].
    destruct (_ && _); respects_tac. }
  apply bind_Raise_inv in Hrun as [Hrun|(sC & [] & _ & Hrun)].
  2: { exfalso. revert Hrun. apply (no_extrapolation _ False any_event True).
       by apply after_checks_respects. }
  unfold _checkInputs in Hrun.
  apply bind_Raise_inv in Hrun as [Hrun|(s1 & [] & H1 & Hrun)].
  { exfalso. revert Hrun. apply (no_extrapolation _ True any_event True).
    unfold _checkSplineAndTdvs. respects_tac. }
  destruct (checkSplineAndTdvs_stateless gibbsSp dimCt spec) as [r Hr].
  rewrite Hr in H1. injection H1 as <- _.
  apply bind_Raise_inv in Hrun as [Hrun|(s1 & [] & _ & Hrun)].
  2: { exfalso. revert Hrun. apply (no_extrapolation _ True any_event True).
       unfold _checkMemReq, pointCounts. respects_tac. }
  apply checkUserInput_extrapolation in Hrun as (Hfoe & Hne & Hdims).
  split_and!; [done..|]. intros i. rewrite Hdims.
  by replace (given_points PTMa dimCt sN) with (given_points PTMa dimCt s)
    by (destruct PTMa; simpl; congruence).
Qed.

(** X8: a call that returns has not extrapolated silently.  Among the events
    of the call an extrapolation warning occurs only under the warn policy
    and names exactly the dimensions that reach beyond the knots; and if some
    dimension reaches beyond the knots, then the policy is the warn policy and
    a warning naming that dimension was issued.  Hence under the fail policy
    the first and last requested point of every dimension of a returned
    result lie within the knots. *)
Theorem a_returning_call_never_extrapolates_silently fuel gibbsSp PTMa origSpec MWv MWu
    foe s s' out :
  evalSolutionGibbs E fuel gibbsSp PTMa origSpec MWv MWu foe s = (s', Ret out) →
  let beyond i :=
    i < length (number gibbsSp)
    ∧ extrapolates (knots gibbsSp) (given_points PTMa (length (number gibbsSp)) s) i in
  ∃ evs, log s' = log s ++ evs
    ∧ (∀ dims, Warn (ExtrapolationWarning dims) ∈ evs →
         foe = false ∧ ∀ i, i ∈ dims ↔ beyond i)
    ∧ (∀ i, beyond i →
         foe = false ∧ ∃ dims, Warn (ExtrapolationWarning dims) ∈ evs ∧ i ∈ dims).
Proof.
  intros Hrun beyond. unfold evalSolutionGibbs in Hrun.
  set (dimCt := length (number gibbsSp)) in *.
  apply bind_Ret_inv in Hrun as (s1 & [[spec o0] R] & Hsetup & Hrun).
  apply bind_Ret_inv in Hrun as (s2 & o1 & Hsched & Hrun).
  apply bind_Ret_inv in Hrun as (s3 & o2 & Hrem & Hrun). injection Hrun as <- <-.
  destruct (remove0M_quiet o1 (r_PTM R) s2) as [Hq _]. rewrite Hrem in Hq.
  simpl in Hq. subst s3.
  destruct (respects_log True no_extrapolation_warning any_error True _ _ _ _
              (scheduler_respects True no_extrapolation_warning any_error _ _ _ _
                 (λ _ _, I)) Hsched) as (evS & HlS & HaS).
  unfold setup in Hsetup. fold dimCt in Hsetup.
  destruct (expandTDVSpec E origSpec dimCt) as [n|spec']; [discriminate|].
  rewrite (bind_Ret _ _ s s spec' eq_refl) in Hsetup.
  apply bind_Ret_inv in Hsetup as (sN & [] & HN & Hsetup).
  assert (respects True no_extrapolation_warning any_error True
            (if nonempty origSpec
                && nonempty (name <$> filter (λ s, in_origSpec (name s) origSpec = false)
                                        spec')
             then emit (Notice (name <$> filter (λ s, in_origSpec (name s) origSpec = false)
                                           spec'))
             else ret tt)) as HNr by (destruct (_ && _); respects_tac).
  destruct (respects_log _ _ _ _ _ _ _ _ HNr HN) as (evN & HlN & HaN).
  destruct (stage_keeps_store _ _ _ _ _ HNr HN) as [HcN _].
  apply bind_Ret_inv in Hsetup as (sC & [] & Hchk & Hrest).
  destruct (respects_log False no_extrapolation_warning any_error True _ _ _ _
              (after_checks_respects no_extrapolation_warning any_error gibbsSp dimCt
                 spec' PTMa MWv MWu (λ _ _ _, I) I I I I) Hrest) as (evR & HlR & HaR).
  unfold _checkInputs in Hchk.
  apply bind_Ret_inv in Hchk as (sa & [] & Hcap & Hchk).
  destruct (checkSplineAndTdvs_stateless gibbsSp dimCt spec') as [r Hr].
  rewrite Hr in Hcap. injection Hcap as <- _.
  apply bind_Ret_inv in Hchk as (sb & [] & Hui & Hmem).
  assert (respects True no_extrapolation_warning any_error True
            (_checkMemReq E spec' PTMa)) as HMr
    by (unfold _checkMemReq, pointCounts; respects_tac).
  destruct (respects_log _ _ _ _ _ _ _ _ HMr Hmem) as (evM & HlM & HaM).
  apply checkUserInput_Ret in Hui as (dims & Hdims & Hcase).
  replace (given_points PTMa dimCt sN) with (given_points PTMa dimCt s) in Hdims
    by (destruct PTMa; simpl; congruence).
  assert (∀ d evs0, Forall no_extrapolation_warning evs0 →
                    Warn (ExtrapolationWarning d) ∉ evs0) as Hno.
  { intros d evs0 Hall Hin. rewrite Forall_forall in Hall. by apply (Hall _ Hin). }
  destruct Hcase as [[-> ->]|(Hne & -> & ->)].
  - exists (evN ++ evM ++ evR ++ evS). split_and!.
    + rewrite HlS, HlR, HlM, HlN. by rewrite <- !app_assoc.
    + intros d. rewrite !elem_of_app. intros [Hin|[Hin|[Hin|Hin]]]; exfalso;
        [apply (Hno _ _ HaN Hin)|apply (Hno _ _ HaM Hin)|apply (Hno _ _ HaR Hin)
        |apply (Hno _ _ HaS Hin)].
    + intros i Hi%Hdims. by apply elem_of_nil in Hi.
  - exists (evN ++ [Warn (ExtrapolationWarning dims)] ++ evM ++ evR ++ evS). split_and!.
    + rewrite HlS, HlR, HlM. simpl. rewrite HlN. by rewrite <- !app_assoc.
    + intros d. rewrite !elem_of_app, list_elem_of_singleton.
      intros [Hin|[Heq|[Hin|[Hin|Hin]]]];
        [exfalso; apply (Hno _ _ HaN Hin)| |exfalso; apply (Hno _ _ HaM Hin)
        |exfalso; apply (Hno _ _ HaR Hin)|exfalso; apply (Hno _ _ HaS Hin)].
      injection Heq as ->. done.
    + intros i Hi%Hdims. split; [done|]. exists dims. split; [|done].
      rewrite !elem_of_app, list_elem_of_singleton. auto.
Qed.

End Extrapolation.

(** ** The capability check, both ways *)

Lemma nonempty_filter {A} (P : A → Prop) `{!∀ x, Decision (P x)} (l : list A) :
  nonempty (filter P l) = true ↔ ∃ x, x ∈ l ∧ P x.
Proof.
  split.
  - destruct (filter P l) as [|x l'] eqn:Hf; [done|]. intros _. exists x.
    apply and_comm, (list_elem_of_filter P). rewrite Hf. by left.
  - intros (x & Hx & HP). assert (x ∈ filter P l) as Hin by by apply list_elem_of_filter.
    by destruct (filter P l); [apply elem_of_nil in Hin|].
Qed.

(** X9: for a spline whose knot sequences are not empty, the capability
    check [_checkSplineAndTdvs] accepts exactly when a three-dimensional
    spline evaluated for a variable flagged [req0M] has molality knots
    starting at 0, and a two-dimensional spline comes with no variable
    flagged [reqF] or [reqM]; a spline of any other number of dimensions is
    accepted whatever the variables. *)
Theorem capability_check_accepts_exactly gibbsSp dimCt tdvSpec s :
  Forall (λ k, k ≠ []) (knots gibbsSp) →
  _checkSplineAndTdvs gibbsSp dimCt tdvSpec s = (s, Ret tt)
  ↔ (dimCt = 3 → (∃ t, t ∈ tdvSpec ∧ req0M t = true) →
       ∃ k0 ks, knots gibbsSp !! iM = Some (k0 :: ks) ∧ (k0 == 0)%Q)
    ∧ (dimCt = 2 → ∀ t, t ∈ tdvSpec → reqF t = false ∧ reqM t = false).
Proof.
  intros Hne. unfold _checkSplineAndTdvs.
  destruct (mapM_ends_ok _ s Hne) as (krs & Hrun & _).
  rewrite (bind_Ret _ _ _ _ _ Hrun). apply mapM_ends_inv in Hrun as [_ Hk].
  apply (f_equal (λ l, l !! iM)) in Hk. rewrite !list_lookup_fmap in Hk.
  assert (nonempty (filter (λ t, reqF t || reqM t = true) tdvSpec) = false
          ↔ ∀ t, t ∈ tdvSpec → reqF t = false ∧ reqM t = false) as HM.
  { rewrite <- not_true_iff_false, nonempty_filter. split.
    - intros Hno t Ht. destruct (reqF t) eqn:HF, (reqM t) eqn:HMt; try done;
        exfalso; apply Hno; exists t; (split; [done|]); by rewrite HF, ?HMt.
    - intros Hall (t & Ht & Hreq). destruct (Hall t Ht) as [HF HM].
      by rewrite HF, HM in Hreq. }
  destruct (decide (dimCt = 3)) as [->|Hn3].
  - rewrite bool_decide_true by done. simpl.
    destruct (nonempty (filter (λ t, req0M t = true) tdvSpec)) eqn:H0.
    + apply nonempty_filter in H0. unfold bind at 1. unfold bind at 1. unfold index.
      destruct (krs !! iM) as [kr|] eqn:Hkr; simpl.
      * destruct (knots gibbsSp !! iM) as [k|] eqn:Hkn; [|discriminate]. simpl in Hk.
        injection Hk as Hk. unfold extrema in Hk.
        destruct k as [|k0 ks]; [discriminate|].
        destruct (last (k0 :: ks)); [|discriminate]. injection Hk as <-. simpl.
        unfold Qneqb. destruct (Qeq_bool k0 0) eqn:Heq; simpl.
        -- apply Qeq_bool_iff in Heq. split; [|done]. intros _. split; [|done].
           intros _ _. by exists k0, ks.
        -- split; [done|]. intros [H3 _]. destruct (H3 eq_refl H0) as (? & ? & [= <- <-] & Hz).
           apply Qeq_bool_iff in Hz. congruence.
      * split; [done|]. intros [H3 _]. destruct (H3 eq_refl H0) as (? & ? & Hkn & _).
        rewrite Hkn in Hk. simpl in Hk. discriminate.
    + unfold bind; simpl. split; [|done]. intros _. split; [|done]. intros _ Hex.
      apply (nonempty_filter (λ t, req0M t = true)) in Hex. congruence.
  - rewrite bool_decide_false by done. unfold bind; simpl.
    destruct (decide (dimCt = 2)) as [->|Hn2].
    + simpl. destruct (nonempty (filter _ tdvSpec)) eqn:HMe.
      * split; [done|]. intros [_ H2]. apply HM in H2; [congruence|done].
      * split; [|done]. intros _. split; [done|]. intros _. by apply HM.
    + rewrite bool_decide_false by done. simpl. split; [|done]. by intros _.
Qed.

(** ** The derivative directive and the derivatives handed back *)

Lemma buildDerivDirective_run d dimCt s :
  _buildDerivDirective d dimCt s
  = (s, if decide (required_dims d ≤ dimCt) then Ret (directive d dimCt)
        else Raise IndexError).
Proof.
  unfold _buildDerivDirective, required_dims, directive, list_assign, defDer, iP, iT, iM.
  destruct d as [nm p t m]. simpl.
  destruct dimCt as [|[|[|n]]];
    destruct p as [|p], t as [|t], m as [|m]; simpl; unfold bind, ret, raise; simpl;
    rewrite ?take_nil, ?Nat.sub_0_r; try reflexivity.
  all: repeat (case_decide; simpl in *; rewrite ?length_replicate in *; try lia);
    try reflexivity.
Qed.

Section Derivatives.
Context (E : Externals).

Lemma evalDerivative_run gibbsSp r dimCt out rd s :
  evalDerivative E gibbsSp r dimCt out rd s
  = match List.find (λ d, bool_decide (dname d = rd)) (derivatives E) with
    | Some d =>
        if decide (required_dims d ≤ dimCt)
        then (add_log s [EvalSpline rd (directive d dimCt) (pts_of r s)],
              Ret (<[rd := evalMultivarSpline E gibbsSp (pts_of r s) (directive d dimCt)]>
                     out))
        else (s, Raise IndexError)
    | None => (s, Raise StopIteration)
    end.
Proof.
  unfold evalDerivative, getDerivSpec.
  destruct (List.find _ _) as [d|]; [|done].
  rewrite (bind_Ret _ _ s s d eq_refl). unfold bind at 1.
  rewrite buildDerivDirective_run. case_decide; [|done]. by destruct r.
Qed.

(** X10: [getDerivatives] returns exactly when every derivative required by
    some variable of the specification has an entry in the catalogue whose
    non-zero orders fit the dimensions of the spline (a missing entry ends
    the call with [StopIteration], an order for a dimension the spline lacks
    with [IndexError]); the object it returns then holds, under each required
    name and under no other, the value of the spline evaluator at the points
    for the directive of the first catalogue entry of that name: its orders
    for pressure, temperature and molality, cut or filled with the default to
    the number of dimensions. *)
Theorem derivatives_returned_for_the_required_names gibbsSp r dimCt tdvSpec s :
  let available rd :=
    ∃ d, List.find (λ d, bool_decide (dname d = rd)) (derivatives E) = Some d
         ∧ required_dims d ≤ dimCt in
  ((∃ s' out, getDerivatives E gibbsSp r dimCt tdvSpec s = (s', Ret out))
   ↔ ∀ t rd, t ∈ tdvSpec → rd ∈ reqDerivs t → available rd)
  ∧ ∀ s' out, getDerivatives E gibbsSp r dimCt tdvSpec s = (s', Ret out) →
      ∀ rd v, out !! rd = Some v
              ↔ (∃ t, t ∈ tdvSpec ∧ rd ∈ reqDerivs t)
                ∧ ∃ d, List.find (λ d, bool_decide (dname d = rd)) (derivatives E)
                       = Some d
                       ∧ v = evalMultivarSpline E gibbsSp (pts_of r s) (directive d dimCt).
Proof.
  intros available. unfold getDerivatives.
  assert (∀ rds out0 s0,
            ((∃ s' out, foldM (evalDerivative E gibbsSp r dimCt) out0 rds s0
                        = (s', Ret out))
             ↔ ∀ rd, rd ∈ rds → available rd)
            ∧ ∀ s' out, foldM (evalDerivative E gibbsSp r dimCt) out0 rds s0
                        = (s', Ret out) →
                ∀ rd v, out !! rd = Some v
                        ↔ (rd ∈ rds
                           ∧ ∃ d, List.find (λ d, bool_decide (dname d = rd))
                                    (derivatives E) = Some d
                                  ∧ v = evalMultivarSpline E gibbsSp (pts_of r s0)
                                          (directive d dimCt))
                          ∨ ((rd ∉ rds) ∧ out0 !! rd = Some v)) as Hloop.
  { induction rds as [|rd0 rds IH]; intros out0 s0.
    - simpl. split.
      + split; [intros _ rd Hrd; by apply elem_of_nil in Hrd|by eauto].
      + intros s' out [= <- <-] rd v. split; [intros ?; right; split; [|done]|].
        * apply not_elem_of_nil.
        * intros [[Hrd _]|[_ ?]]; [by apply elem_of_nil in Hrd|done].
    - cbn [foldM]. unfold bind. rewrite evalDerivative_run.
      destruct (List.find _ _) as [d|] eqn:Hfind.
      2: { split; [|by intros]. split; [by intros (? & ? & ?)|]. intros Hall. exfalso.
           destruct (Hall rd0) as (d & Hd & _); [by left|]. congruence. }
      case_decide as Hfit.
      2: { split; [|by intros]. split; [by intros (? & ? & ?)|]. intros Hall. exfalso.
           destruct (Hall rd0) as (d' & Hd & ?); [by left|]. simplify_eq. lia. }
      destruct (IH (<[rd0 := evalMultivarSpline E gibbsSp (pts_of r s0) (directive d dimCt)]>
                      out0)
                  (add_log s0 [EvalSpline rd0 (directive d dimCt) (pts_of r s0)]))
        as [IH1 IH2].
      replace (pts_of r (add_log s0 [EvalSpline rd0 (directive d dimCt) (pts_of r s0)]))
        with (pts_of r s0) in IH2 by by destruct r.
      split.
      + rewrite IH1. split.
        * intros Hall rd [->|Hrd]%elem_of_cons; [by exists d|by apply Hall].
        * intros Hall rd Hrd. apply Hall. by right.
      + intros s' out Hrun rd v. rewrite (IH2 _ _ Hrun). rewrite elem_of_cons.
        destruct (decide (rd = rd0)) as [->|Hne].
        * rewrite lookup_insert_eq. split.
          -- intros [[Hin Hv]|[Hnin Hv]]; [left; split; [by right|done]|].
             injection Hv as <-. left. split; [by left|]. by exists d.
          -- intros [[_ (d' & Hd' & ->)]|[Hnin _]]; [|exfalso; apply Hnin; by left].
             simplify_eq. destruct (decide (rd0 ∈ rds)); [left|right]; eauto.
        * rewrite lookup_insert_ne by done. split.
          -- intros [[Hin Hv]|[Hnin Hv]]; [left; split; [by right|done]|].
             right. split; [|done]. intros [?|?]; done.
          -- intros [[[?|Hin] Hv]|[Hnin Hv]]; [done|by left|]. right. split; [|done].
             intros ?. apply Hnin. by right. }
  destruct (Hloop (reqderivs E tdvSpec) ∅ s) as [H1 H2]. split.
  - rewrite H1. split.
    + intros Hall t rd Ht Hrd. apply Hall, reqderivs_spec. by exists t.
    + intros Hall rd (t & Ht & Hrd)%reqderivs_spec. by eapply Hall.
  - intros s' out Hrun rd v. rewrite (H2 _ _ Hrun), reqderivs_spec, lookup_empty.
    split; [intros [?|[_ ?]]; done|by left].
Qed.

End Derivatives.

(** ** The memory check is advisory *)

Lemma oblivious_paired {A} (m : M A) : oblivious m → paired m m.
Proof. done. Qed.

Lemma paired_bind {A B} (m1 m2 : M A) (k1 k2 : A → M B) :
  paired m1 m2 → (∀ a, paired (k1 a) (k2 a)) → paired (bind m1 k1) (bind m2 k2).
Proof.
  intros Hm Hk s1 s2 Hs. destruct (Hm s1 s2 Hs) as [Hr Ha]. unfold bind.
  destruct (m1 s1) as [s1' r1], (m2 s2) as [s2' r2]. simpl in *. subst r2.
  destruct r1; [by apply Hk|done..].
Qed.

Lemma oblivious_store r o : oblivious (store r o).
Proof. intros s1 s2 [Hc Hw]. split; [done|]. by destruct r; split. Qed.

Lemma oblivious_diverge {A} : oblivious (@diverge A).
Proof. by intros s1 s2 H. Qed.

Lemma oblivious_ends k : oblivious (ends k).
Proof.
  unfold ends. destruct k; [apply oblivious_raise|].
  destruct (last _); [apply oblivious_ret|apply oblivious_raise].
Qed.

Lemma oblivious_mapM {A B} (f : A → M B) xs :
  (∀ x, oblivious (f x)) → oblivious (mapM_ f xs).
Proof.
  intros Hf. induction xs as [|x xs IH]; simpl; [apply oblivious_ret|].
  apply oblivious_bind; [done|]. intros y.
  apply oblivious_bind; [done|]. intros ys. apply oblivious_ret.
Qed.

Ltac oblivious_step' :=
  lazymatch goal with
  | |- oblivious (store _ _) => apply oblivious_store
  | |- oblivious diverge => apply oblivious_diverge
  | |- oblivious (ends _) => apply oblivious_ends
  | |- oblivious (mapM_ _ _) => apply oblivious_mapM; intros ?
  | |- oblivious (let '(_, _) := ?x in _) => destruct x
  | |- _ => oblivious_step
  end.

Lemma checkSplineAndTdvs_oblivious gibbsSp dimCt tdvSpec :
  oblivious (_checkSplineAndTdvs gibbsSp dimCt tdvSpec).
Proof. unfold _checkSplineAndTdvs. repeat oblivious_step'. Qed.

Lemma checkUserInput_oblivious gibbsSp dimCt tdvSpec PTMa MWu MWv foe :
  oblivious (_checkUserInput gibbsSp dimCt tdvSpec PTMa MWu MWv foe).
Proof. unfold _checkUserInput, ptmranges, rangeCheck. repeat oblivious_step'. Qed.

Lemma createThermodynamicStatesObj_oblivious dimCt tdvSpec PTMa :
  oblivious (createThermodynamicStatesObj dimCt tdvSpec PTMa).
Proof. unfold createThermodynamicStatesObj. repeat oblivious_step'. Qed.

Lemma wrapPTM_oblivious PTMa dimCt tdvSpec : oblivious (_wrapPTM PTMa dimCt tdvSpec).
Proof. unfold _wrapPTM, _wrapPTM_try, _needs0M. repeat oblivious_step'. Qed.

Lemma getGriddedPTM_oblivious tdvSpec r : oblivious (_getGriddedPTM tdvSpec r).
Proof. unfold _getGriddedPTM. repeat oblivious_step'. Qed.

Lemma scheduler_oblivious fuel R tdvSpec : ∀ st, oblivious (scheduler fuel R tdvSpec st).
Proof.
  induction fuel as [|fuel IH]; intros st; simpl; case_decide;
    try apply oblivious_ret; try apply oblivious_diverge.
  apply oblivious_bind; [|done]. unfold pass, evalTDV. repeat oblivious_step'.
Qed.

Lemma remove0M_oblivious o r : oblivious (_remove0M o r).
Proof. unfold _remove0M, firstM_nonzero, remove_first_M. repeat oblivious_step'. Qed.

Lemma checkMemReq_paired E1 E2 tdvSpec PTMa :
  paired (_checkMemReq E1 tdvSpec PTMa) (_checkMemReq E2 tdvSpec PTMa).
Proof.
  intros s1 s2 [Hc Hw]. unfold _checkMemReq, pointCounts, bind.
  destruct PTMa; simpl; rewrite ?Hc; repeat case_bool_decide; by split.
Qed.

(** X11: the amount of virtual memory of the machine has no influence on
    what a call of [evalSolutionGibbs] returns or raises, nor on the arrays
    it leaves behind: the memory check only warns. *)
Theorem memory_check_does_not_change_the_result (E : Externals) (v : Z)
    fuel gibbsSp PTMa origSpec MWv MWu foe s :
  snd (evalSolutionGibbs (with_vmTotal E v) fuel gibbsSp PTMa origSpec MWv MWu foe s)
  = snd (evalSolutionGibbs E fuel gibbsSp PTMa origSpec MWv MWu foe s)
  ∧ agree (fst (evalSolutionGibbs (with_vmTotal E v) fuel gibbsSp PTMa origSpec
                  MWv MWu foe s))
          (fst (evalSolutionGibbs E fuel gibbsSp PTMa origSpec MWv MWu foe s)).
Proof.
  assert (paired (evalSolutionGibbs (with_vmTotal E v) fuel gibbsSp PTMa origSpec
                    MWv MWu foe)
                 (evalSolutionGibbs E fuel gibbsSp PTMa origSpec MWv MWu foe)) as H.
  2: { by apply H. }
  unfold evalSolutionGibbs. apply paired_bind.
  2: { intros [[spec o] R]. apply oblivious_paired.
       apply oblivious_bind; [apply scheduler_oblivious|]. intros o1.
       apply oblivious_bind; [apply remove0M_oblivious|]. intros; apply oblivious_ret. }
  unfold setup. apply paired_bind.
  { apply oblivious_paired. simpl. destruct (expandTDVSpec E _ _);
      [apply oblivious_raise|apply oblivious_ret]. }
  intros spec. apply paired_bind.
  { apply oblivious_paired. destruct (_ && _); [apply oblivious_emit|apply oblivious_ret]. }
  intros _. apply paired_bind.
  { unfold _checkInputs. apply paired_bind.
    { apply oblivious_paired, checkSplineAndTdvs_oblivious. }
    intros _. apply paired_bind.
    { apply oblivious_paired, checkUserInput_oblivious. }
    intros _. apply checkMemReq_paired. }
  intros _. apply paired_bind.
  { apply oblivious_paired, createThermodynamicStatesObj_oblivious. }
  intros o. apply paired_bind.
  { apply oblivious_paired, wrapPTM_oblivious. }
  intros r. apply paired_bind.
  { exact (oblivious_paired _ (getDerivatives_oblivious E gibbsSp r _ spec)). }
  intros derivs. apply oblivious_paired.
  apply oblivious_bind.
  { destruct (existsb reqGrid spec); [|apply oblivious_ret].
    apply oblivious_bind; [apply getGriddedPTM_oblivious|]. intros; apply oblivious_ret. }
  intros g. apply oblivious_bind; [|intros; apply oblivious_ret].
  destruct (existsb reqF spec); [|apply oblivious_ret].
  apply oblivious_bind; [apply getVolSolventInVolSlnConversion_oblivious|].
  intros; apply oblivious_ret.
Qed.

(** ** The gridded point set *)

Lemma nd_index_const a : ∀ sh idx,
  Forall2 lt idx sh → nd_index sh idx (replicate (foldr Nat.mul 1 sh) a) = Some a.
Proof.
  induction sh as [|n sh IH]; intros idx Hidx.
  - by apply Forall2_nil_inv_r in Hidx as ->.
  - apply Forall2_cons_inv_r in Hidx as (j & idx' & Hj & Hidx & ->). simpl.
    rewrite decide_True by done. rewrite drop_replicate, take_replicate.
    rewrite Nat.min_l by nia. by apply IH.
Qed.

Lemma bind_replicate_length (x : list Q) P : length (x ≫= replicate P) = length x * P.
Proof. induction x as [|a x IH]; [done|]. csimpl. rewrite length_app, length_replicate. lia. Qed.

Lemma bind_replicate_chunk P : ∀ (x : list Q) j a,
  x !! j = Some a → take P (drop (j * P) (x ≫= replicate P)) = replicate P a.
Proof.
  induction x as [|a0 x IH]; intros j a Hj; [by rewrite lookup_nil in Hj|].
  csimpl. destruct j as [|j]; simpl in *.
  - injection Hj as ->. rewrite drop_0, take_app_length'; [done|].
    by rewrite length_replicate.
  - rewrite drop_app_ge by (rewrite length_replicate; lia).
    rewrite length_replicate. replace (P + j * P - P) with (j * P) by lia. by apply IH.
Qed.

Lemma mjoin_replicate_mul (b : list Q) q n :
  mjoin (replicate (n * q) b) = mjoin (replicate n (mjoin (replicate q b))).
Proof.
  induction n as [|n IH]; [done|]. simpl. rewrite replicate_add, join_app. by rewrite IH.
Qed.

Lemma prod_split : ∀ (sh : list nat) i n,
  sh !! i = Some n →
  foldr Nat.mul 1 sh
  = foldr Nat.mul 1 (take i sh) * (n * foldr Nat.mul 1 (drop (S i) sh)).
Proof.
  induction sh as [|n0 sh IH]; intros i n Hi; [by rewrite lookup_nil in Hi|].
  destruct i as [|i]; simpl in *.
  - injection Hi as ->. rewrite drop_0. lia.
  - rewrite (IH _ _ Hi). lia.
Qed.

Lemma nd_index_grid (x : list Q) : ∀ sh i idx,
  sh !! i = Some (length x) → Forall2 lt idx sh →
  nd_index sh idx
    (mjoin (replicate (foldr Nat.mul 1 (take i sh))
              (x ≫= replicate (foldr Nat.mul 1 (drop (S i) sh)))))
  = idx !! i ≫= (x !!.).
Proof.
  induction sh as [|n sh IH]; intros i idx Hi Hidx; [by rewrite lookup_nil in Hi|].
  apply Forall2_cons_inv_r in Hidx as (j & idx' & Hj & Hidx & ->).
  cbn [nd_index]. rewrite decide_True by done. destruct i as [|i].
  - simpl in Hi. injection Hi as ->. simpl. rewrite drop_0, app_nil_r.
    destruct (lookup_lt_is_Some_2 x j Hj) as [a Ha].
    rewrite (bind_replicate_chunk _ _ _ _ Ha), Ha. by apply nd_index_const.
  - simpl in Hi. cbn [take drop foldr lookup list_lookup].
    set (b := x ≫= replicate (foldr Nat.mul 1 (drop (S i) sh))).
    rewrite mjoin_replicate_mul.
    rewrite (mjoin_uniform_chunk _ _ _ (mjoin (replicate (foldr Nat.mul 1 (take i sh)) b))).
    + by apply IH.
    + apply Forall_replicate.
      rewrite (mjoin_uniform_length _ (length b)) by by apply Forall_replicate.
      rewrite length_replicate. subst b. rewrite bind_replicate_length.
      by rewrite (prod_split _ _ _ Hi).
    + by apply lookup_replicate_2.
Qed.

Lemma meshgrid_entry xs i x g idx :
  xs !! i = Some x →
  meshgrid xs !! i = Some g →
  Forall2 lt idx (length <$> xs) →
  length (meshgrid xs) = length xs
  ∧ shape g = length <$> xs
  ∧ length (data g) = size_of g
  ∧ nd_get g idx = idx !! i ≫= (x !!.).
Proof.
  intros Hx Hg Hidx. unfold meshgrid in *. rewrite list_lookup_imap, Hx in Hg.
  injection Hg as <-. unfold nd_get, size_of. simpl.
  assert ((length <$> xs) !! i = Some (length x)) as Hi
    by by rewrite list_lookup_fmap, Hx.
  split_and!; [by rewrite length_imap|done| |by apply nd_index_grid].
  rewrite (mjoin_uniform_length _ (length x * foldr Nat.mul 1 (drop (S i) (length <$> xs)))).
  - rewrite length_replicate. by rewrite (prod_split _ _ _ Hi).
  - apply Forall_replicate, bind_replicate_length.
Qed.

(** X12: when some variable asks for the gridded point set, [_getGriddedPTM]
    returns one array per dimension of the point set, each of the shape of
    the grid and holding as many elements as the grid has points, such that
    the element at a grid index of the array of dimension [i] is the point of
    dimension [i] at the [i]-th component of the index (matrix indexing). *)
Theorem gridded_points_repeat_each_dimension tdvSpec r s i x idx :
  existsb reqGrid tdvSpec = true →
  pts_of r s !! i = Some x →
  Forall2 lt idx (length <$> pts_of r s) →
  ∃ gs g,
    _getGriddedPTM tdvSpec r s = (s, Ret gs)
    ∧ length gs = length (pts_of r s)
    ∧ gs !! i = Some g
    ∧ shape g = length <$> pts_of r s
    ∧ length (data g) = size_of g
    ∧ nd_get g idx = idx !! i ≫= (x !!.).
Proof.
  intros Hany Hx Hidx. rewrite getGriddedPTM_run, Hany.
  assert (∃ g, meshgrid (pts_of r s) !! i = Some g) as [g Hg].
  { unfold meshgrid. rewrite list_lookup_imap, Hx. by eexists. }
  destruct (meshgrid_entry _ _ _ _ _ Hx Hg Hidx) as (? & ? & ? & ?).
  by exists (meshgrid (pts_of r s)), g.
Qed.

(** ** Runs on the small registry *)

Lemma variables_computed_after_their_dependencies_witness :
  ∃ evs,
    log (fst (evalSolutionGibbs (registry [mus; G]) 2 sp3 PArray [ByName "mus"]
                MWv_default None true (initial grid3)))
    = log (initial grid3) ++ evs
    ∧ dependency_ordered [mus; G] ∅ evs.
Proof.
  apply (variables_computed_after_their_dependencies (registry [mus; G]) 2 sp3 PArray
           [ByName "mus"] [mus; G] MWv_default None true (initial grid3)).
  reflexivity.
Defined.

Lemma result_keeps_the_points_as_passed_witness :
  PTM {| PTM := CopyFlat [1; 3]%Q; vars := [("G", sumgrid [[1]; [3]]%Q)] |}
  = original_copy (PTuple [NpNum 1; NpNum 3]) (initial []).
Proof.
  apply (result_keeps_the_points_as_passed (registry [G]) 1 sp2
           (PTuple [NpNum 1; NpNum 3]) [ByName "G"] MWv_default None true (initial [])
           (fst (evalSolutionGibbs (registry [G]) 1 sp2 (PTuple [NpNum 1; NpNum 3])
                   [ByName "G"] MWv_default None true (initial [])))).
  vm_compute. reflexivity.
Defined.

Lemma evaluation_happens_at_the_normalised_points_witness :
  ∃ evs,
    log (fst (evalSolutionGibbs (registry [mus; G]) 2 sp3 PArray [ByName "mus"]
                MWv_default None true (initial grid3)))
    = log (initial grid3) ++ evs
    ∧ Forall (at_points (normalised PArray (length (number sp3)) [mus; G]
                              (initial grid3))) evs.
Proof.
  apply (evaluation_happens_at_the_normalised_points (registry [mus; G]) 2 sp3 PArray
           [ByName "mus"] [mus; G] MWv_default None true (initial grid3) _
           {| PTM := CopyNested grid3;
              vars := [("G", drop_first_M (sumgrid grid3_with0));
                       ("mus", drop_first_M (sumgrid grid3_with0))] |}).
  - vm_compute. reflexivity.
  - reflexivity.
  - simpl. lia.
Defined.

Lemma output_arrays_have_the_requested_shape_witness :
  shape (sumgrid [[1]; [3]]%Q)
  = requested_shape (PTuple [NpNum 1; NpNum 3]) (length (number sp2)) (initial [])
  ∧ (∀ xs, PTuple [NpNum 1; NpNum 3] = PTuple xs → size_of (sumgrid [[1]; [3]]%Q) = 1).
Proof.
  apply (output_arrays_have_the_requested_shape (registry [G]) 1 sp2
           (PTuple [NpNum 1; NpNum 3]) [ByName "G"] [G] MWv_default None true (initial [])
           (fst (evalSolutionGibbs (registry [G]) 1 sp2 (PTuple [NpNum 1; NpNum 3])
                   [ByName "G"] MWv_default None true (initial [])))
           {| PTM := CopyFlat [1; 3]%Q; vars := [("G", sumgrid [[1]; [3]]%Q)] |} "G").
  - vm_compute. reflexivity.
  - reflexivity.
  - intros H. discriminate H.
  - intros t args Ht Hin. apply list_elem_of_singleton in Ht. subst t.
    remember (log _) as l eqn:Hl in Hin. vm_compute in Hl. subst l.
    apply elem_of_cons in Hin as [Hin|Hin]; [discriminate Hin|].
    apply list_elem_of_singleton in Hin. injection Hin as ->. reflexivity.
  - simpl. left.
Defined.

Lemma second_call_on_the_same_array_returns_one_more_molality_witness :
  PTM {| PTM := CopyNested grid3;
         vars := [("G", drop_first_M (sumgrid grid3_with0));
                  ("mus", drop_first_M (sumgrid grid3_with0))] |}
  = CopyNested (caller_obj (initial grid3))
  ∧ PTM {| PTM := CopyNested grid3_with0;
           vars := [("G", sumgrid grid3_with0); ("mus", sumgrid grid3_with0)] |}
    = CopyNested (<[iM := [0; 4; 5]%Q]> (caller_obj (initial grid3)))
  ∧ caller_obj
      (fst (evalSolutionGibbs (registry [mus; G]) 2 sp3 PArray [ByName "mus"]
              MWv_default None true
              (fst (evalSolutionGibbs (registry [mus; G]) 2 sp3 PArray [ByName "mus"]
                      MWv_default None true (initial grid3)))))
    = caller_obj
        (fst (evalSolutionGibbs (registry [mus; G]) 2 sp3 PArray [ByName "mus"]
                MWv_default None true (initial grid3)))
  ∧ Forall (λ pv, shape (snd pv) = length <$> caller_obj (initial grid3))
      (vars {| PTM := CopyNested grid3;
               vars := [("G", drop_first_M (sumgrid grid3_with0));
                        ("mus", drop_first_M (sumgrid grid3_with0))] |})
  ∧ Forall (λ pv, shape (snd pv)
                  = length <$> <[iM := [0; 4; 5]%Q]> (caller_obj (initial grid3)))
      (vars {| PTM := CopyNested grid3_with0;
               vars := [("G", sumgrid grid3_with0); ("mus", sumgrid grid3_with0)] |}).
Proof.
  apply (second_call_on_the_same_array_returns_one_more_molality (registry [mus; G]) 2
           sp3 [ByName "mus"] [mus; G] MWv_default None true (initial grid3) _ _ _ _
           mus 4%Q [5]%Q).
  - reflexivity.
  - reflexivity.
  - by left.
  - reflexivity.
  - reflexivity.
  - reflexivity.
  - reflexivity.
  - vm_compute. reflexivity.
  - vm_compute. reflexivity.
  - intros t args Ht Hin.
    remember (log _) as l eqn:Hl in Hin. vm_compute in Hl. subst l.
    repeat (apply elem_of_cons in Hin as [Hin|Hin];
            [first [discriminate Hin
                   |injection Hin as Hn ->;
                    apply elem_of_cons in Ht as [->|Ht];
                    [|apply list_elem_of_singleton in Ht; subst t];
                    first [discriminate Hn|reflexivity]]|]).
    by apply elem_of_nil in Hin.
Defined.

Lemma extrapolation_error_names_the_dimensions_witness :
  true = true ∧ [0] ≠ []
  ∧ ∀ i, i ∈ [0]
         ↔ i < length (number sp2)
           ∧ extrapolates (knots sp2)
               (given_points PArray (length (number sp2)) (initial [[1; 20]; [3]]%Q)) i.
Proof.
  apply (extrapolation_error_names_the_dimensions (registry [G]) 1 sp2 PArray
           [ByName "G"] MWv_default None true (initial [[1; 20]; [3]]%Q)
           (fst (evalSolutionGibbs (registry [G]) 1 sp2 PArray [ByName "G"] MWv_default
                   None true (initial [[1; 20]; [3]]%Q)))).
  vm_compute. reflexivity.
Defined.

Lemma a_returning_call_never_extrapolates_silently_witness :
  ∃ evs,
    log (fst (evalSolutionGibbs (registry [G]) 1 sp2 PArray [ByName "G"] MWv_default
                None false (initial [[1; 20]; [3]]%Q)))
    = log (initial [[1; 20]; [3]]%Q) ++ evs
    ∧ (∀ dims, Warn (ExtrapolationWarning dims) ∈ evs →
         false = false
         ∧ ∀ i, i ∈ dims
                ↔ i < length (number sp2)
                  ∧ extrapolates (knots sp2)
                      (given_points PArray (length (number sp2))
                         (initial [[1; 20]; [3]]%Q)) i)
    ∧ (∀ i, i < length (number sp2)
            ∧ extrapolates (knots sp2)
                (given_points PArray (length (number sp2))
                   (initial [[1; 20]; [3]]%Q)) i →
         false = false ∧ ∃ dims, Warn (ExtrapolationWarning dims) ∈ evs ∧ i ∈ dims).
Proof.
  apply (a_returning_call_never_extrapolates_silently (registry [G]) 1 sp2 PArray
           [ByName "G"] MWv_default None false (initial [[1; 20]; [3]]%Q) _
           {| PTM := CopyNested [[1; 20]; [3]]%Q;
              vars := [("G", sumgrid [[1; 20]; [3]]%Q)] |}).
  vm_compute. reflexivity.
Defined.

Lemma capability_check_accepts_exactly_witness :
  _checkSplineAndTdvs sp3 3 [mus; G] (initial grid3) = (initial grid3, Ret tt)
  ↔ (3 = 3 → (∃ t, t ∈ [mus; G] ∧ req0M t = true) →
       ∃ k0 ks, knots sp3 !! iM = Some (k0 :: ks) ∧ (k0 == 0)%Q)
    ∧ (3 = 2 → ∀ t, t ∈ [mus; G] → reqF t = false ∧ reqM t = false).
Proof.
  apply (capability_check_accepts_exactly sp3 3 [mus; G] (initial grid3)).
  repeat constructor; discriminate.
Defined.

Lemma gridded_points_repeat_each_dimension_witness :
  ∃ gs g,
    _getGriddedPTM [lastGrid] Caller (initial grid3) = (initial grid3, Ret gs)
    ∧ length gs = length (pts_of Caller (initial grid3))
    ∧ gs !! 2 = Some g
    ∧ shape g = length <$> pts_of Caller (initial grid3)
    ∧ length (data g) = size_of g
    ∧ nd_get g [1; 0; 1] = [1; 0; 1] !! 2 ≫= ([4; 5]%Q !!.).
Proof.
  apply (gridded_points_repeat_each_dimension [lastGrid] Caller (initial grid3) 2
           [4; 5]%Q [1; 0; 1]).
  - reflexivity.
  - reflexivity.
  - simpl. repeat constructor.
Defined.

(** * The derivative dictionary and the stored values *)

(** ** Each derivative is evaluated once, stored and shared (C9) *)




Lemma spline_calls_elem evs rd :
  rd ∈ spline_calls evs ↔ ∃ dd p, EvalSpline rd dd p ∈ evs.
Proof.
  unfold spline_calls. rewrite list_elem_of_omap. split.
  - intros (ev & Hev & Heq). destruct ev; try discriminate. injection Heq as ->. eauto.
  - intros (dd & p & Hev). by exists (EvalSpline rd dd p).
Qed.






Section Derivatives_once.
Context (E : Externals).






End Derivatives_once.

(** ** Each variable is computed once and its value stored *)





Section Stored.
Context (R : Resources) (tdvSpec : list TDV).



End Stored.




Section Once.
Context (E : Externals).


End Once.

(** ** Runs that bear on the round trip (C3) and on valid requests (C5) *)

(** C3, refuted as stated: the round trip does not hold for every closure.
    The variable [peek] needs the zero concentration and reads the copy of
    the point set kept in the result object: evaluated at molalities 0, 4, 5
    it is 3 everywhere, evaluated at molalities 4, 5 it is 2 everywhere, so
    the two calls differ at molality 4.  The variable [flat] needs the zero
    concentration and returns a two-dimensional array: at molalities 0, 4, 5 the
    call returns, at molalities 4, 5 the slicing of [_remove0M] raises
    [IndexError]. *)
Lemma round_trip_fails_for_some_closures :
  (∃ outA outB a b,
     snd (evalSolutionGibbs (registry [peek; G]) 2 sp3 PArray [ByName "peek"] MWv_default
            None true (initial [[1; 2]; [3]; [0; 4; 5]]%Q)) = Ret outA
     ∧ snd (evalSolutionGibbs (registry [peek; G]) 2 sp3 PArray [ByName "peek"]
              MWv_default None true (initial [[1; 2]; [3]; [4; 5]]%Q)) = Ret outB
     ∧ ("peek", a) ∈ vars outA ∧ ("peek", b) ∈ vars outB
     ∧ nd_get a [0; 0; 1] = Some 3%Q ∧ nd_get b [0; 0; 0] = Some 2%Q)
  ∧ (∃ outA,
       snd (evalSolutionGibbs (registry [flat]) 1 sp3 PArray [ByName "flat"] MWv_default
              None true (initial [[1; 2]; [3]; [0; 4; 5]]%Q)) = Ret outA)
  ∧ snd (evalSolutionGibbs (registry [flat]) 1 sp3 PArray [ByName "flat"] MWv_default
           None true (initial [[1; 2]; [3]; [4; 5]]%Q)) = Raise IndexError.
Proof.
  split_and!.
  - do 4 eexists. split_and!.
    + vm_compute. reflexivity.
    + vm_compute. reflexivity.
    + simpl. right. left.
    + simpl. right. left.
    + reflexivity.
    + reflexivity.
  - eexists. vm_compute. reflexivity.
  - vm_compute. reflexivity.
Qed.

(** C5, on the code: two requests that are valid by the specification and
    for which no variable is computed or stored.  The variable [rho] needs the
    solvent molecular weight only; asked for with the default solvent weight
    and no solute weight, on points inside the knots, the call raises the
    missing-parameter error for the solvent, because [_checkUserInput] receives
    the two weights in swapped positions.  The variable [G] asked for at the
    single point (1, 3) written with Python numbers raises [TypeError] out of
    [_wrapPTM].  In both calls the trace stays empty: nothing was computed. *)
Theorem valid_request_computes_nothing :
  evalSolutionGibbs (registry [rho]) 1 sp3 PArray [ByName "rho"] MWv_default None true
    (initial [[1; 2]; [3]; [4; 5]]%Q)
  = (initial [[1; 2]; [3]; [4; 5]]%Q, Raise (MissingParameter Solvent ["rho"]))
  ∧ evalSolutionGibbs (registry [G]) 1 sp2 (PTuple [PyNum 1; PyNum 3]) [ByName "G"]
      MWv_default None true (initial [])
    = (initial [], Raise TypeError).
Proof. split; vm_compute; reflexivity. Qed.

